(** * SimpleVector: a shallow embedding of [array_ptr.h] and [simple_vector.h]

    The container is modelled over an explicit store: a heap of array
    blocks (what [new Type[n]] creates and [delete[]] releases) and a table
    of [SimpleVector] objects addressed by their identity ([this]).
    Iterators are raw pointers, that is a block and an offset.  Member
    functions are computations in a state monad whose outcomes distinguish
    normal return, a thrown [std::out_of_range], a failed [assert] and
    undefined behaviour (an access outside a live block). *)

From Stdlib Require Import ZArith Lia.
From stdpp Require Import base option list.

Local Open Scope Z_scope.

(** ** Element types *)

(** What the template needs from [Type]: the value of [Type()], the content
    of a slot right after [new Type[n]] (the default value for a class type,
    indeterminate for a scalar, hence a field of its own), the value a
    move-assignment leaves in its source, whether [Type] is trivially
    copyable, in which case the library copies and moves a range of it
    with one [memmove] instead of an element-by-element loop, and
    [sizeof(Type)]. *)
Class Element (T : Type) := {
  elem_default : T;
  elem_new : T;
  elem_moved : T → T;
  elem_trivial : bool;
  elem_sizeof : Z
}.

(** [operator==] on elements, needed by the comparison operators only. *)
Class EqElement (T : Type) := {
  elem_eqb : T → T → bool
}.

(** [int]: a move is a copy; [junk] stands for the indeterminate content of
    [new int[n]]; [int] is trivially copyable. *)
Definition int_Element (junk : Z) : Element Z :=
  {| elem_default := 0; elem_new := junk; elem_moved := λ x, x;
     elem_trivial := true; elem_sizeof := 4 |}.

Definition int_EqElement : EqElement Z := {| elem_eqb := Z.eqb |}.

(** [operator<] on elements, needed by the ordering operators only. *)
Class OrdElement (T : Type) := {
  elem_ltb : T → T → bool
}.

Definition int_OrdElement : OrdElement Z := {| elem_ltb := Z.ltb |}.

(** The non-copyable class [X] of main.cpp: [X()] is [X(5)], and a move
    exchanges the source's [x_] with 0.  Its move constructor and move
    assignment are user-provided, so [X] is not trivially copyable; its
    one data member is a [size_t]. *)
Record X := mkX { x_ : Z }.

Definition X_Element : Element X :=
  {| elem_default := mkX 5; elem_new := mkX 5; elem_moved := λ _, mkX 0;
     elem_trivial := false; elem_sizeof := 8 |}.

(** ** size_t *)

Definition SIZE_BITS : Z := 64.
Definition SIZE_MOD : Z := 2 ^ SIZE_BITS.

(** Arithmetic on [size_t] wraps around. *)
Definition wrap (z : Z) : Z := z mod SIZE_MOD.

(** The largest object size in bytes. *)
Definition PTRDIFF_MAX : Z := 2 ^ (SIZE_BITS - 1) - 1.

(** ** Pointers, heap and object table *)

(** Blocks and objects are named by their number in the store. *)
Abbreviation block := nat (only parsing).
Abbreviation obj := nat (only parsing).

(** A [Type*]: the block it points into and the slot offset in it.
    [nullptr] has no block. *)
Record ptr := Ptr { base : option block; off : Z }.

Definition nullptr : ptr := Ptr None 0.

Definition ptr_add (p : ptr) (n : Z) : ptr := Ptr (base p) (off p + n).

Infix "+ₚ" := ptr_add (at level 50, left associativity).

(** [last - first] on pointers of one array. *)
Definition ptr_diff (last first : ptr) : Z := off last - off first.

(** Relational operators on pointers; pointers into different blocks are
    unordered. *)
Definition ptr_le (p q : ptr) : bool :=
  bool_decide (base p = base q) && (off p <=? off q).

Definition ptr_eqb (p q : ptr) : bool :=
  bool_decide (base p = base q) && (off p =? off q).

(** class ArrayPtr: the only data member is [raw_ptr_]. *)
Record ArrayPtr := mkArrayPtr { raw_ptr_ : ptr }.

(** class SimpleVector: data members, in declaration order. *)
Record SimpleVector := mkSimpleVector {
  items_ : ArrayPtr;
  size_ : Z;
  capacity_ : Z
}.

Definition set_items (a : ArrayPtr) (v : SimpleVector) : SimpleVector :=
  mkSimpleVector a (size_ v) (capacity_ v).
Definition set_size (n : Z) (v : SimpleVector) : SimpleVector :=
  mkSimpleVector (items_ v) n (capacity_ v).
Definition set_capacity (n : Z) (v : SimpleVector) : SimpleVector :=
  mkSimpleVector (items_ v) (size_ v) n.

(** class ReserveProxyObj, whose data member is also called [capacity_],
    and the free function [Reserve] that wraps a capacity in it. *)
Record ReserveProxyObj := mkReserveProxyObj { proxy_capacity_ : Z }.

Definition proxy_GetCapacity (object : ReserveProxyObj) : Z :=
  proxy_capacity_ object.

Definition Reserve (capacity_to_reserve : Z) : ReserveProxyObj :=
  mkReserveProxyObj capacity_to_reserve.

(** Causes of undefined behaviour that the model detects. *)
Inductive undefined :=
| BadLoad (p : ptr)
| BadStore (p : ptr)
| BadDelete (p : ptr)
| BadObject (o : obj)
| BadRange (first last : ptr).

Section Model.
Context {T : Type} `{Element T}.

(** A heap block is [Some cells] while allocated and [None] once deleted;
    block numbers are never reused. *)
Record state := State {
  heap : list (option (list T));
  objs : list SimpleVector
}.

Inductive outcome (A : Type) :=
| Ok (a : A) (σ : state)
| OutOfRange (σ : state)
| AssertFailed
| Undefined (u : undefined).

Global Arguments Ok {A} a σ.
Global Arguments OutOfRange {A} σ.
Global Arguments AssertFailed {A}.
Global Arguments Undefined {A} u.

Definition M (A : Type) : Type := state → outcome A.

Definition ret {A} (a : A) : M A := λ σ, Ok a σ.

Definition bind {A B} (m : M A) (k : A → M B) : M B :=
  λ σ, match m σ with
       | Ok a σ' => k a σ'
       | OutOfRange σ' => OutOfRange σ'
       | AssertFailed => AssertFailed
       | Undefined u => Undefined u
       end.

Definition throw_out_of_range {A} : M A := λ σ, OutOfRange σ.

Definition assert (b : bool) : M unit :=
  λ σ, if b then Ok () σ else AssertFailed.

Definition when (b : bool) (m : M unit) : M unit :=
  if b then m else ret ().

End Model.

Global Arguments state T : clear implicits.
Global Arguments outcome T A : clear implicits.
Global Arguments M T A : clear implicits.

Global Instance M_ret {T} : MRet (M T) := λ A, ret.
Global Instance M_bind {T} : MBind (M T) := λ A B k m, bind m k.

Section Memory.
Context {T : Type} `{Element T}.

(** The cells of a live block. *)
Definition block_cells (σ : state T) (b : block) : option (list T) :=
  mjoin (heap σ !! b).

(** The slot a pointer designates, when it lies inside a live block. *)
Definition cell_at (σ : state T) (p : ptr) : option T :=
  match base p with
  | Some b =>
      match block_cells σ b with
      | Some cells =>
          if bool_decide (0 ≤ off p) then cells !! Z.to_nat (off p) else None
      | None => None
      end
  | None => None
  end.

Definition set_cell (σ : state T) (b : block) (i : nat) (x : T) : state T :=
  match block_cells σ b with
  | Some cells => State (<[b := Some (<[i := x]> cells)]> (heap σ)) (objs σ)
  | None => σ
  end.

(** [*p] as an rvalue. *)
Definition load (p : ptr) : M T T :=
  λ σ, match cell_at σ p with
       | Some x => Ok x σ
       | None => Undefined (BadLoad p)
       end.

(** [*p = x]. *)
Definition store (p : ptr) (x : T) : M T unit :=
  λ σ, match cell_at σ p, base p with
       | Some _, Some b => Ok () (set_cell σ b (Z.to_nat (off p)) x)
       | _, _ => Undefined (BadStore p)
       end.

(** [new Type[n]].  The heap of the model is unbounded and grants every
    request: running out of memory ([std::bad_alloc]) is outside the
    model, and so is [std::bad_array_new_length], which [new[]] throws on
    every machine for a request of more than [PTRDIFF_MAX] bytes. *)
Definition new_array (n : Z) : M T ptr :=
  λ σ, Ok (Ptr (Some (length (heap σ))) 0)
          (State (heap σ ++ [Some (replicate (Z.to_nat n) elem_new)]) (objs σ)).

(** The requests that [new Type[n]] does not refuse outright.  What is
    proved of a function that allocates as many slots as its caller asks
    for is proved for these requests only. *)
Definition allocatable (n : Z) : Prop :=
  0 ≤ n ∧ n * elem_sizeof ≤ PTRDIFF_MAX.

(** [delete[] p]; deleting [nullptr] does nothing. *)
Definition delete_array (p : ptr) : M T unit :=
  λ σ, match base p with
       | None => Ok () σ
       | Some b =>
           match block_cells σ b with
           | Some _ =>
               if off p =? 0 then Ok () (State (<[b := None]> (heap σ)) (objs σ))
               else Undefined (BadDelete p)
           | None => Undefined (BadDelete p)
           end
       end.

(** Objects: creation, and access to the data members through [this]. *)
Definition new_obj (v : SimpleVector) : M T obj :=
  λ σ, Ok (length (objs σ)) (State (heap σ) (objs σ ++ [v])).

Definition get_obj (this : obj) : M T SimpleVector :=
  λ σ, match objs σ !! this with
       | Some v => Ok v σ
       | None => Undefined (BadObject this)
       end.

Definition upd_obj (this : obj) (f : SimpleVector → SimpleVector) : M T unit :=
  λ σ, match objs σ !! this with
       | Some v => Ok () (State (heap σ) (<[this := f v]> (objs σ)))
       | None => Undefined (BadObject this)
       end.

End Memory.

(** ** The standard algorithms the container calls

    Each is the element-by-element loop over raw pointers, run
    [last - first] times.  The fill loops test [first != last]; the
    container calls them with [last] at or after [first] only.

    [std::copy], [std::move] and their backward variants are given a range
    whose [last] lies before its [first] by [PopBack], since [Erase(end())]
    moves the range from [begin() + size_ + 1] to [begin() + size_].  That
    is undefined behaviour.  What the library does with it depends on
    [Type]: for a class type it runs the counted loop
    [for (n = last - first; n > 0; --n)], that is, not at all; for a
    trivially copyable type it calls [memmove] with the negative byte count
    [(last - first) * sizeof(Type)], and the program dies there.  The model
    follows it in both: zero steps for a class type, undefined for a
    trivially copyable one. *)

Section Algorithms.
Context {T : Type} `{Element T}.

(** The number of slots from [first] up to [last], for [last] at or
    after [first]; a range the other way round has none, and what the
    library does with one is said by [over_range]. *)
Definition range_len (first last : ptr) : nat := Z.to_nat (ptr_diff last first).

(** The library's walk over the range from [first] to [last]: slot by
    slot for a range the right way round; for one the other way round,
    undefined behaviour if [Type] is trivially copyable ([memmove] with a
    negative byte count), no step at all otherwise. *)
Definition over_range {A} (first last : ptr) (walk : nat → M T A) : M T A :=
  if (ptr_diff last first <? 0) && elem_trivial
  then λ _, Undefined (BadRange first last)
  else walk (range_len first last).

(** [*first = value] for each slot. *)
Fixpoint fill_loop (n : nat) (first : ptr) (value : T) : M T unit :=
  match n with
  | O => mret ()
  | S n' => store first value;; fill_loop n' (first +ₚ 1) value
  end.

Definition std_fill (first last : ptr) (value : T) : M T unit :=
  fill_loop (range_len first last) first value.

(** [*result = *first], front to back; returns the end of the output. *)
Fixpoint copy_loop (n : nat) (first result : ptr) : M T ptr :=
  match n with
  | O => mret result
  | S n' =>
      x ← load first;
      store result x;;
      copy_loop n' (first +ₚ 1) (result +ₚ 1)
  end.

Definition std_copy (first last result : ptr) : M T ptr :=
  over_range first last (λ n, copy_loop n first result).

(** [std::copy] out of a [std::initializer_list], which is not heap data. *)
Fixpoint copy_init (init : list T) (result : ptr) : M T ptr :=
  match init with
  | [] => mret result
  | x :: init' => store result x;; copy_init init' (result +ₚ 1)
  end.

(** [*--result = *--last], back to front. *)
Fixpoint copy_backward_loop (n : nat) (last result : ptr) : M T ptr :=
  match n with
  | O => mret result
  | S n' =>
      x ← load (last +ₚ -1);
      store (result +ₚ -1) x;;
      copy_backward_loop n' (last +ₚ -1) (result +ₚ -1)
  end.

Definition std_copy_backward (first last result : ptr) : M T ptr :=
  over_range first last (λ n, copy_backward_loop n last result).

(** [*result = std::move(x)] with [x] the slot at [first]: the move-assignment reads the source,
    leaves it in its moved-from state and assigns the target. *)
Definition move_assign (target source : ptr) : M T unit :=
  x ← load source;
  store source (elem_moved x);;
  store target x.

Fixpoint move_loop (n : nat) (first result : ptr) : M T ptr :=
  match n with
  | O => mret result
  | S n' =>
      move_assign result first;;
      move_loop n' (first +ₚ 1) (result +ₚ 1)
  end.

Definition std_move (first last result : ptr) : M T ptr :=
  over_range first last (λ n, move_loop n first result).

Fixpoint move_backward_loop (n : nat) (last result : ptr) : M T ptr :=
  match n with
  | O => mret result
  | S n' =>
      move_assign (result +ₚ -1) (last +ₚ -1);;
      move_backward_loop n' (last +ₚ -1) (result +ₚ -1)
  end.

Definition std_move_backward (first last result : ptr) : M T ptr :=
  over_range first last (λ n, move_backward_loop n last result).

(** The three-iterator [std::equal]: the second range is given by its
    start only and is read as far as the first range is long. *)
Fixpoint equal_loop `{EqElement T} (n : nat) (first1 first2 : ptr) : M T bool :=
  match n with
  | O => mret true
  | S n' =>
      x ← load first1;
      y ← load first2;
      if elem_eqb x y then equal_loop n' (first1 +ₚ 1) (first2 +ₚ 1)
      else mret false
  end.

Definition std_equal `{EqElement T} (first1 last1 first2 : ptr) : M T bool :=
  equal_loop (range_len first1 last1) first1 first2.

(** [std::lexicographical_compare]: walks both ranges while neither is
    exhausted, deciding at the first pair that differs; when it falls off
    the end, the first range is less exactly when it ended and the second
    one did not.  [n1] and [n2] are the lengths left. *)
Fixpoint lexicographical_compare_loop `{OrdElement T}
    (n1 n2 : nat) (first1 first2 : ptr) : M T bool :=
  match n1, n2 with
  | S n1', S n2' =>
      x ← load first1;
      y ← load first2;
      if elem_ltb x y then mret true
      else if elem_ltb y x then mret false
      else lexicographical_compare_loop n1' n2' (first1 +ₚ 1) (first2 +ₚ 1)
  | O, S _ => mret true
  | _, O => mret false
  end.

Definition std_lexicographical_compare `{OrdElement T}
    (first1 last1 first2 last2 : ptr) : M T bool :=
  lexicographical_compare_loop (range_len first1 last1) (range_len first2 last2)
    first1 first2.

End Algorithms.

(** ** class ArrayPtr *)

Module AP.
Section ArrayPtr.
Context {T : Type} `{Element T}.

(** [ArrayPtr() = default]. *)
Definition default : ArrayPtr := mkArrayPtr nullptr.

(** [explicit ArrayPtr(size_t size)]. *)
Definition create (size : Z) : M T ArrayPtr :=
  if size =? 0 then mret (mkArrayPtr nullptr)
  else p ← new_array size; mret (mkArrayPtr p).

(** [explicit ArrayPtr(Type* raw_ptr)]. *)
Definition from_raw (raw_ptr : ptr) : ArrayPtr := mkArrayPtr raw_ptr.

(** [~ArrayPtr()]. *)
Definition destroy (a : ArrayPtr) : M T unit := delete_array (raw_ptr_ a).

(** [Release()]: the returned address and the object afterwards. *)
Definition Release (a : ArrayPtr) : ptr * ArrayPtr :=
  let temp := raw_ptr_ a in (temp, mkArrayPtr nullptr).

(** [operator[](index)]: a reference to the slot, no bounds check. *)
Definition subscript (a : ArrayPtr) (i : Z) : ptr := raw_ptr_ a +ₚ i.

(** [explicit operator bool()]. *)
Definition to_bool (a : ArrayPtr) : bool :=
  match base (raw_ptr_ a) with Some _ => true | None => false end.

(** [Get()]: [&raw_ptr_[0]]. *)
Definition Get (a : ArrayPtr) : ptr := raw_ptr_ a +ₚ 0.

(** [swap(other)]: the two objects afterwards, [this] first. *)
Definition swap (a other : ArrayPtr) : ArrayPtr * ArrayPtr :=
  let temp := raw_ptr_ other in
  (mkArrayPtr temp, mkArrayPtr (raw_ptr_ a)).

End ArrayPtr.
End AP.

(** ** class SimpleVector *)

Module SV.
Section SimpleVector.
Context {T : Type} `{Element T}.

(** Reading a data member of [*this]. *)
Definition member {A} (this : obj) (f : SimpleVector → A) : M T A :=
  v ← get_obj this; mret (f v).

Definition GetSize (this : obj) : M T Z := member this size_.
Definition GetCapacity (this : obj) : M T Z := member this capacity_.
Definition IsEmpty (this : obj) : M T bool := member this (λ v, size_ v =? 0).

Definition begin (this : obj) : M T ptr :=
  member this (λ v, AP.Get (items_ v)).
Definition end_ (this : obj) : M T ptr :=
  member this (λ v, AP.Get (items_ v) +ₚ size_ v).
Definition cbegin (this : obj) : M T ptr := begin this.
Definition cend (this : obj) : M T ptr := end_ this.

(** [operator[](index)]: a reference to the slot. *)
Definition subscript (this : obj) (i : Z) : M T ptr :=
  member this (λ v, AP.subscript (items_ v) i).

(** The private [fill(first, last)], which assigns [Type()] to each slot. *)
Definition fill (first last : ptr) : M T unit :=
  fill_loop (range_len first last) first elem_default.

(** [items_.swap(temp)] on the member of [*this]; returns [temp] afterwards. *)
Definition swap_items (this : obj) (temp : ArrayPtr) : M T ArrayPtr :=
  v ← get_obj this;
  let '(mine, temp') := AP.swap (items_ v) temp in
  upd_obj this (set_items mine);;
  mret temp'.

(** [swap(other)]: [std::swap] of both counters, then of the buffers. *)
Definition swap (this other : obj) : M T unit :=
  a ← get_obj this;
  b ← get_obj other;
  upd_obj this (set_size (size_ b));;
  upd_obj other (set_size (size_ a));;
  a ← get_obj this;
  b ← get_obj other;
  upd_obj this (set_capacity (capacity_ b));;
  upd_obj other (set_capacity (capacity_ a));;
  b ← get_obj other;
  temp ← swap_items this (items_ b);
  upd_obj other (set_items temp).

(** [Clear()]. *)
Definition Clear (this : obj) : M T unit := upd_obj this (set_size 0).

(** The member function [Reserve(new_capacity)]. *)
Definition Reserve (this : obj) (new_capacity : Z) : M T unit :=
  v ← get_obj this;
  if new_capacity >? capacity_ v then
    temp ← AP.create new_capacity;
    fill (AP.Get temp) (AP.Get temp +ₚ new_capacity);;
    b ← begin this;
    std_move b (b +ₚ size_ v) (AP.Get temp);;
    temp ← swap_items this temp;
    upd_obj this (set_capacity new_capacity);;
    AP.destroy temp
  else mret ().

(** *** Constructors; each returns the identity of the new object *)

(** [SimpleVector() noexcept = default]. *)
Definition ctor_default : M T obj :=
  new_obj (mkSimpleVector AP.default 0 0).

(** [SimpleVector(size_t size, const Type& value)]. *)
Definition ctor_fill (size : Z) (value : T) : M T obj :=
  items ← AP.create size;
  this ← new_obj (mkSimpleVector items size size);
  b ← begin this;
  std_fill b (b +ₚ size) value;;
  mret this.

(** [explicit SimpleVector(size_t size)]. *)
Definition ctor_size (size : Z) : M T obj := ctor_fill size elem_default.

(** [SimpleVector(std::initializer_list<Type> init)]. *)
Definition ctor_init (init : list T) : M T obj :=
  let n := Z.of_nat (length init) in
  items ← AP.create n;
  this ← new_obj (mkSimpleVector items n n);
  b ← begin this;
  copy_init init b;;
  mret this.

(** [SimpleVector(const SimpleVector& other)]: the member initialisers
    name [items_] and [size_]; [capacity_] keeps its default initialiser
    [= 0]. *)
Definition ctor_copy (other : obj) : M T obj :=
  o ← get_obj other;
  items ← AP.create (capacity_ o);
  this ← new_obj (mkSimpleVector items (size_ o) 0);
  first ← begin other;
  last ← end_ other;
  b ← begin this;
  std_copy first last b;;
  mret this.

(** [SimpleVector(SimpleVector&& other)]. *)
Definition ctor_move (other : obj) : M T obj :=
  o ← get_obj other;
  items ← AP.create (capacity_ o);
  this ← new_obj (mkSimpleVector items 0 0);
  swap this other;;
  mret this.

(** [SimpleVector(ReserveProxyObj object)]. *)
Definition ctor_reserve (object : ReserveProxyObj) : M T obj :=
  this ← new_obj (mkSimpleVector AP.default 0 0);
  Reserve this (proxy_GetCapacity object);;
  mret this.

(** [~SimpleVector()]: the body, then the destructor of [items_]. *)
Definition dtor (this : obj) : M T unit :=
  Clear this;;
  v ← get_obj this;
  AP.destroy (items_ v).

(** *** Assignment *)

(** [operator=(const SimpleVector& rhs)]; [&items_ != &rhs.items_]
    compares the addresses of the members, hence the object identities. *)
Definition assign_copy (this rhs : obj) : M T unit :=
  if bool_decide (this ≠ rhs) then
    cap ← GetCapacity rhs;
    temp ← AP.create cap;
    first ← begin rhs;
    last ← end_ rhs;
    std_copy first last (AP.Get temp);;
    temp ← swap_items this temp;
    n ← GetSize rhs;
    upd_obj this (set_size n);;
    cap ← GetCapacity rhs;
    upd_obj this (set_capacity cap);;
    AP.destroy temp
  else mret ().

(** [operator=(SimpleVector&& rhs)]. *)
Definition assign_move (this rhs : obj) : M T unit :=
  if bool_decide (this ≠ rhs) then
    cap ← GetCapacity rhs;
    temp ← AP.create cap;
    first ← begin rhs;
    last ← end_ rhs;
    std_move first last (AP.Get temp);;
    temp ← swap_items this temp;
    n ← GetSize rhs;
    upd_obj this (set_size n);;
    cap ← GetCapacity rhs;
    upd_obj this (set_capacity cap);;
    AP.destroy temp
  else mret ().

(** *** Checked access *)

(** [At(index)]: throws [std::out_of_range] or returns a reference; the
    const overload has the same body. *)
Definition At (this : obj) (i : Z) : M T ptr :=
  v ← get_obj this;
  if i >=? size_ v then throw_out_of_range
  else mret (AP.subscript (items_ v) i).

(** *** Resize: three consecutive [if] statements *)

Definition Resize (this : obj) (new_size : Z) : M T unit :=
  v ← get_obj this;
  when (new_size <=? size_ v) (upd_obj this (set_size new_size));;
  v ← get_obj this;
  when (new_size <=? capacity_ v)
    (b ← begin this;
     fill (b +ₚ size_ v) (b +ₚ size_ v +ₚ new_size);;
     upd_obj this (set_size new_size));;
  v ← get_obj this;
  when (new_size >? capacity_ v)
    (let new_capacity := Z.max new_size (wrap (capacity_ v * 2)) in
     temp ← AP.create new_capacity;
     fill (AP.Get temp) (AP.Get temp +ₚ new_capacity);;
     b ← begin this;
     std_move b (b +ₚ capacity_ v) (AP.Get temp);;
     temp ← swap_items this temp;
     upd_obj this (set_size new_size);;
     upd_obj this (set_capacity new_capacity);;
     AP.destroy temp).

(** *** Insert *)

(** [Insert(ConstIterator pos, const Type& value)]; returns
    [const_cast<Iterator>(pos)]. *)
Definition Insert_copy (this : obj) (pos : ptr) (value : T) : M T ptr :=
  b ← begin this;
  e ← end_ this;
  assert (ptr_le b pos && ptr_le pos e);;
  cb ← cbegin this;
  let index := wrap (ptr_diff pos cb) in
  v ← get_obj this;
  (if capacity_ v >? size_ v then
     e ← end_ this;
     std_copy_backward pos e (e +ₚ 1);;
     v ← get_obj this;
     store (AP.subscript (items_ v) index) value
   else
     let new_capacity := if capacity_ v =? 0 then 1 else wrap (capacity_ v * 2) in
     temp ← AP.create new_capacity;
     b ← begin this;
     std_copy b pos (AP.Get temp);;
     store (AP.subscript temp index) value;;
     e ← end_ this;
     std_copy pos e (AP.Get temp +ₚ index +ₚ 1);;
     temp ← swap_items this temp;
     upd_obj this (set_capacity new_capacity);;
     AP.destroy temp);;
  v ← get_obj this;
  upd_obj this (set_size (wrap (size_ v + 1)));;
  mret pos.

(** [Insert(ConstIterator pos, Type&& value)]; returns [begin() + index]. *)
Definition Insert_move (this : obj) (pos : ptr) (value : T) : M T ptr :=
  b ← begin this;
  e ← end_ this;
  assert (ptr_le b pos && ptr_le pos e);;
  cb ← cbegin this;
  let index := wrap (ptr_diff pos cb) in
  v ← get_obj this;
  (if capacity_ v >? size_ v then
     e ← end_ this;
     std_move_backward pos e (e +ₚ 1);;
     v ← get_obj this;
     store (AP.subscript (items_ v) index) value
   else
     let new_capacity := if capacity_ v =? 0 then 1 else wrap (capacity_ v * 2) in
     temp ← AP.create new_capacity;
     b ← begin this;
     std_move b pos (AP.Get temp);;
     store (AP.subscript temp index) value;;
     e ← end_ this;
     std_move pos e (AP.Get temp +ₚ index +ₚ 1);;
     temp ← swap_items this temp;
     upd_obj this (set_capacity new_capacity);;
     AP.destroy temp);;
  v ← get_obj this;
  upd_obj this (set_size (wrap (size_ v + 1)));;
  b ← begin this;
  mret (b +ₚ index).

(** *** PushBack *)

(** [PushBack(const Type& item)]; [item] is taken by value here, that is,
    it does not refer to a slot of the vector's own buffer. *)
Definition PushBack_copy (this : obj) (item : T) : M T unit :=
  v ← get_obj this;
  when (wrap (size_ v + 1) >? capacity_ v)
    (let new_capacity := Z.max (wrap (size_ v + 1)) (wrap (capacity_ v * 2)) in
     temp ← AP.create new_capacity;
     std_fill (AP.Get temp) (AP.Get temp +ₚ new_capacity) elem_default;;
     b ← begin this;
     std_copy b (b +ₚ size_ v) (AP.Get temp);;
     temp ← swap_items this temp;
     upd_obj this (set_capacity new_capacity);;
     AP.destroy temp);;
  v ← get_obj this;
  store (AP.subscript (items_ v) (size_ v)) item;;
  upd_obj this (set_size (wrap (size_ v + 1))).

(** [PushBack(Type&& item)]. *)
Definition PushBack_move (this : obj) (item : T) : M T unit :=
  v ← get_obj this;
  when (wrap (size_ v + 1) >? capacity_ v)
    (let new_capacity := Z.max (wrap (size_ v + 1)) (wrap (capacity_ v * 2)) in
     temp ← AP.create new_capacity;
     b ← begin this;
     std_move b (b +ₚ size_ v) (AP.Get temp);;
     temp ← swap_items this temp;
     upd_obj this (set_capacity new_capacity);;
     AP.destroy temp);;
  v ← get_obj this;
  store (AP.subscript (items_ v) (size_ v)) item;;
  upd_obj this (set_size (wrap (size_ v + 1))).

(** *** Erase and PopBack *)

(** [Erase(ConstIterator pos)]; returns [&items_[index]]. *)
Definition Erase (this : obj) (pos : ptr) : M T ptr :=
  cb ← cbegin this;
  let index := wrap (ptr_diff pos cb) in
  v ← get_obj this;
  temp ← AP.create (capacity_ v);
  b ← begin this;
  std_move b (b +ₚ index) (AP.Get temp);;
  std_move (b +ₚ index +ₚ 1) (b +ₚ size_ v) (AP.Get temp +ₚ index);;
  temp ← swap_items this temp;
  upd_obj this (set_size (wrap (size_ v - 1)));;
  v ← get_obj this;
  let r := AP.subscript (items_ v) index in
  AP.destroy temp;;
  mret r.

(** [PopBack()]: [assert(items_)], then [Erase(end())]. *)
Definition PopBack (this : obj) : M T unit :=
  v ← get_obj this;
  assert (AP.to_bool (items_ v));;
  e ← end_ this;
  Erase this e;;
  mret ().

(** *** Comparison *)

(** [operator==(lhs, rhs)]. *)
Definition eq_op `{EqElement T} (lhs rhs : obj) : M T bool :=
  first1 ← begin lhs;
  last1 ← end_ lhs;
  first2 ← begin rhs;
  std_equal first1 last1 first2.

(** [operator!=(lhs, rhs)]. *)
Definition ne_op `{EqElement T} (lhs rhs : obj) : M T bool :=
  first1 ← begin lhs;
  last1 ← end_ lhs;
  first2 ← begin rhs;
  r ← std_equal first1 last1 first2;
  mret (negb r).

(** [operator<(lhs, rhs)]. *)
Definition lt_op `{OrdElement T} (lhs rhs : obj) : M T bool :=
  first1 ← begin lhs;
  last1 ← end_ lhs;
  first2 ← begin rhs;
  last2 ← end_ rhs;
  std_lexicographical_compare first1 last1 first2 last2.

(** [operator>(lhs, rhs)]: [rhs < lhs]. *)
Definition gt_op `{OrdElement T} (lhs rhs : obj) : M T bool :=
  lt_op rhs lhs.

(** [operator<=(lhs, rhs)]: [!(lhs > rhs)]. *)
Definition le_op `{OrdElement T} (lhs rhs : obj) : M T bool :=
  r ← gt_op lhs rhs;
  mret (negb r).

(** [operator>=(lhs, rhs)]: [!(lhs < rhs)]. *)
Definition ge_op `{OrdElement T} (lhs rhs : obj) : M T bool :=
  r ← lt_op lhs rhs;
  mret (negb r).

End SimpleVector.
End SV.

(** ** Representation invariant and specification vocabulary *)

Section Invariant.
Context {T : Type} `{Element T}.

(** The number of slots of a live block. *)
Definition extent (σ : state T) (b : block) : option nat :=
  length <$> block_cells σ b.

(** What survives element writes: which blocks are live, how long they
    are, and the object table. *)
Definition shape (σ : state T) : list (option nat) * list SimpleVector :=
  (fmap (M:=list) (fmap (M:=option) (length (A:=T))) (heap σ), objs σ).

(** [p] designates a slot of a live block. *)
Definition in_bounds (σ : state T) (p : ptr) : Prop :=
  ∃ b n, base p = Some b ∧ extent σ b = Some n ∧ 0 ≤ off p < Z.of_nat n.

(** The [n] slots from [p] on lie in one live block (nothing is asked of
    [p] when [n] is zero: [nullptr] is then fine). *)
Definition range_ok (σ : state T) (p : ptr) (n : nat) : Prop :=
  n = 0%nat ∨
  ∃ b len, base p = Some b ∧ extent σ b = Some len ∧
           0 ≤ off p ∧ off p + Z.of_nat n ≤ Z.of_nat len.

(** The data-model invariant of the specification: [size_] is at most
    [capacity_], and [capacity_] is the allocated slot count of the buffer
    that [items_] holds ([nullptr] holding none). *)
Definition valid (σ : state T) (v : SimpleVector) : Prop :=
  0 ≤ size_ v ≤ capacity_ v ∧ capacity_ v < SIZE_MOD ∧
  off (raw_ptr_ (items_ v)) = 0 ∧
  match base (raw_ptr_ (items_ v)) with
  | Some b => extent σ b = Some (Z.to_nat (capacity_ v))
  | None => capacity_ v = 0
  end.

(** What [PushBack] needs of a vector, valid or not, when it has to
    grow: the counters are not negative, and the buffer holds at least
    the [size_] slots of the elements ([nullptr] holding none).  A
    copy-constructed vector, whose [capacity_] is 0 whatever it holds,
    is such a vector. *)
Definition has_elements (σ : state T) (v : SimpleVector) : Prop :=
  0 ≤ size_ v ∧ 0 ≤ capacity_ v ∧
  off (raw_ptr_ (items_ v)) = 0 ∧
  match base (raw_ptr_ (items_ v)) with
  | Some b => ∃ n, extent σ b = Some n ∧ size_ v ≤ Z.of_nat n
  | None => size_ v = 0
  end.

(** The allocated slot count of the buffer an object holds. *)
Definition allocated (σ : state T) (v : SimpleVector) : option nat :=
  match base (raw_ptr_ (items_ v)) with
  | Some b => extent σ b
  | None => Some 0%nat
  end.

(** Total correctness: [m] returns normally from [σ], with a result and a
    final state that satisfy [Q]. *)
Definition returns {A} (m : M T A) (σ : state T) (Q : A → state T → Prop) : Prop :=
  ∃ a σ', m σ = Ok a σ' ∧ Q a σ'.

(** The two overloads of [PushBack]. *)
Inductive overload := ByCopy | ByMove.

Definition PushBack (o : overload) (this : obj) (item : T) : M T unit :=
  match o with
  | ByCopy => SV.PushBack_copy this item
  | ByMove => SV.PushBack_move this item
  end.

(** Appending one item after the other; the result lists [GetSize()] and
    [GetCapacity()] as observed after each call. *)
Fixpoint push_all (this : obj) (l : list (overload * T)) : M T (list (Z * Z)) :=
  match l with
  | [] => mret []
  | (o, x) :: l' =>
      PushBack o this x;;
      n ← SV.GetSize this;
      c ← SV.GetCapacity this;
      t ← push_all this l';
      mret ((n, c) :: t)
  end.

(** The capacity [PushBack] asks for when [size_ + 1 > capacity_]. *)
Definition grown_capacity (size capacity : Z) : Z :=
  Z.max (size + 1) (capacity * 2).

(** What one [PushBack] on a valid vector [v] of [σ] achieves: the vector
    is valid again, one longer, and its capacity is the old one, or the
    grown one when there was no room. *)
Definition pushed (σ : state T) (this : obj) (v : SimpleVector)
    (_ : unit) (σ' : state T) : Prop :=
  ∃ v', objs σ' !! this = Some v' ∧ valid σ' v' ∧
        size_ v' = size_ v + 1 ∧
        capacity_ v' = (if size_ v + 1 >? capacity_ v
                        then grown_capacity (size_ v) (capacity_ v)
                        else capacity_ v) ∧
        length (objs σ') = length (objs σ).

End Invariant.

(** ** The contents of a vector, and list functions to describe them *)

Section Views.
Context {T : Type}.

(** All slots of the buffer an object holds, live or not. *)
Definition buffer (σ : state T) (v : SimpleVector) : option (list T) :=
  match base (raw_ptr_ (items_ v)) with
  | Some b => block_cells σ b
  | None => Some []
  end.

(** The elements of a vector: its first [size_] slots. *)
Definition elements (σ : state T) (v : SimpleVector) : option (list T) :=
  take (Z.to_nat (size_ v)) <$> buffer σ v.

(** Every block other than [b] is in [σ'] what it is in [σ]. *)
Definition same_blocks_but (b : option block) (σ σ' : state T) : Prop :=
  ∀ b', Some b' ≠ b → (b' < length (heap σ))%nat → heap σ' !! b' = heap σ !! b'.

(** [p] is the start of a live block with the slots [cells], or [nullptr]
    with no slots. *)
Definition holds (h : list (option (list T))) (p : ptr) (cells : list T) : Prop :=
  off p = 0 ∧
  match base p with
  | Some b => h !! b = Some (Some cells)
  | None => cells = []
  end.

(** The slots [cells] once the [n] values from slot [i] on are moved out
    of them, and the heap whose block at [p] is left so. *)
Definition moved_from `{Element T} (i n : nat) (cells : list T) : list T :=
  take i cells ++ (elem_moved <$> take n (drop i cells)) ++ drop (i + n) cells.

Definition moved_out `{Element T} (p : ptr) (i n : nat) (cells : list T)
    (h : list (option (list T))) : list (option (list T)) :=
  match base p with
  | Some b => <[b := Some (moved_from i n cells)]> h
  | None => h
  end.

(** The heap once the block that [p] points to, if any, is deleted. *)
Definition retire (p : ptr) (h : list (option (list T))) : list (option (list T)) :=
  match base p with
  | Some b => <[b := None]> h
  | None => h
  end.

(** What a reallocation does around the elements: the object [this], which
    was [v], is now [v'] and holds a block that did not exist in [σ]; the
    block that [v] held is deleted; no other object and no other block of
    [σ] has changed. *)
Definition rehoused (σ : state T) (this : obj) (v v' : SimpleVector)
    (σ' : state T) : Prop :=
  objs σ' = <[this := v']> (objs σ) ∧
  raw_ptr_ (items_ v') = Ptr (Some (length (heap σ))) 0 ∧
  same_blocks_but (base (raw_ptr_ (items_ v))) σ σ' ∧
  (∀ b, base (raw_ptr_ (items_ v)) = Some b → heap σ' !! b = Some None).

(** What appending [item] to the vector [v] of [σ], whose slots are
    [cells], leaves behind: the object is valid and one element longer,
    its elements are the old ones followed by [item], no other object and
    no block but the vector's old buffer has changed, and when there was
    room the vector still holds the same buffer. *)
Definition appended (σ : state T) (this : obj) (v : SimpleVector)
    (cells : list T) (item : T) (_ : unit) (σ' : state T) : Prop :=
  ∃ v', objs σ' = <[this := v']> (objs σ) ∧ valid σ' v' ∧
        size_ v' = size_ v + 1 ∧
        elements σ' v' = Some (take (Z.to_nat (size_ v)) cells ++ [item]) ∧
        same_blocks_but (base (raw_ptr_ (items_ v))) σ σ' ∧
        (size_ v < capacity_ v → items_ v' = items_ v).

(** Pairwise [==] along the first list. *)
Fixpoint all_eqb `{EqElement T} (xs ys : list T) : bool :=
  match xs, ys with
  | [], _ => true
  | x :: xs', y :: ys' => elem_eqb x y && all_eqb xs' ys'
  | _ :: _, [] => false
  end.

(** The lexicographic order that [<] on elements induces on lists. *)
Fixpoint lex_ltb `{OrdElement T} (xs ys : list T) : bool :=
  match xs, ys with
  | x :: xs', y :: ys' =>
      if elem_ltb x y then true
      else if elem_ltb y x then false
      else lex_ltb xs' ys'
  | [], _ :: _ => true
  | _, [] => false
  end.

End Views.

(** ** Concrete programs

    Small client programs, run from the empty store.  The [int] ones take
    [-1] for the indeterminate content of [new int[n]]. *)

Definition empty_store {T : Type} : state T := State [] [].

Definition int_elem : Element Z := int_Element (-1).

(** The object whose buffer is block [b], with the given size and capacity. *)
Definition vec (b : block) (size capacity : Z) : SimpleVector :=
  mkSimpleVector (mkArrayPtr (Ptr (Some b) 0)) size capacity.

(** [for (size_t i = 0; i < size; ++i) vec.PushBack(X(i));] of main.cpp,
    with [i] the next value and [n] the number of rounds left. *)
Fixpoint push_X (this : obj) (n : nat) (i : Z) : M X unit :=
  match n with
  | O => mret ()
  | S n' => SV.PushBack_move (H:=X_Element) this (mkX i);; push_X this n' (i + 1)
  end.

Module Programs.
Section IntPrograms.
Local Existing Instance int_elem.
Local Existing Instance int_EqElement.

(** [SimpleVector<int> src{1, 2, 3}; SimpleVector<int> dst(src);] and the
    sizes and capacities of both. *)
Definition copy_construct : M Z (obj * obj) :=
  src ← SV.ctor_init [1; 2; 3];
  dst ← SV.ctor_copy src;
  mret (src, dst).

Definition copy_construct_observed : M Z (Z * Z * Z * Z) :=
  '(src, dst) ← copy_construct;
  n1 ← SV.GetSize src;
  c1 ← SV.GetCapacity src;
  n2 ← SV.GetSize dst;
  c2 ← SV.GetCapacity dst;
  mret (n1, c1, n2, c2).

(** [a{1, 2}], [b{1, 2, 3}]: [a == b], [a != b] and the two sizes. *)
Definition compare_prefix : M Z (bool * bool * Z * Z) :=
  a ← SV.ctor_init [1; 2];
  b ← SV.ctor_init [1; 2; 3];
  e ← SV.eq_op a b;
  n ← SV.ne_op a b;
  na ← SV.GetSize a;
  nb ← SV.GetSize b;
  mret (e, n, na, nb).

(** The same two vectors, compared as [b == a]. *)
Definition compare_longer_first : M Z bool :=
  a ← SV.ctor_init [1; 2];
  b ← SV.ctor_init [1; 2; 3];
  SV.eq_op b a.

(** [v{1, 2, 3, 4}; v.Resize(n);]. *)
Definition resize_four (n : Z) : M Z obj :=
  v ← SV.ctor_init [1; 2; 3; 4];
  SV.Resize v n;;
  mret v.

(** [v(Reserve(4)); v.PushBack(1); v.PushBack(2); v.Resize(3);]. *)
Definition resize_within_capacity : M Z obj :=
  v ← SV.ctor_reserve (Reserve 4);
  SV.PushBack_copy v 1;;
  SV.PushBack_copy v 2;;
  SV.Resize v 3;;
  mret v.

(** [v{1, 2, 3}; it = v.Insert(v.begin() + 1, 9);] through either
    overload; the result pairs the returned iterator with [v.begin()]
    as it is afterwards. *)
Definition insert_full (o : overload) : M Z (obj * ptr * ptr) :=
  v ← SV.ctor_init [1; 2; 3];
  b ← SV.begin v;
  it ← match o with
       | ByCopy => SV.Insert_copy v (b +ₚ 1) 9
       | ByMove => SV.Insert_move v (b +ₚ 1) 9
       end;
  b' ← SV.begin v;
  mret (v, it, b').

(** Reading through the iterator that [Insert] returned. *)
Definition insert_full_deref (o : overload) : M Z Z :=
  '(_, it, _) ← insert_full o;
  load it.

End IntPrograms.

Section XPrograms.
Local Existing Instance X_Element.

(** [src] receives [X(0)], [X(1)], [X(2)]; then [dst = std::move(src);]
    on an existing [dst]. *)
Definition move_assign_X : M X (obj * obj) :=
  src ← SV.ctor_default;
  push_X src 3 0;;
  dst ← SV.ctor_default;
  SV.assign_move dst src;;
  mret (src, dst).

(** The same source, moved from by [SimpleVector<X> dst(std::move(src));]. *)
Definition move_construct_X : M X (obj * obj) :=
  src ← SV.ctor_default;
  push_X src 3 0;;
  dst ← SV.ctor_move src;
  mret (src, dst).

(** [SimpleVector<X> v(Reserve(4)); v.PopBack();]. *)
Definition pop_reserved : M X obj :=
  v ← SV.ctor_reserve (Reserve 4);
  SV.PopBack v;;
  mret v.

(** [SimpleVector<X> v;], then [v.PushBack(X(i))] for [i] from 0 to 2,
    then [v.Clear(); v.PopBack();]. *)
Definition pop_cleared : M X obj :=
  v ← SV.ctor_default;
  push_X v 3 0;;
  SV.Clear v;;
  SV.PopBack v;;
  mret v.

(** [SimpleVector<X> v; v.PopBack();]. *)
Definition pop_default : M X obj :=
  v ← SV.ctor_default;
  SV.PopBack v;;
  mret v.

(** [TestNoncopiableResize] of main.cpp up to its second [Resize]. *)
Definition resize_test_prefix : M X obj :=
  vec ← SV.ctor_default;
  push_X vec 10 0;;
  SV.Resize vec 20;;
  SV.Resize vec 10;;
  mret vec.

(** ... and with its last call, [vec.Resize(32)]. *)
Definition resize_test : M X obj :=
  vec ← resize_test_prefix;
  SV.Resize vec 32;;
  mret vec.

End XPrograms.
(** A store with one [int] vector of size 2 and capacity 4. *)
Definition store_2_of_4 : state Z := State [Some [7; 8; -1; -1]] [vec 0 2 4].

End Programs.

(** Stores with [int] vectors on which the general theorems are
    instantiated. *)
Module Samples.

(** Object 0 is [{1, 2, 3}] with capacity 4, object 1 is [{4, 5}] with
    capacity 2, object 2 is empty with no buffer. *)
Definition three_vectors : state Z :=
  State [Some [1; 2; 3; 0]; Some [4; 5]]
        [vec 0 3 4; vec 1 2 2; mkSimpleVector AP.default 0 0].

(** A vector as the copy constructor leaves it: the elements 1, 2, 3 in a
    buffer of 3 slots, size 3 and [capacity_] 0. *)
Definition copied : state Z := State [Some [1; 2; 3]] [vec 0 3 0].

(** A vector of [X] with the elements [X(1)], [X(2)], [X(3)] and capacity
    4. *)
Definition three_X : state X :=
  State [Some [mkX 1; mkX 2; mkX 3; mkX 5]] [vec 0 3 4].

(** Two vectors that hold [{7, 8}], with capacities 4 and 2. *)
Definition same_elements : state Z :=
  State [Some [7; 8; -1; -1]; Some [7; 8]] [vec 0 2 4; vec 1 2 2].

End Samples.

(** Lengths of lists built from [take], [drop], [replicate] and the like. *)
Ltac list_len :=
  repeat first
    [ rewrite length_insert | rewrite length_app | rewrite length_take
    | rewrite length_drop | rewrite length_replicate | rewrite length_fmap
    | rewrite length_cons ];
  simpl; lia.

(** ** Basic facts about the store *)

Section StoreFacts.
Context {T : Type} `{Element T}.
Implicit Types (σ : state T) (p : ptr) (v : SimpleVector).

(** A range whose [last] is at or after its [first] is walked slot by
    slot, whatever the element type. *)
Lemma over_range_forward {A} first last (walk : nat → M T A) :
  0 ≤ ptr_diff last first →
  over_range first last walk = walk (range_len first last).
Proof.
  intros Hfwd. unfold over_range.
  by destruct (Z.ltb_spec (ptr_diff last first) 0); [lia |].
Qed.

Lemma over_range_add {A} p n (walk : nat → M T A) :
  0 ≤ n → over_range p (p +ₚ n) walk = walk (Z.to_nat n).
Proof.
  intros Hn. rewrite over_range_forward by (unfold ptr_diff; simpl; lia).
  unfold range_len, ptr_diff. simpl. do 2 f_equal. lia.
Qed.

(** For a class type a range whose [last] lies before its [first] is not
    walked at all. *)
Lemma over_range_class {A} first last (walk : nat → M T A) :
  elem_trivial = false →
  over_range first last walk = walk (range_len first last).
Proof. intros Hclass. unfold over_range. by rewrite Hclass, andb_false_r. Qed.

(** For a trivially copyable type it is undefined behaviour. *)
Lemma over_range_reversed {A} first last (walk : nat → M T A) σ :
  elem_trivial = true → ptr_diff last first < 0 →
  over_range first last walk σ = Undefined (BadRange first last).
Proof.
  intros Htriv Hrev. unfold over_range. rewrite Htriv.
  by destruct (Z.ltb_spec (ptr_diff last first) 0); [| lia].
Qed.

Lemma returns_ret {A} (a : A) σ (Q : A → state T → Prop) :
  Q a σ → returns (mret a) σ Q.
Proof. intros HQ. exists a, σ. split; [reflexivity | exact HQ]. Qed.

Lemma returns_bind {A B} (m : M T A) (k : A → M T B) σ (Q : B → state T → Prop) :
  returns m σ (λ a σ', returns (k a) σ' Q) → returns (m ≫= k) σ Q.
Proof.
  intros (a & σ1 & Hm & b & σ2 & Hk & HQ).
  exists b, σ2. split; [| exact HQ].
  unfold mbind, M_bind, bind. rewrite Hm. exact Hk.
Qed.

Lemma returns_mono {A} (m : M T A) σ (P Q : A → state T → Prop) :
  returns m σ P → (∀ a σ', P a σ' → Q a σ') → returns m σ Q.
Proof. intros (a & σ' & Hm & HP) HPQ. exists a, σ'. auto. Qed.

Lemma returns_when (b : bool) (m : M T unit) σ (Q : unit → state T → Prop) :
  (b = true → returns m σ Q) → (b = false → Q () σ) → returns (when b m) σ Q.
Proof.
  destruct b; simpl; intros Ht Hf; [auto |].
  apply returns_ret. auto.
Qed.

Lemma returns_get_obj this v σ (Q : SimpleVector → state T → Prop) :
  objs σ !! this = Some v → Q v σ → returns (get_obj this) σ Q.
Proof. intros Hv HQ. exists v, σ. unfold get_obj. rewrite Hv. auto. Qed.

Lemma returns_member {A} this (f : SimpleVector → A) v σ (Q : A → state T → Prop) :
  objs σ !! this = Some v → Q (f v) σ → returns (SV.member this f) σ Q.
Proof.
  intros Hv HQ. unfold SV.member. apply returns_bind.
  apply (returns_get_obj this v); [exact Hv |]. by apply returns_ret.
Qed.

Lemma returns_upd_obj this f v σ (Q : unit → state T → Prop) :
  objs σ !! this = Some v →
  Q () (State (heap σ) (<[this := f v]> (objs σ))) →
  returns (upd_obj this f) σ Q.
Proof. intros Hv HQ. eexists _, _. unfold upd_obj. rewrite Hv. eauto. Qed.

Lemma returns_new_array n σ (Q : ptr → state T → Prop) :
  Q (Ptr (Some (length (heap σ))) 0)
    (State (heap σ ++ [Some (replicate (Z.to_nat n) elem_new)]) (objs σ)) →
  returns (new_array n) σ Q.
Proof. intros HQ. eexists _, _. split; [reflexivity | exact HQ]. Qed.

Lemma extent_shape σ σ' b : shape σ' = shape σ → extent σ' b = extent σ b.
Proof.
  unfold shape, extent, block_cells. intros [= Hh _].
  pose proof (f_equal (λ l : list (option nat), l !! b) Hh) as Hb.
  simpl in Hb. rewrite !list_lookup_fmap in Hb. revert Hb.
  destruct (heap σ' !! b) as [[c'|]|], (heap σ !! b) as [[c|]|];
    simpl; congruence.
Qed.

Lemma objs_shape σ σ' : shape σ' = shape σ → objs σ' = objs σ.
Proof. unfold shape. by intros [= _ Ho]. Qed.

Lemma in_bounds_shape σ σ' p : shape σ' = shape σ → in_bounds σ p → in_bounds σ' p.
Proof.
  intros Hs (b & n & Hb & He & Ho). exists b, n.
  rewrite (extent_shape _ _ _ Hs). auto.
Qed.

Lemma range_ok_shape σ σ' p n : shape σ' = shape σ → range_ok σ p n → range_ok σ' p n.
Proof.
  intros Hs [-> | (b & len & Hb & He & Ho)]; [by left |].
  right. exists b, len. rewrite (extent_shape _ _ _ Hs). auto.
Qed.

Lemma valid_shape σ σ' v : shape σ' = shape σ → valid σ v → valid σ' v.
Proof.
  unfold valid. intros Hs (? & ? & ? & Hb). repeat split; try done; try lia.
  destruct (base (raw_ptr_ (items_ v))); [| done].
  by rewrite (extent_shape _ _ _ Hs).
Qed.

Lemma in_bounds_cell σ p : in_bounds σ p → ∃ x, cell_at σ p = Some x.
Proof.
  intros (b & n & Hb & He & Ho). unfold cell_at, extent in *. rewrite Hb.
  destruct (block_cells σ b) as [cells|]; [| done].
  injection He as <-. rewrite bool_decide_true by lia.
  apply lookup_lt_is_Some_2. lia.
Qed.

Lemma shape_set_cell σ b i x : shape (set_cell σ b i x) = shape σ.
Proof.
  unfold set_cell, block_cells, shape.
  destruct (heap σ !! b) as [[cells|]|] eqn:Hb; simpl; try done.
  f_equal. rewrite list_fmap_insert. simpl. rewrite length_insert.
  apply list_insert_id. by rewrite list_lookup_fmap, Hb.
Qed.

Lemma returns_load p σ (Q : T → state T → Prop) :
  in_bounds σ p → (∀ x, Q x σ) → returns (load p) σ Q.
Proof.
  intros Hp HQ. destruct (in_bounds_cell _ _ Hp) as [x Hx].
  exists x, σ. unfold load. rewrite Hx. auto.
Qed.

Lemma returns_store p x σ (Q : unit → state T → Prop) :
  in_bounds σ p → (∀ σ', shape σ' = shape σ → Q () σ') → returns (store p x) σ Q.
Proof.
  intros Hp HQ. destruct (in_bounds_cell _ _ Hp) as [y Hy].
  destruct Hp as (b & n & Hb & _).
  eexists _, _. unfold store. rewrite Hy, Hb. split; [reflexivity |].
  apply HQ, shape_set_cell.
Qed.

End StoreFacts.

(** ** The loops stay in bounds and keep the shape of the store *)

Section LoopFacts.
Context {T : Type} `{Element T}.
Implicit Types (σ : state T) (p : ptr) (v : SimpleVector).

Lemma range_ok_head σ p n : range_ok σ p (S n) → in_bounds σ p.
Proof.
  intros [? | (b & len & Hb & He & Ho & Hn)]; [done |].
  exists b, len. repeat split; auto; lia.
Qed.

Lemma range_ok_tail σ p n : range_ok σ p (S n) → range_ok σ (p +ₚ 1) n.
Proof.
  intros [? | (b & len & Hb & He & Ho & Hn)]; [done |].
  right. exists b, len. simpl. repeat split; auto; lia.
Qed.

Lemma returns_fill_loop n p x σ (Q : unit → state T → Prop) :
  range_ok σ p n →
  (∀ σ', shape σ' = shape σ → Q () σ') →
  returns (fill_loop n p x) σ Q.
Proof.
  revert p σ Q. induction n as [| n IH]; intros p σ Q Hr HQ; simpl.
  - apply returns_ret. by apply HQ.
  - apply returns_bind, returns_store; [by eapply range_ok_head |].
    intros σ1 H1. apply IH.
    + eapply range_ok_shape; [exact H1 | by apply range_ok_tail].
    + intros σ2 H2. apply HQ. congruence.
Qed.

Lemma returns_copy_loop n first result σ (Q : ptr → state T → Prop) :
  range_ok σ first n → range_ok σ result n →
  (∀ r σ', shape σ' = shape σ → Q r σ') →
  returns (copy_loop n first result) σ Q.
Proof.
  revert first result σ Q.
  induction n as [| n IH]; intros first result σ Q Hf Hr HQ; simpl.
  - apply returns_ret. by apply HQ.
  - apply returns_bind, returns_load; [by eapply range_ok_head |]. intros x.
    apply returns_bind, returns_store; [by eapply range_ok_head |].
    intros σ1 H1. apply IH.
    + eapply range_ok_shape; [exact H1 | by apply range_ok_tail].
    + eapply range_ok_shape; [exact H1 | by apply range_ok_tail].
    + intros r σ2 H2. apply HQ. congruence.
Qed.

Lemma returns_move_assign target source σ (Q : unit → state T → Prop) :
  in_bounds σ target → in_bounds σ source →
  (∀ σ', shape σ' = shape σ → Q () σ') →
  returns (move_assign target source) σ Q.
Proof.
  intros Ht Hs HQ. unfold move_assign.
  apply returns_bind, returns_load; [done |]. intros x.
  apply returns_bind, returns_store; [done |]. intros σ1 H1.
  apply returns_store; [by eapply in_bounds_shape |].
  intros σ2 H2. apply HQ. congruence.
Qed.

Lemma returns_move_loop n first result σ (Q : ptr → state T → Prop) :
  range_ok σ first n → range_ok σ result n →
  (∀ r σ', shape σ' = shape σ → Q r σ') →
  returns (move_loop n first result) σ Q.
Proof.
  revert first result σ Q.
  induction n as [| n IH]; intros first result σ Q Hf Hr HQ; simpl.
  - apply returns_ret. by apply HQ.
  - apply returns_bind, returns_move_assign; [by eapply range_ok_head .. |].
    intros σ1 H1. apply IH.
    + eapply range_ok_shape; [exact H1 | by apply range_ok_tail].
    + eapply range_ok_shape; [exact H1 | by apply range_ok_tail].
    + intros r σ2 H2. apply HQ. congruence.
Qed.

End LoopFacts.

(** ** PushBack: reallocation and placement *)

Section PushBackFacts.
Context {T : Type} `{Element T}.
Implicit Types (σ : state T) (p : ptr) (v : SimpleVector).

Lemma extent_new_block σ n :
  extent (State (heap σ ++ [Some (replicate n elem_new)]) (objs σ))
         (length (heap σ)) = Some n.
Proof.
  unfold extent, block_cells. simpl.
  rewrite lookup_app_r, Nat.sub_diag by lia. simpl.
  by rewrite length_replicate.
Qed.

Lemma extent_old_block σ cells b n :
  extent σ b = Some n → extent (State (heap σ ++ cells) (objs σ)) b = Some n.
Proof.
  unfold extent, block_cells. simpl. intros Hb.
  destruct (heap σ !! b) as [c|] eqn:Hc; [| done].
  by rewrite (lookup_app_l_Some _ _ _ _ Hc).
Qed.

Lemma extent_live_lt σ b n : extent σ b = Some n → (b < length (heap σ))%nat.
Proof.
  unfold extent, block_cells. intros Hb.
  destruct (heap σ !! b) as [c|] eqn:Hc; [| done].
  by eapply lookup_lt_Some.
Qed.

Lemma returns_delete_array p σ (Q : unit → state T → Prop) :
  off p = 0 →
  match base p with
  | Some b => is_Some (extent σ b) ∧
              Q () (State (<[b := None]> (heap σ)) (objs σ))
  | None => Q () σ
  end →
  returns (delete_array p) σ Q.
Proof.
  intros Ho Hp. unfold returns, delete_array. destruct (base p) as [b|].
  - destruct Hp as [[n Hn] HQ]. unfold extent in Hn.
    destruct (block_cells σ b); [| done].
    rewrite Ho. simpl. by eexists _, _.
  - by eexists _, _.
Qed.

Lemma extent_heap σ σ' b : heap σ' = heap σ → extent σ' b = extent σ b.
Proof. unfold extent, block_cells. by intros ->. Qed.

Lemma extent_after_delete (h : list (option (list T))) o b b' :
  b ≠ b' → extent (State (<[b := None]> h) o) b' = extent (State h o) b'.
Proof.
  intros Hne. unfold extent, block_cells. simpl.
  by rewrite list_lookup_insert_ne.
Qed.

(** The end of every reallocation: [items_.swap(temp)], the new
    [capacity_], and the destructor of [temp], which now holds the old
    buffer. *)
Lemma returns_install this v b' nc σ (Q : unit → state T → Prop) :
  objs σ !! this = Some v → valid σ v →
  extent σ b' = Some (Z.to_nat nc) → base (raw_ptr_ (items_ v)) ≠ Some b' →
  0 ≤ size_ v ≤ nc → nc < SIZE_MOD →
  (∀ σ' v', objs σ' !! this = Some v' → valid σ' v' →
            size_ v' = size_ v → capacity_ v' = nc →
            length (objs σ') = length (objs σ) → Q () σ') →
  returns (temp ← SV.swap_items this (mkArrayPtr (Ptr (Some b') 0));
           upd_obj this (set_capacity nc);;
           AP.destroy temp) σ Q.
Proof.
  intros Hv (Hsz & Hcap & Hoff & Hblk) Hb' Hne Hnc Hmod HQ.
  assert (Hlt : (this < length (objs σ))%nat) by by eapply lookup_lt_Some.
  apply returns_bind. unfold SV.swap_items.
  apply returns_bind, (returns_get_obj this v); [done |]. simpl.
  apply returns_bind, (returns_upd_obj this _ v); [done |].
  apply returns_ret.
  eapply returns_bind, returns_upd_obj; simpl.
  { by apply list_lookup_insert_eq. }
  rewrite list_insert_insert_eq. unfold AP.destroy. simpl.
  set (v' := set_capacity nc (set_items (mkArrayPtr (Ptr (Some b') 0)) v)).
  apply returns_delete_array; [done |].
  destruct (base (raw_ptr_ (items_ v))) as [b|] eqn:Hbase.
  - split; [by rewrite (extent_heap σ), Hblk |]. simpl.
    apply (HQ _ v'); simpl; try done;
      first [ by apply list_lookup_insert_eq | by rewrite length_insert | idtac ].
    repeat split; simpl; try lia.
    rewrite extent_after_delete by congruence.
    by rewrite (extent_heap σ).
  - apply (HQ _ v'); simpl; try done;
      first [ by apply list_lookup_insert_eq | by rewrite length_insert | idtac ].
Qed.

(** Where a valid vector keeps its elements there is room for [size_]
    reads. *)
Lemma valid_range_ok σ v n :
  valid σ v → (Z.of_nat n ≤ capacity_ v) →
  range_ok σ (AP.Get (items_ v)) n.
Proof.
  intros (Hsz & Hcap & Hoff & Hblk) Hn. unfold AP.Get.
  destruct (base (raw_ptr_ (items_ v))) as [b|] eqn:Hb.
  - right. exists b, (Z.to_nat (capacity_ v)). simpl. rewrite Hoff.
    repeat split; auto; lia.
  - left. lia.
Qed.

Lemma wrap_small z : 0 ≤ z < SIZE_MOD → wrap z = z.
Proof. intros Hz. unfold wrap. by apply Z.mod_small. Qed.

Lemma SIZE_MOD_value : SIZE_MOD = 18446744073709551616.
Proof. reflexivity. Qed.

(** The last two statements of [PushBack]: [items_[size_] = item] and
    [++size_]. *)
Lemma returns_place this item v σ (Q : unit → state T → Prop) :
  objs σ !! this = Some v → valid σ v → size_ v < capacity_ v →
  (∀ σ' v', objs σ' !! this = Some v' → valid σ' v' →
            size_ v' = size_ v + 1 → capacity_ v' = capacity_ v →
            length (objs σ') = length (objs σ) → Q () σ') →
  returns (v ← get_obj this;
           store (AP.subscript (items_ v) (size_ v)) item;;
           upd_obj this (set_size (wrap (size_ v + 1)))) σ Q.
Proof.
  intros Hv Hval Hlt HQ. pose proof SIZE_MOD_value as Hmod.
  pose proof Hval as (Hsz & Hcap & Hoff & Hblk).
  apply returns_bind, (returns_get_obj this v); [done |].
  apply returns_bind, returns_store.
  { unfold AP.subscript.
    destruct (base (raw_ptr_ (items_ v))) as [b|] eqn:Hb; [| lia].
    exists b, (Z.to_nat (capacity_ v)). simpl. rewrite Hoff.
    repeat split; auto; lia. }
  intros σ1 H1.
  apply (returns_upd_obj this _ v); [by rewrite (objs_shape _ _ H1) |].
  rewrite wrap_small by lia.
  apply (HQ _ (set_size (size_ v + 1) v)); simpl; try done.
  - rewrite (objs_shape _ _ H1). apply list_lookup_insert_eq.
    by eapply lookup_lt_Some.
  - repeat split; simpl; try lia.
    destruct (base (raw_ptr_ (items_ v))) as [b|]; [| done].
    by rewrite (extent_heap σ1), (extent_shape _ _ _ H1).
  - by rewrite length_insert, (objs_shape _ _ H1).
Qed.

(** A fresh array of the grown capacity. *)
Lemma returns_create nc σ (Q : ArrayPtr → state T → Prop) :
  0 < nc →
  Q (mkArrayPtr (Ptr (Some (length (heap σ))) 0))
    (State (heap σ ++ [Some (replicate (Z.to_nat nc) elem_new)]) (objs σ)) →
  returns (AP.create nc) σ Q.
Proof.
  intros Hnc HQ. unfold AP.create.
  destruct (Z.eqb_spec nc 0) as [-> | _]; [lia |].
  apply returns_bind, returns_new_array. by apply returns_ret.
Qed.

Lemma PushBack_copy_pushed this item v σ :
  objs σ !! this = Some v → valid σ v → capacity_ v * 2 < SIZE_MOD →
  returns (SV.PushBack_copy this item) σ (pushed σ this v).
Proof.
  intros Hv Hval Hdbl. pose proof SIZE_MOD_value as Hmod.
  pose proof Hval as (Hsz & Hcap & Hoff & Hblk).
  unfold SV.PushBack_copy.
  apply returns_bind, (returns_get_obj this v); [done |].
  rewrite (wrap_small (size_ v + 1)), (wrap_small (capacity_ v * 2)) by lia.
  fold (grown_capacity (size_ v) (capacity_ v)).
  destruct (Z.gtb_spec (size_ v + 1) (capacity_ v)) as [Hfull | Hroom].
  - (* no room: reallocate, then place *)
    set (nc := grown_capacity (size_ v) (capacity_ v)).
    assert (Hnc : size_ v + 1 ≤ nc ∧ nc < SIZE_MOD)
      by (unfold nc, grown_capacity; lia).
    apply returns_bind. simpl.
    apply returns_bind, returns_create; [lia |].
    set (σ1 := State _ _). set (b' := length (heap σ)).
    assert (Hb1 : extent σ1 b' = Some (Z.to_nat nc)) by apply extent_new_block.
    assert (Hval1 : valid σ1 v).
    { repeat split; try done; try lia.
      destruct (base (raw_ptr_ (items_ v))) as [b|]; [| done].
      by apply extent_old_block. }
    apply returns_bind, returns_fill_loop.
    { right. exists b', (Z.to_nat nc). unfold range_len, ptr_diff. simpl.
      repeat split; auto; lia. }
    intros σ2 H2.
    apply returns_bind, (returns_member this _ v);
      [by rewrite (objs_shape _ _ H2) |].
    apply returns_bind. unfold std_copy.
    rewrite over_range_forward by (unfold ptr_diff; simpl; lia). cbv beta.
    apply returns_copy_loop.
    { unfold range_len, ptr_diff. simpl.
      eapply range_ok_shape; [exact H2 |].
      apply (valid_range_ok σ1 v); [done | lia]. }
    { right. exists b', (Z.to_nat nc). unfold range_len, ptr_diff. simpl.
      rewrite (extent_shape _ _ _ H2). repeat split; auto; lia. }
    intros r σ3 H3.
    assert (H31 : shape σ3 = shape σ1) by congruence.
    apply (returns_install this v b' nc).
    + by rewrite (objs_shape _ _ H31).
    + by apply (valid_shape σ1).
    + by rewrite (extent_shape _ _ _ H31).
    + destruct (base (raw_ptr_ (items_ v))) as [b|] eqn:Hb; [| done].
      apply extent_live_lt in Hblk. intros [= ->]. unfold b' in *. lia.
    + lia.
    + lia.
    + intros σ4 v4 Hv4 Hval4 Hs4 Hc4 Hl4.
      apply (returns_place this item v4); try done; [lia |].
      intros σ5 v5 Hv5 Hval5 Hs5 Hc5 Hl5.
      exists v5. repeat split; try apply Hval5; try done; try lia.
      * rewrite Hc5, Hc4. by destruct (Z.gtb_spec (size_ v + 1) (capacity_ v)); [| lia].
      * rewrite Hl5, Hl4, (objs_shape _ _ H31). done.
  - (* room left: place *)
    apply returns_bind. simpl. apply returns_ret.
    apply (returns_place this item v); try done; [lia |].
    intros σ5 v5 Hv5 Hval5 Hs5 Hc5 Hl5.
    exists v5. repeat split; try apply Hval5; try done.
    rewrite Hc5. by destruct (Z.gtb_spec (size_ v + 1) (capacity_ v)); [lia |].
Qed.

Lemma PushBack_move_pushed this item v σ :
  objs σ !! this = Some v → valid σ v → capacity_ v * 2 < SIZE_MOD →
  returns (SV.PushBack_move this item) σ (pushed σ this v).
Proof.
  intros Hv Hval Hdbl. pose proof SIZE_MOD_value as Hmod.
  pose proof Hval as (Hsz & Hcap & Hoff & Hblk).
  unfold SV.PushBack_move.
  apply returns_bind, (returns_get_obj this v); [done |].
  rewrite (wrap_small (size_ v + 1)), (wrap_small (capacity_ v * 2)) by lia.
  fold (grown_capacity (size_ v) (capacity_ v)).
  destruct (Z.gtb_spec (size_ v + 1) (capacity_ v)) as [Hfull | Hroom].
  - set (nc := grown_capacity (size_ v) (capacity_ v)).
    assert (Hnc : size_ v + 1 ≤ nc ∧ nc < SIZE_MOD)
      by (unfold nc, grown_capacity; lia).
    apply returns_bind. simpl.
    apply returns_bind, returns_create; [lia |].
    set (σ1 := State _ _). set (b' := length (heap σ)).
    assert (Hb1 : extent σ1 b' = Some (Z.to_nat nc)) by apply extent_new_block.
    assert (Hval1 : valid σ1 v).
    { repeat split; try done; try lia.
      destruct (base (raw_ptr_ (items_ v))) as [b|]; [| done].
      by apply extent_old_block. }
    apply returns_bind, (returns_member this _ v); [done |].
    apply returns_bind. unfold std_move.
    rewrite over_range_forward by (unfold ptr_diff; simpl; lia). cbv beta.
    apply returns_move_loop.
    { unfold range_len, ptr_diff. simpl.
      apply (valid_range_ok σ1 v); [done | lia]. }
    { right. exists b', (Z.to_nat nc). unfold range_len, ptr_diff. simpl.
      repeat split; auto; lia. }
    intros r σ3 H31.
    apply (returns_install this v b' nc).
    + by rewrite (objs_shape _ _ H31).
    + by apply (valid_shape σ1).
    + by rewrite (extent_shape _ _ _ H31).
    + destruct (base (raw_ptr_ (items_ v))) as [b|] eqn:Hb; [| done].
      apply extent_live_lt in Hblk. intros [= ->]. unfold b' in *. lia.
    + lia.
    + lia.
    + intros σ4 v4 Hv4 Hval4 Hs4 Hc4 Hl4.
      apply (returns_place this item v4); try done; [lia |].
      intros σ5 v5 Hv5 Hval5 Hs5 Hc5 Hl5.
      exists v5. repeat split; try apply Hval5; try done; try lia.
      * rewrite Hc5, Hc4. by destruct (Z.gtb_spec (size_ v + 1) (capacity_ v)); [| lia].
      * rewrite Hl5, Hl4, (objs_shape _ _ H31). done.
  - apply returns_bind. simpl. apply returns_ret.
    apply (returns_place this item v); try done; [lia |].
    intros σ5 v5 Hv5 Hval5 Hs5 Hc5 Hl5.
    exists v5. repeat split; try apply Hval5; try done.
    rewrite Hc5. by destruct (Z.gtb_spec (size_ v + 1) (capacity_ v)); [lia |].
Qed.

Lemma PushBack_pushed o this item v σ :
  objs σ !! this = Some v → valid σ v → capacity_ v * 2 < SIZE_MOD →
  returns (PushBack o this item) σ (pushed σ this v).
Proof.
  destruct o; [apply PushBack_copy_pushed | apply PushBack_move_pushed].
Qed.

(** A run of appends: the observed sizes count up from [size_ v] and never
    exceed the observed capacities.  [B] bounds the capacities met on the
    way, which keeps [capacity_ * 2] from wrapping. *)
Lemma push_all_trace l : ∀ this v σ B,
  objs σ !! this = Some v → valid σ v →
  capacity_ v ≤ B → 2 * (size_ v + Z.of_nat (length l)) ≤ B →
  B * 2 < SIZE_MOD →
  returns (push_all this l) σ (λ t _,
    length t = length l ∧
    ∀ k n c, t !! k = Some (n, c) → n = size_ v + Z.of_nat k + 1 ∧ n ≤ c).
Proof.
  induction l as [| [o x] l IH]; intros this v σ B Hv Hval HcB HlB HB.
  - apply returns_ret. split; [done |]. intros k n c Hk. by destruct k.
  - simpl push_all.
    apply returns_bind.
    eapply returns_mono; [apply (PushBack_pushed o this x v); [done .. | lia] |].
    intros [] σ1 (v1 & Hv1 & Hval1 & Hs1 & Hc1 & Hl1).
    apply returns_bind, (returns_member this _ v1); [done |].
    apply returns_bind, (returns_member this _ v1); [done |].
    apply returns_bind.
    assert (Hc1B : capacity_ v1 ≤ B).
    { rewrite Hc1. destruct Hval as (Hsz & _).
      destruct (Z.gtb_spec (size_ v + 1) (capacity_ v));
        unfold grown_capacity; simpl length in HlB; lia. }
    eapply returns_mono;
      [apply (IH this v1 σ1 B); try done; simpl length in HlB; lia |].
    intros t σ2 [Hlen Ht]. apply returns_ret. split; [simpl; lia |].
    intros [| k] n c Hk; simpl in Hk.
    + injection Hk as <- <-. destruct Hval1 as (? & _). lia.
    + apply Ht in Hk. lia.
Qed.

End PushBackFacts.

(** ** The checked accessor and the growth policy *)

Section Accessors.
Context {T : Type} `{Element T}.
Implicit Types (σ : state T) (v : SimpleVector).

(** C8. For every vector and every index [i], [At(i)] throws
    [std::out_of_range] exactly when [i >= size_], whatever the capacity;
    the store at the throw is the store of the call, so size, capacity and
    elements are unchanged; below [size_] it returns the reference to
    slot [i]. *)
Theorem At_throws_iff_beyond_size (this : obj) (i : Z) v σ :
  objs σ !! this = Some v →
  ((∃ σ', SV.At this i σ = OutOfRange σ') ↔ size_ v ≤ i) ∧
  (∀ σ', SV.At this i σ = OutOfRange σ' → σ' = σ) ∧
  (i < size_ v → SV.At this i σ = Ok (AP.subscript (items_ v) i) σ).
Proof.
  intros Hv.
  assert (Hrun : SV.At this i σ =
                 if i >=? size_ v then OutOfRange σ
                 else Ok (AP.subscript (items_ v) i) σ).
  { unfold SV.At, mbind, M_bind, bind, get_obj. rewrite Hv.
    by destruct (i >=? size_ v). }
  rewrite Hrun. destruct (Z.geb_spec i (size_ v)) as [Hge | Hlt].
  - split; [| split].
    + split; [lia | eauto].
    + by intros σ' [= ->].
    + lia.
  - split; [| split].
    + split; [by intros [σ' ?] | lia].
    + by intros σ' ?.
    + done.
Qed.

End Accessors.

(** ** What the copy constructor, [PopBack] and [operator!=] do in general *)

Section Supporting.
Context {T : Type} `{Element T}.
Implicit Types (σ : state T) (v : SimpleVector).

Lemma returns_new_obj v σ (Q : obj → state T → Prop) :
  Q (length (objs σ)) (State (heap σ) (objs σ ++ [v])) →
  returns (new_obj v) σ Q.
Proof. intros HQ. by eexists _, _. Qed.

(** Copy-construction from any valid vector returns a new object with the
    source's size, a buffer of its own with as many slots as the source's
    capacity, and [capacity_] 0; the source object is as before. *)
Lemma ctor_copy_fields other o σ :
  objs σ !! other = Some o → valid σ o →
  returns (SV.ctor_copy other) σ (λ this σ',
    ∃ v', objs σ' !! this = Some v' ∧ this ≠ other ∧
          objs σ' !! other = Some o ∧
          size_ v' = size_ o ∧ capacity_ v' = 0 ∧
          allocated σ' v' = Some (Z.to_nat (capacity_ o)) ∧
          (0 < capacity_ o →
           base (raw_ptr_ (items_ v')) ≠ base (raw_ptr_ (items_ o)))).
Proof.
  intros Ho Hval. pose proof Hval as (Hsz & Hcap & Hoff & Hblk).
  assert (Hlt : (other < length (objs σ))%nat) by by eapply lookup_lt_Some.
  unfold SV.ctor_copy.
  apply returns_bind, (returns_get_obj other o); [done |].
  apply returns_bind. unfold AP.create.
  destruct (Z.eqb_spec (capacity_ o) 0) as [Hzero | Hpos].
  - (* nothing to allocate, and nothing to copy *)
    apply returns_ret.
    apply returns_bind, returns_new_obj.
    set (v' := mkSimpleVector (mkArrayPtr nullptr) (size_ o) 0).
    set (σ1 := State _ _).
    assert (Ho1 : objs σ1 !! other = Some o) by by apply lookup_app_l_Some.
    assert (Hv1 : objs σ1 !! length (objs σ) = Some v').
    { simpl. by rewrite lookup_app_r, Nat.sub_diag by lia. }
    apply returns_bind, (returns_member other _ o); [done |].
    apply returns_bind, (returns_member other _ o); [done |].
    apply returns_bind, (returns_member _ _ v'); [done |].
    apply returns_bind. unfold std_copy.
    rewrite over_range_forward by (unfold ptr_diff; simpl; lia). cbv beta.
    apply returns_copy_loop.
    { left. unfold range_len, ptr_diff. simpl. lia. }
    { left. unfold range_len, ptr_diff. simpl. lia. }
    intros r σ2 H2. apply returns_ret. exists v'.
    rewrite (objs_shape _ _ H2). repeat split; try done; try lia.
    simpl. by rewrite Hzero.
  - apply returns_bind, returns_new_array. apply returns_ret.
    apply returns_bind, returns_new_obj. simpl.
    set (b' := length (heap σ)).
    set (v' := mkSimpleVector (mkArrayPtr (Ptr (Some b') 0)) (size_ o) 0).
    set (σ1 := State (heap σ ++ _) (objs σ ++ _)).
    assert (Ho1 : objs σ1 !! other = Some o) by by apply lookup_app_l_Some.
    assert (Hv1 : objs σ1 !! length (objs σ) = Some v').
    { simpl. by rewrite lookup_app_r, Nat.sub_diag by lia. }
    assert (Hb1 : extent σ1 b' = Some (Z.to_nat (capacity_ o))).
    { unfold σ1. erewrite extent_heap; [apply (extent_new_block σ) | done]. }
    assert (Hval1 : valid σ1 o).
    { repeat split; try done; try lia.
      destruct (base (raw_ptr_ (items_ o))) as [b|]; [| done].
      unfold σ1. erewrite extent_heap; [by apply (extent_old_block σ) | done]. }
    apply returns_bind, (returns_member other _ o); [done |].
    apply returns_bind, (returns_member other _ o); [done |].
    apply returns_bind, (returns_member _ _ v'); [done |].
    apply returns_bind. unfold std_copy.
    rewrite over_range_forward by (unfold ptr_diff; simpl; lia). cbv beta.
    apply returns_copy_loop.
    { unfold range_len, ptr_diff. simpl.
      rewrite Z.add_simpl_l. apply (valid_range_ok σ1 o); [done | lia]. }
    { right. exists b', (Z.to_nat (capacity_ o)).
      unfold range_len, ptr_diff. simpl. repeat split; auto; lia. }
    intros r σ2 H2. apply returns_ret. exists v'.
    rewrite (objs_shape _ _ H2). repeat split; try done; try lia.
    + unfold allocated. simpl. by rewrite (extent_shape _ _ _ H2).
    + intros _. simpl.
      destruct (base (raw_ptr_ (items_ o))) as [b|]; [| done].
      apply extent_live_lt in Hblk. intros [= Heq]. unfold b' in Heq. lia.
Qed.

(** [PopBack] fails its assertion exactly on a null buffer; with a buffer
    it goes on to [Erase(end())], whatever the size. *)
Lemma PopBack_assert this v σ :
  objs σ !! this = Some v →
  SV.PopBack this σ =
    match base (raw_ptr_ (items_ v)) with
    | None => AssertFailed
    | Some _ => (e ← SV.end_ this; SV.Erase this e;; mret ()) σ
    end.
Proof.
  intros Hv. unfold SV.PopBack, AP.to_bool.
  unfold mbind at 1, M_bind at 1, bind at 1, get_obj at 1. rewrite Hv.
  by destruct (base (raw_ptr_ (items_ v))).
Qed.

(** [operator!=] returns the negation of what [operator==] returns. *)
Lemma ne_op_negates `{EqElement T} lhs rhs σ :
  SV.ne_op lhs rhs σ = (r ← SV.eq_op lhs rhs; mret (negb r)) σ.
Proof.
  unfold SV.ne_op, SV.eq_op, mbind, M_bind, bind.
  destruct (SV.begin lhs σ) as [first1 σ1| | |]; try done.
  destruct (SV.end_ lhs σ1) as [last1 σ2| | |]; try done.
  by destruct (SV.begin rhs σ2) as [first2 σ3| | |].
Qed.

End Supporting.

(** An instance of the theorem above on a concrete store. *)

Lemma At_throws_iff_beyond_size_witness :
  objs Programs.store_2_of_4 !! 0%nat
    = Some (vec 0 2 4) ∧
  SV.At (T:=Z) 0%nat 3 Programs.store_2_of_4 = OutOfRange Programs.store_2_of_4 ∧
  SV.At (T:=Z) 0%nat 1 Programs.store_2_of_4
    = Ok (Ptr (Some 0%nat) 1) Programs.store_2_of_4.
Proof.
  assert (Hv : objs Programs.store_2_of_4 !! 0%nat
               = Some (vec 0 2 4))
    by reflexivity.
  split; [exact Hv |].
  destruct (At_throws_iff_beyond_size (T:=Z) 0%nat 3 _ Programs.store_2_of_4 Hv)
    as ([_ Hthrow] & Hsame & _).
  destruct (At_throws_iff_beyond_size (T:=Z) 0%nat 1 _ Programs.store_2_of_4 Hv)
    as (_ & _ & Hget).
  split.
  - destruct Hthrow as [σ' Hσ']; [simpl; lia |].
    rewrite Hσ'. f_equal. by apply Hsame.
  - apply Hget. simpl. lia.
Defined.

(** ** Where the code departs from the specification

    Each theorem runs a client program from the empty store and records
    the outcome. *)

Section Departures.
Local Existing Instance int_elem.
Local Existing Instance int_EqElement.
Local Existing Instance X_Element.

(** C1. Copy-constructing from the vector [{1, 2, 3}], of size and capacity
    3, yields a vector of size 3 with the elements 1, 2, 3 in a buffer of
    its own with 3 slots, but with capacity 0: the constructor initialises
    [items_] and [size_] only, and [capacity_] keeps its default 0. *)
Theorem copy_constructor_leaves_capacity_zero :
  Programs.copy_construct_observed empty_store =
    Ok (3, 3, 3, 0)
       (State [Some [1; 2; 3]; Some [1; 2; 3]] [vec 0 3 3; vec 1 3 0]).
Proof. vm_compute. reflexivity. Qed.

(** C2. Two vectors built by public operations alone break
    [size <= capacity]: the copy of the [int] vector [{1, 2, 3}] has size
    3, capacity 0 and 3 allocated slots; and after [PopBack] on a vector
    of [X] that only reserved 4 slots the size is [2^64 - 1] with
    capacity 4. *)
Theorem size_exceeds_capacity_after_copy_and_after_pop :
  (∃ σ src dst v,
     Programs.copy_construct empty_store = Ok (src, dst) σ ∧
     objs σ !! dst = Some v ∧
     size_ v = 3 ∧ capacity_ v = 0 ∧ allocated σ v = Some 3%nat ∧
     ¬ valid σ v) ∧
  (∃ σ this v,
     Programs.pop_reserved empty_store = Ok this σ ∧
     objs σ !! this = Some v ∧
     size_ v = SIZE_MOD - 1 ∧ capacity_ v = 4 ∧ allocated σ v = Some 4%nat ∧
     ¬ valid σ v).
Proof.
  split.
  - eexists _, _, _, _. split; [vm_compute; reflexivity |].
    split; [reflexivity |]. repeat split.
    intros ([_ Hle] & _). simpl in Hle. lia.
  - eexists _, _, _. split; [vm_compute; reflexivity |].
    split; [reflexivity |]. repeat split.
    intros ([_ Hle] & _). simpl in Hle. lia.
Qed.

(** C3. With [a = {1, 2}] and [b = {1, 2, 3}], [a == b] is true and
    [a != b] is false although the sizes are 2 and 3: only the first
    [a.size()] elements of [b] are compared.  The other way round, [b == a]
    reads slot 2 of [a]'s two-slot buffer. *)
Theorem equality_holds_for_strict_prefix :
  Programs.compare_prefix empty_store =
    Ok (true, false, 2, 3)
       (State [Some [1; 2]; Some [1; 2; 3]] [vec 0 2 2; vec 1 3 3]) ∧
  Programs.compare_longer_first empty_store =
    Undefined (BadLoad (Ptr (Some 0%nat) 2)).
Proof. split; vm_compute; reflexivity. Qed.

(** C4. Move-assigning a source holding [X(0), X(1), X(2)] gives the
    destination these three elements and size 3, but leaves the source at
    size 3 and capacity 4, its elements moved from; the move constructor on
    the same source leaves it at size 0 and capacity 0. *)
Theorem move_assignment_keeps_source_size :
  Programs.move_assign_X empty_store =
    Ok (0%nat, 1%nat)
       (State [None; None;
               Some [mkX 0; mkX 0; mkX 0; mkX 5];
               Some [mkX 0; mkX 1; mkX 2; mkX 5]]
              [vec 2 3 4; vec 3 3 4]) ∧
  Programs.move_construct_X empty_store =
    Ok (0%nat, 1%nat)
       (State [None; None;
               Some [mkX 0; mkX 1; mkX 2; mkX 5];
               Some [mkX 5; mkX 5; mkX 5; mkX 5]]
              [vec 3 0 0; vec 2 3 4]).
Proof. split; vm_compute; reflexivity. Qed.

(** C5. On [{1, 2, 3, 4}] (size and capacity 4), [Resize(2)] sets the size
    to 2 and also overwrites slots 2 and 3 with the default value, and
    [Resize(4)] goes on to write slot 4 of the four-slot buffer.  On a
    vector of size 2 and capacity 4, [Resize(3)] fills from slot 2 up to
    slot 4, past the allocation, instead of slot 2 alone. *)
Theorem resize_fills_size_plus_new_size :
  Programs.resize_four 2 empty_store =
    Ok 0%nat (State [Some [1; 2; 0; 0]] [vec 0 2 4]) ∧
  Programs.resize_four 4 empty_store =
    Undefined (BadStore (Ptr (Some 0%nat) 4)) ∧
  Programs.resize_within_capacity empty_store =
    Undefined (BadStore (Ptr (Some 0%nat) 4)).
Proof. repeat split; vm_compute; reflexivity. Qed.

(** C6. Inserting 9 at [begin() + 1] into the full vector [{1, 2, 3}]
    reallocates: the elements become 1, 9, 2, 3 in a new block and the size
    4.  The copying overload returns [pos] itself, which points into the
    deleted old block, so that reading through it is undefined; the moving
    overload returns [begin() + 1] of the new block. *)
Theorem insert_by_copy_returns_stale_iterator :
  Programs.insert_full ByCopy empty_store =
    Ok (0%nat, Ptr (Some 0%nat) 1, Ptr (Some 1%nat) 0)
       (State [None; Some [1; 9; 2; 3; -1; -1]] [vec 1 4 6]) ∧
  Programs.insert_full_deref ByCopy empty_store =
    Undefined (BadLoad (Ptr (Some 0%nat) 1)) ∧
  Programs.insert_full ByMove empty_store =
    Ok (0%nat, Ptr (Some 1%nat) 1, Ptr (Some 1%nat) 0)
       (State [None; Some [1; 9; 2; 3; -1; -1]] [vec 1 4 6]).
Proof. repeat split; vm_compute; reflexivity. Qed.

(** C9. [PopBack] on an empty vector of [X] fails its assertion only when
    the buffer is null.  On an empty vector that reserved 4 slots, and on
    one that was filled and cleared, [assert(items_)] passes and the call
    returns with the size wrapped to [2^64 - 1]. *)
Theorem PopBack_on_empty_passes_assert :
  Programs.pop_reserved empty_store =
    Ok 0%nat
       (State [None; Some [mkX 5; mkX 5; mkX 5; mkX 5]]
              [vec 1 (SIZE_MOD - 1) 4]) ∧
  Programs.pop_cleared empty_store =
    Ok 0%nat
       (State [None; None; None; Some [mkX 5; mkX 5; mkX 5; mkX 5]]
              [vec 3 (SIZE_MOD - 1) 4]) ∧
  Programs.pop_default empty_store = AssertFailed.
Proof. repeat split; vm_compute; reflexivity. Qed.

(** C10. In [TestNoncopiableResize] of main.cpp the vector has size 10 and
    a buffer of 32 slots when [Resize(32)] is called; the call fills from
    slot 10 on and writes slot 32, one past the last slot of the buffer. *)
Theorem resize_writes_past_allocation :
  (∃ σ v,
     Programs.resize_test_prefix empty_store = Ok 0%nat σ ∧
     objs σ !! 0%nat = Some v ∧ v = vec 5 10 32 ∧
     allocated σ v = Some 32%nat) ∧
  Programs.resize_test empty_store =
    Undefined (BadStore (Ptr (Some 5%nat) 32)).
Proof.
  split; [| vm_compute; reflexivity].
  eexists _, _. split; [vm_compute; reflexivity |].
  repeat split.
Qed.

End Departures.

(** ** Exact runs: what the primitives and the loops leave in the store *)

Section Runs.
Context {T : Type} `{Element T}.
Implicit Types (h : list (option (list T))) (o : list SimpleVector).
Implicit Types (cells src dst : list T) (v : SimpleVector).

Lemma returns_of_run {A} (m : M T A) σ a σ' (Q : A → state T → Prop) :
  m σ = Ok a σ' → Q a σ' → returns m σ Q.
Proof. intros Hm HQ. by exists a, σ'. Qed.

Lemma bind_run {A B} (m : M T A) (k : A → M T B) σ a σ' :
  m σ = Ok a σ' → (m ≫= k) σ = k a σ'.
Proof. intros Hm. unfold mbind, M_bind, bind. by rewrite Hm. Qed.

Lemma load_run h o b cells i x z :
  h !! b = Some (Some cells) → cells !! i = Some x → z = Z.of_nat i →
  load (Ptr (Some b) z) (State h o) = Ok x (State h o).
Proof.
  intros Hb Hx ->. unfold load, cell_at, block_cells. simpl. rewrite Hb. simpl.
  rewrite bool_decide_true by lia. by rewrite Nat2Z.id, Hx.
Qed.

Lemma store_run h o b cells i x z :
  h !! b = Some (Some cells) → (i < length cells)%nat → z = Z.of_nat i →
  store (Ptr (Some b) z) x (State h o)
  = Ok () (State (<[b := Some (<[i := x]> cells)]> h) o).
Proof.
  intros Hb Hi ->. unfold store, cell_at, set_cell, block_cells. simpl.
  rewrite Hb. simpl. rewrite bool_decide_true by lia. rewrite Nat2Z.id.
  destruct (lookup_lt_is_Some_2 cells i Hi) as [y ->]. done.
Qed.

Lemma heap_insert_same h b cells : h !! b = Some (Some cells) → <[b := Some cells]> h = h.
Proof. apply list_insert_id. Qed.

Lemma heap_lookup_insert h b (c : option (list T)) c' :
  h !! b = Some c' → <[b := c]> h !! b = Some c.
Proof. intros Hb. apply list_lookup_insert_eq. by eapply lookup_lt_Some. Qed.

(** [fill_loop] overwrites [n] slots from slot [i] on. *)
Lemma fill_loop_run n : ∀ h o b cells i z x,
  h !! b = Some (Some cells) → (i + n ≤ length cells)%nat → z = Z.of_nat i →
  fill_loop n (Ptr (Some b) z) x (State h o)
  = Ok () (State (<[b := Some (take i cells ++ replicate n x
                                ++ drop (i + n) cells)]> h) o).
Proof.
  induction n as [| n IH]; intros h o b cells i z x Hb Hn ->; simpl.
  - rewrite Nat.add_0_r, take_drop. by rewrite heap_insert_same.
  - erewrite bind_run; [| eapply (store_run _ _ _ cells i); [done | lia | done]].
    unfold ptr_add. simpl.
    erewrite (IH _ _ _ (<[i := x]> cells) (S i));
      [| by eapply heap_lookup_insert | rewrite length_insert; lia | lia].
    rewrite list_insert_insert_eq.
    rewrite (take_S_r _ _ x) by (apply list_lookup_insert_eq; lia).
    rewrite take_insert_ge by lia. rewrite drop_insert_lt by lia.
    rewrite <- app_assoc. simpl.
    by replace (S (i + n)) with (i + S n)%nat by lia.
Qed.

(** [copy_loop] between two different blocks. *)
Lemma copy_loop_run n : ∀ h o b1 b2 src dst i j z1 z2,
  b1 ≠ b2 → h !! b1 = Some (Some src) → h !! b2 = Some (Some dst) →
  (i + n ≤ length src)%nat → (j + n ≤ length dst)%nat →
  z1 = Z.of_nat i → z2 = Z.of_nat j →
  copy_loop n (Ptr (Some b1) z1) (Ptr (Some b2) z2) (State h o)
  = Ok (Ptr (Some b2) (Z.of_nat (j + n)))
       (State (<[b2 := Some (take j dst ++ take n (drop i src)
                              ++ drop (j + n) dst)]> h) o).
Proof.
  induction n as [| n IH]; intros h o b1 b2 src dst i j z1 z2
    Hne Hb1 Hb2 Hi Hj -> ->; simpl.
  - rewrite !Nat.add_0_r, take_drop. by rewrite heap_insert_same.
  - destruct (lookup_lt_is_Some_2 src i) as [x Hx]; [lia |].
    erewrite bind_run; [| by eapply (load_run _ _ _ src i)].
    erewrite bind_run; [| eapply (store_run _ _ _ dst j); [done | lia | done]].
    unfold ptr_add. simpl.
    erewrite (IH _ _ b1 b2 src (<[j := x]> dst) (S i) (S j));
      [| done | by rewrite list_lookup_insert_ne
         | by eapply heap_lookup_insert | lia
         | rewrite length_insert; lia | lia | lia ].
    rewrite list_insert_insert_eq.
    rewrite (take_S_r _ _ x) by (apply list_lookup_insert_eq; lia).
    rewrite take_insert_ge by lia. rewrite drop_insert_lt by lia.
    rewrite (drop_S _ _ _ Hx). rewrite <- app_assoc. simpl.
    by replace (S (j + n)) with (j + S n)%nat by lia.
Qed.

(** [copy_init] writes the initializer list from slot [j] on. *)
Lemma copy_init_run init : ∀ h o b dst j z,
  h !! b = Some (Some dst) → (j + length init ≤ length dst)%nat →
  z = Z.of_nat j →
  copy_init init (Ptr (Some b) z) (State h o)
  = Ok (Ptr (Some b) (Z.of_nat (j + length init)))
       (State (<[b := Some (take j dst ++ init
                             ++ drop (j + length init) dst)]> h) o).
Proof.
  induction init as [| x init IH]; intros h o b dst j z Hb Hj ->; simpl.
  - rewrite !Nat.add_0_r, take_drop. by rewrite heap_insert_same.
  - simpl in Hj.
    erewrite bind_run; [| eapply (store_run _ _ _ dst j); [done | lia | done]].
    unfold ptr_add. simpl.
    erewrite (IH _ _ b (<[j := x]> dst) (S j));
      [| by eapply heap_lookup_insert | rewrite length_insert; lia | lia ].
    rewrite list_insert_insert_eq.
    rewrite (take_S_r _ _ x) by (apply list_lookup_insert_eq; lia).
    rewrite take_insert_ge by lia. rewrite drop_insert_lt by lia.
    rewrite <- app_assoc. simpl.
    by replace (S (j + length init)) with (j + S (length init))%nat by lia.
Qed.

(** [move_loop] between two different blocks: the target receives the
    values, the source keeps their moved-from states. *)
Lemma move_loop_run n : ∀ h o b1 b2 src dst i j z1 z2,
  b1 ≠ b2 → h !! b1 = Some (Some src) → h !! b2 = Some (Some dst) →
  (i + n ≤ length src)%nat → (j + n ≤ length dst)%nat →
  z1 = Z.of_nat i → z2 = Z.of_nat j →
  move_loop n (Ptr (Some b1) z1) (Ptr (Some b2) z2) (State h o)
  = Ok (Ptr (Some b2) (Z.of_nat (j + n)))
       (State (<[b2 := Some (take j dst ++ take n (drop i src)
                              ++ drop (j + n) dst)]>
               (<[b1 := Some (take i src
                              ++ (elem_moved <$> take n (drop i src))
                              ++ drop (i + n) src)]> h)) o).
Proof.
  induction n as [| n IH]; intros h o b1 b2 src dst i j z1 z2
    Hne Hb1 Hb2 Hi Hj -> ->; simpl.
  - rewrite !Nat.add_0_r, !take_drop.
    rewrite (heap_insert_same h b1) by done. by rewrite heap_insert_same.
  - destruct (lookup_lt_is_Some_2 src i) as [x Hx]; [lia |].
    unfold move_assign.
    erewrite bind_run;
      [| erewrite bind_run; [| by eapply (load_run _ _ _ src i)];
         erewrite bind_run;
           [| eapply (store_run _ _ _ src i); [done | lia | done]];
         eapply (store_run _ _ _ dst j);
           [by rewrite list_lookup_insert_ne | lia | done]].
    unfold ptr_add. simpl.
    erewrite (IH _ _ b1 b2 (<[i := elem_moved x]> src) (<[j := x]> dst)
                (S i) (S j));
      [| done
       | rewrite list_lookup_insert_ne by done; by eapply heap_lookup_insert
       | eapply heap_lookup_insert; by rewrite list_lookup_insert_ne
       | rewrite length_insert; lia
       | rewrite length_insert; lia | lia | lia ].
    rewrite (list_insert_insert_ne _ b1 b2) by done.
    rewrite list_insert_insert_eq, list_insert_insert_eq.
    rewrite (take_S_r (<[j:=x]> dst) _ x) by (apply list_lookup_insert_eq; lia).
    rewrite (take_S_r (<[i:=elem_moved x]> src) _ (elem_moved x))
      by (apply list_lookup_insert_eq; lia).
    rewrite !take_insert_ge by lia. rewrite !drop_insert_lt by lia.
    rewrite (drop_S _ _ _ Hx). rewrite <- !app_assoc. simpl.
    replace (S (j + n)) with (j + S n)%nat by lia.
    by replace (S (i + n)) with (i + S n)%nat by lia.
Qed.

Lemma range_len_add p n : range_len p (p +ₚ n) = Z.to_nat n.
Proof. unfold range_len, ptr_diff. simpl. f_equal. lia. Qed.

Lemma get_obj_run h o this v :
  o !! this = Some v → get_obj this (State h o) = Ok v (State h o).
Proof. intros Hv. unfold get_obj. simpl. by rewrite Hv. Qed.

Lemma member_run {A} h o this v (f : SimpleVector → A) :
  o !! this = Some v → SV.member this f (State h o) = Ok (f v) (State h o).
Proof.
  intros Hv. unfold SV.member. by erewrite bind_run; [| by apply get_obj_run].
Qed.

Lemma upd_obj_run h o this v f :
  o !! this = Some v →
  upd_obj this f (State h o) = Ok () (State h (<[this := f v]> o)).
Proof. intros Hv. unfold upd_obj. simpl. by rewrite Hv. Qed.

Lemma new_obj_run h o v :
  new_obj v (State h o) = Ok (length o) (State h (o ++ [v])).
Proof. done. Qed.

(** [ArrayPtr(size)]: no block for size 0, else a new block at the end of
    the heap. *)
Lemma create_run n h o :
  n ≠ 0 →
  AP.create n (State h o)
  = Ok (mkArrayPtr (Ptr (Some (length h)) 0))
       (State (h ++ [Some (replicate (Z.to_nat n) elem_new)]) o).
Proof. intros Hn. unfold AP.create. by destruct (Z.eqb_spec n 0). Qed.

Lemma create_zero_run h o :
  AP.create 0 (State h o) = Ok (mkArrayPtr nullptr) (State h o).
Proof. done. Qed.

(** [~ArrayPtr()] on a pointer to the start of a live block, and on
    [nullptr]. *)
Lemma destroy_run h o b cells :
  h !! b = Some (Some cells) →
  AP.destroy (mkArrayPtr (Ptr (Some b) 0)) (State h o)
  = Ok () (State (<[b := None]> h) o).
Proof.
  intros Hb. unfold AP.destroy, delete_array, block_cells. simpl.
  by rewrite Hb.
Qed.

Lemma destroy_null_run h o :
  AP.destroy (mkArrayPtr nullptr) (State h o) = Ok () (State h o).
Proof. done. Qed.

Lemma swap_items_run h o this v temp :
  o !! this = Some v →
  SV.swap_items this temp (State h o)
  = Ok (mkArrayPtr (raw_ptr_ (items_ v)))
       (State h (<[this := set_items (mkArrayPtr (raw_ptr_ temp)) v]> o)).
Proof.
  intros Hv. unfold SV.swap_items.
  erewrite bind_run; [| by apply get_obj_run]. simpl.
  by erewrite bind_run; [| by apply upd_obj_run].
Qed.

(** A valid vector's buffer is a live block of [capacity_] slots, or no
    block at all. *)
Lemma valid_cells h o v :
  valid (State h o) v →
  0 ≤ size_ v ≤ capacity_ v ∧ capacity_ v < SIZE_MOD ∧
  ((∃ b cells, raw_ptr_ (items_ v) = Ptr (Some b) 0 ∧
               h !! b = Some (Some cells) ∧
               length cells = Z.to_nat (capacity_ v)) ∨
   (raw_ptr_ (items_ v) = nullptr ∧ capacity_ v = 0)).
Proof.
  intros (Hsz & Hcap & Hoff & Hblk). split; [done |]. split; [done |].
  destruct (raw_ptr_ (items_ v)) as [[b|] z]; simpl in *; subst z.
  - left. unfold extent, block_cells in Hblk. simpl in Hblk.
    destruct (h !! b) as [[cells|]|] eqn:Hhb; simpl in Hblk; try done.
    exists b, cells. by injection Hblk as <-.
  - by right.
Qed.

(** *** Runs that fill a block newly added at the end of the heap *)

Lemma insert_new_block h (x y : option (list T)) n :
  n = length h → <[n := y]> (h ++ [x]) = h ++ [y].
Proof.
  intros ->. replace (length h) with (length h + 0)%nat by lia.
  by rewrite insert_app_r.
Qed.

Lemma insert_old_block h (x y : option (list T)) b :
  (b < length h)%nat → <[b := y]> (h ++ [x]) = <[b := y]> h ++ [x].
Proof. intros Hb. by rewrite insert_app_l. Qed.

Lemma lookup_new_block h (x : option (list T)) : (h ++ [x]) !! length h = Some x.
Proof. by apply list_lookup_middle. Qed.

Lemma lookup_old_block h (x y : option (list T)) b :
  h !! b = Some y → (h ++ [x]) !! b = Some y.
Proof. apply lookup_app_l_Some. Qed.

Lemma store_new_run h o dst i x z :
  (i < length dst)%nat → z = Z.of_nat i →
  store (Ptr (Some (length h)) z) x (State (h ++ [Some dst]) o)
  = Ok () (State (h ++ [Some (<[i := x]> dst)]) o).
Proof.
  intros Hi Hz.
  erewrite (store_run _ _ _ dst i); [| apply lookup_new_block | done | done].
  by rewrite insert_new_block.
Qed.

Lemma fill_new_run n h o dst i z x :
  (i + n ≤ length dst)%nat → z = Z.of_nat i →
  fill_loop n (Ptr (Some (length h)) z) x (State (h ++ [Some dst]) o)
  = Ok () (State (h ++ [Some (take i dst ++ replicate n x ++ drop (i + n) dst)]) o).
Proof.
  intros Hi Hz.
  erewrite (fill_loop_run _ _ _ _ dst i); [| apply lookup_new_block | done | done].
  by rewrite insert_new_block.
Qed.

Lemma copy_init_new_run init h o dst j z :
  (j + length init ≤ length dst)%nat → z = Z.of_nat j →
  copy_init init (Ptr (Some (length h)) z) (State (h ++ [Some dst]) o)
  = Ok (Ptr (Some (length h)) (Z.of_nat (j + length init)))
       (State (h ++ [Some (take j dst ++ init ++ drop (j + length init) dst)]) o).
Proof.
  intros Hj Hz.
  erewrite (copy_init_run _ _ _ _ dst j); [| apply lookup_new_block | done | done].
  by rewrite insert_new_block.
Qed.

Lemma copy_new_run n h o b src dst i j z1 z2 :
  h !! b = Some (Some src) →
  (i + n ≤ length src)%nat → (j + n ≤ length dst)%nat →
  z1 = Z.of_nat i → z2 = Z.of_nat j →
  copy_loop n (Ptr (Some b) z1) (Ptr (Some (length h)) z2)
    (State (h ++ [Some dst]) o)
  = Ok (Ptr (Some (length h)) (Z.of_nat (j + n)))
       (State (h ++ [Some (take j dst ++ take n (drop i src)
                           ++ drop (j + n) dst)]) o).
Proof.
  intros Hb Hi Hj Hz1 Hz2.
  assert (b < length h)%nat by by eapply lookup_lt_Some.
  erewrite (copy_loop_run _ _ _ b _ src dst i j);
    [| lia | by apply lookup_old_block | apply lookup_new_block
     | done | done | done | done].
  by rewrite insert_new_block.
Qed.

Lemma move_new_run n h o b src dst i j z1 z2 :
  h !! b = Some (Some src) →
  (i + n ≤ length src)%nat → (j + n ≤ length dst)%nat →
  z1 = Z.of_nat i → z2 = Z.of_nat j →
  move_loop n (Ptr (Some b) z1) (Ptr (Some (length h)) z2)
    (State (h ++ [Some dst]) o)
  = Ok (Ptr (Some (length h)) (Z.of_nat (j + n)))
       (State (<[b := Some (take i src
                            ++ (elem_moved <$> take n (drop i src))
                            ++ drop (i + n) src)]> h
               ++ [Some (take j dst ++ take n (drop i src)
                         ++ drop (j + n) dst)]) o).
Proof.
  intros Hb Hi Hj Hz1 Hz2.
  assert (b < length h)%nat by by eapply lookup_lt_Some.
  erewrite (move_loop_run _ _ _ b _ src dst i j);
    [| lia | by apply lookup_old_block | apply lookup_new_block
     | done | done | done | done].
  rewrite insert_old_block by done.
  by rewrite insert_new_block by by rewrite length_insert.
Qed.

Lemma destroy_old_run h o b cells (x : option (list T)) :
  h !! b = Some (Some cells) →
  AP.destroy (mkArrayPtr (Ptr (Some b) 0)) (State (h ++ [x]) o)
  = Ok () (State (<[b := None]> h ++ [x]) o).
Proof.
  intros Hb. assert (b < length h)%nat by by eapply lookup_lt_Some.
  erewrite destroy_run; [| by apply lookup_old_block].
  by rewrite insert_old_block.
Qed.

(** The store after a reallocation: the facts a caller can rely on. *)
Lemma rehoused_intro h o this v v' new_cells :
  (this < length o)%nat →
  raw_ptr_ (items_ v') = Ptr (Some (length h)) 0 →
  (∀ b, base (raw_ptr_ (items_ v)) = Some b → (b < length h)%nat) →
  let σ' := State (retire (raw_ptr_ (items_ v)) h ++ [Some new_cells])
                  (<[this := v']> o) in
  rehoused (State h o) this v v' σ' ∧
  objs σ' !! this = Some v' ∧
  buffer σ' v' = Some new_cells ∧
  (length new_cells = Z.to_nat (capacity_ v') →
   0 ≤ size_ v' ≤ capacity_ v' → capacity_ v' < SIZE_MOD → valid σ' v').
Proof.
  intros Hthis Hp Hold σ'.
  assert (Hlen : length (retire (raw_ptr_ (items_ v)) h) = length h).
  { unfold retire. destruct (base _); [apply length_insert | done]. }
  split; [| split; [| split]]; cycle 3.
  { intros Hcells Hsz Hcap. unfold valid. rewrite Hp. simpl.
    repeat split; try done; try lia.
    unfold extent, block_cells. simpl.
    rewrite <- Hlen, lookup_new_block. simpl. by rewrite Hcells. }
  - split; [done |]. split; [done |]. split.
    + intros b' Hne Hb'. simpl in *. rewrite lookup_app_l by lia.
      unfold retire. destruct (base (raw_ptr_ (items_ v))) as [b|]; [| done].
      apply list_lookup_insert_ne. congruence.
    + intros b Hb. simpl. rewrite lookup_app_l by (rewrite Hlen; eauto).
      unfold retire. rewrite Hb. apply list_lookup_insert_eq. eauto.
  - simpl. by apply list_lookup_insert_eq.
  - unfold buffer, block_cells. rewrite Hp. simpl.
    by rewrite <- Hlen, lookup_new_block.
Qed.

(** *** Runs out of the buffer a vector holds into a new block *)

Lemma valid_holds h o v cells :
  valid (State h o) v → buffer (State h o) v = Some cells →
  holds h (raw_ptr_ (items_ v)) cells ∧
  length cells = Z.to_nat (capacity_ v) ∧
  0 ≤ size_ v ≤ capacity_ v ∧ capacity_ v < SIZE_MOD.
Proof.
  intros (Hsz & Hcap & Hoff & Hblk) Hbuf. unfold holds, buffer in *.
  destruct (base (raw_ptr_ (items_ v))) as [b|].
  - unfold extent, block_cells in *. simpl in *.
    destruct (h !! b) as [[c|]|]; simpl in *; try done.
    injection Hbuf as ->. injection Hblk as Hlen. done.
  - injection Hbuf as <-. simpl. repeat split; try done; lia.
Qed.

Lemma holds_lt h p cells b : holds h p cells → base p = Some b → (b < length h)%nat.
Proof. intros [_ Hb] Hp. rewrite Hp in Hb. by eapply lookup_lt_Some. Qed.

Lemma retire_length p h : length (retire p h) = length h.
Proof. unfold retire. destruct (base p); [apply length_insert | done]. Qed.

Lemma copy_out_run n h o p cells dst i j z1 z2 :
  holds h p cells →
  (i + n ≤ length cells)%nat → (j + n ≤ length dst)%nat →
  z1 = Z.of_nat i → z2 = Z.of_nat j →
  copy_loop n (Ptr (base p) z1) (Ptr (Some (length h)) z2)
    (State (h ++ [Some dst]) o)
  = Ok (Ptr (Some (length h)) (Z.of_nat (j + n)))
       (State (h ++ [Some (take j dst ++ take n (drop i cells)
                           ++ drop (j + n) dst)]) o).
Proof.
  intros [_ Hp] Hi Hj Hz1 Hz2. destruct (base p) as [b|].
  - by apply copy_new_run.
  - subst cells. simpl in Hi. assert (n = 0%nat) as -> by lia. simpl.
    rewrite Nat.add_0_r, take_drop. by subst.
Qed.

Lemma move_out_run n h o p cells dst i j z1 z2 :
  holds h p cells →
  (i + n ≤ length cells)%nat → (j + n ≤ length dst)%nat →
  z1 = Z.of_nat i → z2 = Z.of_nat j →
  move_loop n (Ptr (base p) z1) (Ptr (Some (length h)) z2)
    (State (h ++ [Some dst]) o)
  = Ok (Ptr (Some (length h)) (Z.of_nat (j + n)))
       (State (moved_out p i n cells h
               ++ [Some (take j dst ++ take n (drop i cells)
                         ++ drop (j + n) dst)]) o).
Proof.
  intros [Hoff Hp] Hi Hj Hz1 Hz2. unfold moved_out, moved_from.
  destruct (base p) as [b|].
  - by apply move_new_run.
  - subst cells. simpl in Hi. assert (n = 0%nat) as -> by lia. simpl.
    rewrite Nat.add_0_r, take_drop. by subst.
Qed.

Lemma moved_out_length p i n cells h : length (moved_out p i n cells h) = length h.
Proof. unfold moved_out. destruct (base p); [apply length_insert | done]. Qed.

Lemma retire_moved_out p i n cells h :
  retire p (moved_out p i n cells h) = retire p h.
Proof.
  unfold retire, moved_out. destruct (base p); [apply list_insert_insert_eq | done].
Qed.

Lemma holds_moved_out p i n cells h :
  holds h p cells → holds (moved_out p i n cells h) p (moved_from i n cells).
Proof.
  intros [Hoff Hp]. unfold holds, moved_out, moved_from. split; [done |].
  destruct (base p) as [b|].
  - by eapply heap_lookup_insert.
  - subst cells. by rewrite !drop_nil, !take_nil.
Qed.

Lemma moved_from_length i n cells :
  (i + n ≤ length cells)%nat → length (moved_from i n cells) = length cells.
Proof.
  intros Hi. unfold moved_from.
  rewrite !length_app, length_fmap, !length_take, !length_drop. lia.
Qed.

Lemma destroy_held_run h o p cells (x : option (list T)) :
  holds h p cells →
  AP.destroy (mkArrayPtr p) (State (h ++ [x]) o)
  = Ok () (State (retire p h ++ [x]) o).
Proof.
  intros [Hoff Hp]. destruct p as [[b|] z]; simpl in *; subst z.
  - by eapply destroy_old_run.
  - done.
Qed.

(** The common cases: a whole new block filled, and a front segment of the
    held buffer transferred to the front of the new block. *)

Lemma fill_new_all_run n h o dst x z :
  n = length dst → z = 0 →
  fill_loop n (Ptr (Some (length h)) z) x (State (h ++ [Some dst]) o)
  = Ok () (State (h ++ [Some (replicate n x)]) o).
Proof.
  intros -> ->. erewrite (fill_new_run _ _ _ _ 0%nat); [| simpl; lia | done].
  simpl. by rewrite drop_all, app_nil_r.
Qed.

Lemma copy_out_front_run n h o p cells dst z1 z2 :
  holds h p cells → (n ≤ length cells)%nat → (n ≤ length dst)%nat →
  z1 = 0 → z2 = 0 →
  copy_loop n (Ptr (base p) z1) (Ptr (Some (length h)) z2)
    (State (h ++ [Some dst]) o)
  = Ok (Ptr (Some (length h)) (Z.of_nat n))
       (State (h ++ [Some (take n cells ++ drop n dst)]) o).
Proof.
  intros Hp Hn Hd -> ->.
  by erewrite (copy_out_run _ _ _ _ cells dst 0 0); [| done | simpl; lia ..].
Qed.

Lemma move_out_front_run n h o p cells dst z1 z2 :
  holds h p cells → (n ≤ length cells)%nat → (n ≤ length dst)%nat →
  z1 = 0 → z2 = 0 →
  move_loop n (Ptr (base p) z1) (Ptr (Some (length h)) z2)
    (State (h ++ [Some dst]) o)
  = Ok (Ptr (Some (length h)) (Z.of_nat n))
       (State (moved_out p 0 n cells h ++ [Some (take n cells ++ drop n dst)]) o).
Proof.
  intros Hp Hn Hd -> ->.
  by erewrite (move_out_run _ _ _ _ cells dst 0 0); [| done | simpl; lia ..].
Qed.

Lemma bind_undefined {A B} (m : M T A) (k : A → M T B) σ u :
  m σ = Undefined u → (m ≫= k) σ = Undefined u.
Proof. intros Hm. unfold mbind, M_bind, bind. by rewrite Hm. Qed.

(** [fill_loop] past the end of a block stops at the first slot after it. *)
Lemma fill_loop_overrun n : ∀ h o b cells i z x,
  h !! b = Some (Some cells) →
  (i ≤ length cells)%nat → (length cells < i + n)%nat → z = Z.of_nat i →
  fill_loop n (Ptr (Some b) z) x (State h o)
  = Undefined (BadStore (Ptr (Some b) (Z.of_nat (length cells)))).
Proof.
  induction n as [| n IH]; intros h o b cells i z x Hb Hi Hn ->; [lia |].
  simpl. destruct (decide (i = length cells)) as [-> | Hne].
  - apply bind_undefined. unfold store, cell_at, block_cells. simpl.
    rewrite Hb. simpl. rewrite bool_decide_true by lia.
    by rewrite Nat2Z.id, lookup_ge_None_2 by lia.
  - erewrite bind_run; [| eapply (store_run _ _ _ cells i); [done | lia | done]].
    unfold ptr_add. simpl.
    erewrite (IH _ _ _ (<[i := x]> cells) (S i));
      [| by eapply heap_lookup_insert | rewrite length_insert; lia
       | rewrite length_insert; lia | lia].
    by rewrite length_insert.
Qed.

Lemma store_last_run h o dst i x z n :
  n = length h → (i < length dst)%nat → z = Z.of_nat i →
  store (Ptr (Some n) z) x (State (h ++ [Some dst]) o)
  = Ok () (State (h ++ [Some (<[i := x]> dst)]) o).
Proof. intros ->. apply store_new_run. Qed.

Lemma take_succ_insert (l : list T) i x :
  (i < length l)%nat → take (S i) (<[i := x]> l) = take i l ++ [x].
Proof.
  intros Hi. rewrite (take_S_r _ _ x) by by apply list_lookup_insert_eq.
  by rewrite take_insert_ge.
Qed.

(** The same runs with the new block named by its number. *)
Lemma copy_out_at n h o p cells dst i j z1 z2 nb :
  nb = length h → holds h p cells →
  (i + n ≤ length cells)%nat → (j + n ≤ length dst)%nat →
  z1 = Z.of_nat i → z2 = Z.of_nat j →
  copy_loop n (Ptr (base p) z1) (Ptr (Some nb) z2) (State (h ++ [Some dst]) o)
  = Ok (Ptr (Some nb) (Z.of_nat (j + n)))
       (State (h ++ [Some (take j dst ++ take n (drop i cells)
                           ++ drop (j + n) dst)]) o).
Proof. intros ->. apply copy_out_run. Qed.

Lemma move_out_at n h o p cells dst i j z1 z2 nb :
  nb = length h → holds h p cells →
  (i + n ≤ length cells)%nat → (j + n ≤ length dst)%nat →
  z1 = Z.of_nat i → z2 = Z.of_nat j →
  move_loop n (Ptr (base p) z1) (Ptr (Some nb) z2) (State (h ++ [Some dst]) o)
  = Ok (Ptr (Some nb) (Z.of_nat (j + n)))
       (State (moved_out p i n cells h
               ++ [Some (take j dst ++ take n (drop i cells)
                         ++ drop (j + n) dst)]) o).
Proof. intros ->. apply move_out_run. Qed.

(** Moving out twice from one buffer, the second time past the first
    range, leaves a heap that retires to the same. *)
Lemma retire_moved_out_twice p i1 n1 i2 n2 cells h :
  retire p (moved_out p i2 n2 (moved_from i1 n1 cells) (moved_out p i1 n1 cells h))
  = retire p h.
Proof. by rewrite !retire_moved_out. Qed.

Lemma drop_moved_from i n k cells :
  (i + n ≤ k)%nat → (i + n ≤ length cells)%nat →
  drop k (moved_from i n cells) = drop k cells.
Proof.
  intros Hk Hlen. unfold moved_from.
  rewrite app_assoc, drop_app_ge by list_len.
  rewrite drop_drop. f_equal. list_len.
Qed.

End Runs.

(** ** Capacity: Reserve and Resize *)

Section CapacityFacts.
Context {T : Type} `{Element T}.
Implicit Types (h : list (option (list T))) (o : list SimpleVector).
Implicit Types (cells : list T) (v : SimpleVector) (σ : state T).

(** [Reserve(n)] with [n] at most the capacity does nothing. *)
Lemma Reserve_keeps this v new_capacity σ :
  objs σ !! this = Some v → new_capacity ≤ capacity_ v →
  SV.Reserve this new_capacity σ = Ok () σ.
Proof.
  destruct σ as [h o]. simpl. intros Hv Hle. unfold SV.Reserve.
  erewrite bind_run; [| by apply get_obj_run].
  by destruct (Z.gtb_spec new_capacity (capacity_ v)) as [Hgt | _]; [lia |].
Qed.

(** [Reserve(n)] with [n] above the capacity. *)
Lemma Reserve_grows this v cells new_capacity σ :
  objs σ !! this = Some v → valid σ v → buffer σ v = Some cells →
  capacity_ v < new_capacity < SIZE_MOD →
  returns (SV.Reserve this new_capacity) σ (λ _ σ',
    ∃ v', rehoused σ this v v' σ' ∧ valid σ' v' ∧
          size_ v' = size_ v ∧ capacity_ v' = new_capacity ∧
          buffer σ' v' =
            Some (take (Z.to_nat (size_ v)) cells ++
                  replicate (Z.to_nat (new_capacity - size_ v)) elem_default)).
Proof.
  destruct σ as [h o]. simpl. intros Hv Hval Hbuf [Hgt Hmod].
  destruct (valid_holds _ _ _ _ Hval Hbuf) as (Hheld & Hlen & Hsz & Hcap).
  unfold returns, SV.Reserve.
  erewrite bind_run; [| by apply get_obj_run].
  destruct (Z.gtb_spec new_capacity (capacity_ v)) as [_ | Hle]; [| lia].
  erewrite bind_run; [| apply create_run; lia].
  unfold SV.fill. rewrite range_len_add.
  erewrite bind_run;
    [| apply fill_new_all_run; [by rewrite length_replicate | done]].
  erewrite bind_run; [| by apply member_run].
  unfold std_move.
  rewrite over_range_forward by (unfold ptr_diff; simpl; lia). cbv beta.
  rewrite range_len_add.
  erewrite bind_run;
    [| eapply (move_out_front_run _ _ _ _ cells);
       [exact Hheld | lia | list_len | by destruct Hheld as [-> _] | done]].
  erewrite bind_run; [| by apply swap_items_run].
  erewrite bind_run;
    [| apply upd_obj_run, list_lookup_insert_eq; by eapply lookup_lt_Some].
  erewrite destroy_held_run; [| by apply holds_moved_out].
  rewrite retire_moved_out, list_insert_insert_eq, drop_replicate.
  replace (Z.to_nat new_capacity - Z.to_nat (size_ v))%nat
    with (Z.to_nat (new_capacity - size_ v)) by lia.
  eexists _, _. split; [reflexivity |].
  set (v' := set_capacity new_capacity _).
  edestruct (rehoused_intro h o this v v') as (Hre & Hv' & Hbuf' & Hval');
    [by eapply lookup_lt_Some | done | intros b Hb; by eapply holds_lt |].
  exists v'. split; [exact Hre |]. split; [| done].
  apply Hval'; simpl; [list_len | lia | lia].
Qed.

(** X1. [Reserve(n)] on a valid vector: with [n <= capacity_] the store
    is left as it is; with [n > capacity_], for a request that [new[]]
    does not refuse outright, the elements are moved to a new buffer of
    exactly [n] slots, whose slots past the size hold [Type()], size and
    elements are unchanged, the old buffer is deleted and no other object
    or block is touched. *)
Theorem Reserve_moves_to_exact_capacity this v cells new_capacity σ :
  objs σ !! this = Some v → valid σ v → buffer σ v = Some cells →
  new_capacity < SIZE_MOD →
  (capacity_ v < new_capacity → allocatable new_capacity) →
  returns (SV.Reserve this new_capacity) σ (λ _ σ',
    if new_capacity >? capacity_ v then
      ∃ v', rehoused σ this v v' σ' ∧ valid σ' v' ∧
            size_ v' = size_ v ∧ capacity_ v' = new_capacity ∧
            buffer σ' v' =
              Some (take (Z.to_nat (size_ v)) cells ++
                    replicate (Z.to_nat (new_capacity - size_ v)) elem_default)
    else σ' = σ).
Proof.
  intros Hv Hval Hbuf Hmod Halloc.
  destruct (Z.gtb_spec new_capacity (capacity_ v)) as [Hgt | Hle].
  - by apply Reserve_grows.
  - eapply returns_of_run; [by eapply Reserve_keeps | done].
Qed.

(** X2. [Resize(n)] with [n] above the capacity of a valid vector asks
    for a new buffer of [max(n, capacity_ * 2)] slots; for a request that
    [new[]] does not refuse outright it moves all [capacity_] slots of the
    old buffer, stale ones included, to the new buffer, and only the slots
    from the old capacity on hold [Type()]; the size becomes [n]. *)
Theorem Resize_beyond_capacity this v cells new_size σ :
  objs σ !! this = Some v → valid σ v → buffer σ v = Some cells →
  capacity_ v < new_size → new_size < SIZE_MOD →
  allocatable (Z.max new_size (wrap (capacity_ v * 2))) →
  returns (SV.Resize this new_size) σ (λ _ σ',
    ∃ v', rehoused σ this v v' σ' ∧ valid σ' v' ∧
          size_ v' = new_size ∧
          capacity_ v' = Z.max new_size (wrap (capacity_ v * 2)) ∧
          buffer σ' v' =
            Some (cells ++ replicate (Z.to_nat (capacity_ v' - capacity_ v))
                                     elem_default)).
Proof.
  destruct σ as [h o]. simpl. intros Hv Hval Hbuf Hgt Hmod Halloc.
  destruct (valid_holds _ _ _ _ Hval Hbuf) as (Hheld & Hlen & Hsz & Hcap).
  pose proof (Z.mod_pos_bound (capacity_ v * 2) SIZE_MOD eq_refl) as Hwrap.
  fold (wrap (capacity_ v * 2)) in Hwrap.
  set (nc := Z.max new_size (wrap (capacity_ v * 2))).
  assert (Hnc : new_size ≤ nc ∧ nc < SIZE_MOD) by (unfold nc; lia).
  unfold returns, SV.Resize.
  erewrite bind_run; [| by apply get_obj_run].
  destruct (Z.leb_spec new_size (size_ v)) as [? | _]; [lia |].
  erewrite bind_run; [| reflexivity].
  erewrite bind_run; [| by apply get_obj_run].
  destruct (Z.leb_spec new_size (capacity_ v)) as [? | _]; [lia |].
  erewrite bind_run; [| reflexivity].
  erewrite bind_run; [| by apply get_obj_run].
  destruct (Z.gtb_spec new_size (capacity_ v)) as [_ | ?]; [| lia].
  simpl. fold nc.
  erewrite bind_run; [| apply create_run; lia].
  unfold SV.fill. rewrite range_len_add.
  erewrite bind_run;
    [| apply fill_new_all_run; [by rewrite length_replicate | done]].
  erewrite bind_run; [| by apply member_run].
  unfold std_move.
  rewrite over_range_forward by (unfold ptr_diff; simpl; lia). cbv beta.
  rewrite range_len_add.
  erewrite bind_run;
    [| eapply (move_out_front_run _ _ _ _ cells);
       [exact Hheld | lia | list_len | by destruct Hheld as [-> _] | done]].
  erewrite bind_run; [| by apply swap_items_run].
  erewrite bind_run;
    [| apply upd_obj_run, list_lookup_insert_eq; by eapply lookup_lt_Some].
  erewrite bind_run;
    [| apply upd_obj_run, list_lookup_insert_eq;
       rewrite length_insert; by eapply lookup_lt_Some].
  erewrite destroy_held_run; [| by apply holds_moved_out].
  rewrite retire_moved_out, !list_insert_insert_eq, drop_replicate.
  rewrite <- Hlen, take_ge by lia.
  replace (Z.to_nat nc - length cells)%nat
    with (Z.to_nat (nc - capacity_ v)) by lia.
  eexists _, _. split; [reflexivity |].
  set (v' := set_capacity nc _).
  edestruct (rehoused_intro h o this v v') as (Hre & Hv' & Hbuf' & Hval');
    [by eapply lookup_lt_Some | done | intros b Hb; by eapply holds_lt |].
  exists v'. split; [exact Hre |]. split; [| done].
  apply Hval'; simpl; [list_len | lia | lia].
Qed.

(** The second and third [if] of [Resize], from a vector whose size is
    already at most [n]. *)
Lemma Resize_fill_step this v cells new_size h o :
  o !! this = Some v → valid (State h o) v → buffer (State h o) v = Some cells →
  0 ≤ new_size ≤ capacity_ v →
  let rest :=
    (v ← get_obj this;
     when (new_size <=? capacity_ v)
       (b ← SV.begin this;
        SV.fill (b +ₚ size_ v) (b +ₚ size_ v +ₚ new_size);;
        upd_obj this (set_size new_size));;
     v ← get_obj this;
     when (new_size >? capacity_ v)
       (let new_capacity := Z.max new_size (wrap (capacity_ v * 2)) in
        temp ← AP.create new_capacity;
        SV.fill (AP.Get temp) (AP.Get temp +ₚ new_capacity);;
        b ← SV.begin this;
        std_move b (b +ₚ capacity_ v) (AP.Get temp);;
        temp ← SV.swap_items this temp;
        upd_obj this (set_size new_size);;
        upd_obj this (set_capacity new_capacity);;
        AP.destroy temp)) in
  if size_ v + new_size <=? capacity_ v then
    returns rest (State h o) (λ _ σ',
      objs σ' = <[this := set_size new_size v]> o ∧
      buffer σ' (set_size new_size v) =
        Some (take (Z.to_nat (size_ v)) cells ++
              replicate (Z.to_nat new_size) elem_default ++
              drop (Z.to_nat (size_ v + new_size)) cells) ∧
      length (heap σ') = length h ∧
      same_blocks_but (base (raw_ptr_ (items_ v))) (State h o) σ')
  else
    rest (State h o) =
      Undefined (BadStore (Ptr (base (raw_ptr_ (items_ v))) (capacity_ v))).
Proof.
  intros Hv Hval Hbuf Hn rest. unfold rest.
  destruct (valid_holds _ _ _ _ Hval Hbuf) as ([Hoff Hblk] & Hlen & Hsz & Hcap).
  assert (Hthis : (this < length o)%nat) by by eapply lookup_lt_Some.
  destruct v as [[[bo z]] sz cap]. simpl in *. subst z.
  destruct (Z.leb_spec (sz + new_size) cap) as [Hfit | Hover].
  - unfold returns.
    erewrite bind_run; [| by apply get_obj_run].
    cbn [capacity_ size_].
    destruct (Z.leb_spec new_size cap) as [_ | ?]; [| lia].
    destruct (Z.gtb_spec new_size cap) as [? | _]; [lia |].
    cbn [when].
    destruct bo as [b|].
    + erewrite bind_run.
      2:{ erewrite bind_run; [| by apply member_run].
          unfold SV.fill. rewrite range_len_add.
          erewrite bind_run;
            [| eapply (fill_loop_run _ _ _ b cells (Z.to_nat sz));
               [done | lia | simpl; lia]].
          apply upd_obj_run. done. }
      erewrite bind_run; [| by apply get_obj_run, list_lookup_insert_eq].
      cbn [capacity_ set_size].
      destruct (Z.gtb_spec new_size cap) as [? | _]; [lia |].
      eexists _, _. split; [reflexivity |]. simpl.
      assert (b < length h)%nat by by eapply lookup_lt_Some.
      split; [done |]. split; [| split].
      * unfold buffer, block_cells. simpl.
        rewrite list_lookup_insert_eq by done. simpl.
        by replace (Z.to_nat sz + Z.to_nat new_size)%nat
          with (Z.to_nat (sz + new_size)) by lia.
      * apply length_insert.
      * intros b' Hne _. simpl. apply list_lookup_insert_ne. congruence.
    + subst cells. simpl in Hlen.
      assert (cap = 0) as -> by lia. assert (new_size = 0) as -> by lia.
      assert (sz = 0) as -> by lia.
      erewrite bind_run.
      2:{ erewrite bind_run; [| by apply member_run].
          erewrite bind_run; [| reflexivity].
          apply upd_obj_run. done. }
      erewrite bind_run; [| by apply get_obj_run, list_lookup_insert_eq].
      eexists _, _. split; [reflexivity |]. simpl.
      split; [done |]. split; [done |]. split; [done |]. by intros b' _ _.
  - erewrite bind_run; [| by apply get_obj_run].
    cbn [capacity_ size_].
    destruct (Z.leb_spec new_size cap) as [_ | ?]; [| lia].
    cbn [when].
    destruct bo as [b|]; [| subst cells; simpl in Hlen; lia].
    apply bind_undefined.
    erewrite bind_run; [| by apply member_run].
    apply bind_undefined.
    unfold SV.fill. rewrite range_len_add.
    etrans;
      [eapply (fill_loop_overrun _ _ _ b cells (Z.to_nat sz));
         [done | lia | lia | simpl; lia] |].
    rewrite Hlen. do 3 f_equal. lia.
Qed.

(** X3. [Resize(n)] with [n] within the capacity of a valid vector.  The
    size first drops to [kept = min(size_, n)]; then the [n] slots from
    slot [kept] on are set to [Type()], whether they lie below [n] or not.
    If they all fit the buffer, the call returns with size [n] in the same
    buffer; if not, it writes the slot one past the buffer's last. *)
Theorem Resize_within_capacity this v cells new_size σ :
  objs σ !! this = Some v → valid σ v → buffer σ v = Some cells →
  0 ≤ new_size ≤ capacity_ v →
  let kept := Z.min (size_ v) new_size in
  if kept + new_size <=? capacity_ v then
    returns (SV.Resize this new_size) σ (λ _ σ',
      objs σ' = <[this := set_size new_size v]> (objs σ) ∧
      buffer σ' (set_size new_size v) =
        Some (take (Z.to_nat kept) cells ++
              replicate (Z.to_nat new_size) elem_default ++
              drop (Z.to_nat (kept + new_size)) cells) ∧
      length (heap σ') = length (heap σ) ∧
      same_blocks_but (base (raw_ptr_ (items_ v))) σ σ')
  else
    SV.Resize this new_size σ =
      Undefined (BadStore (Ptr (base (raw_ptr_ (items_ v))) (capacity_ v))).
Proof.
  destruct σ as [h o]. simpl. intros Hv Hval Hbuf Hn.
  assert (Hthis : (this < length o)%nat) by by eapply lookup_lt_Some.
  pose proof Hval as (Hsz & Hcap & Hoff & Hblk).
  unfold SV.Resize, returns.
  destruct (Z.leb_spec new_size (size_ v)) as [Hle | Hgt].
  - (* the first [if] lowers the size to [new_size] *)
    rewrite Z.min_r by lia.
    pose proof (Resize_fill_step this (set_size new_size v) cells new_size h
                  (<[this := set_size new_size v]> o)) as Hstep.
    rewrite list_insert_insert_eq in Hstep. simpl in Hstep.
    assert (Hrun : ∀ k : unit → M T unit,
      (v0 ← get_obj this;
       when (new_size <=? size_ v0) (upd_obj this (set_size new_size)) ≫= k)
        (State h o) = k () (State h (<[this := set_size new_size v]> o))).
    { intros k. erewrite bind_run; [| by apply get_obj_run].
      destruct (Z.leb_spec new_size (size_ v)); [| lia].
      by erewrite bind_run; [| by apply upd_obj_run]. }
    rewrite Hrun.
    assert (Hnew : valid (State h (<[this := set_size new_size v]> o))
                         (set_size new_size v)).
    { repeat split; simpl; try done; lia. }
    specialize (Hstep (list_lookup_insert_eq _ _ _ Hthis) Hnew Hbuf Hn).
    revert Hstep.
    destruct (Z.leb_spec (new_size + new_size) (capacity_ v)); [| done].
    intros ([] & σ' & Hrest & ? & ? & ? & Hsame). exists (), σ'.
    repeat split; try done.
  - (* the first [if] is skipped *)
    rewrite Z.min_l by lia.
    pose proof (Resize_fill_step this v cells new_size h o) as Hstep.
    simpl in Hstep.
    assert (Hrun : ∀ k : unit → M T unit,
      (v0 ← get_obj this;
       when (new_size <=? size_ v0) (upd_obj this (set_size new_size)) ≫= k)
        (State h o) = k () (State h o)).
    { intros k. erewrite bind_run; [| by apply get_obj_run].
      destruct (Z.leb_spec new_size (size_ v)); [lia |].
      by erewrite bind_run; [| reflexivity]. }
    rewrite Hrun. by apply Hstep.
Qed.



End CapacityFacts.

(** ** Constructors and swap *)

Section ConstructorFacts.
Context {T : Type} `{Element T}.
Implicit Types (h : list (option (list T))) (o : list SimpleVector).
Implicit Types (cells : list T) (v : SimpleVector) (σ : state T).

Lemma buffer_new_block h o v new_cells :
  raw_ptr_ (items_ v) = Ptr (Some (length h)) 0 →
  buffer (State (h ++ [Some new_cells]) o) v = Some new_cells.
Proof.
  intros Hp. unfold buffer, block_cells. rewrite Hp. simpl.
  by rewrite lookup_new_block.
Qed.

Lemma same_blocks_grown h o o' (x : option (list T)) b :
  same_blocks_but b (State h o) (State (h ++ [x]) o').
Proof. intros b' _ Hb'. simpl in *. by apply lookup_app_l. Qed.

Lemma same_blocks_refl b σ o' : same_blocks_but b σ (State (heap σ) o').
Proof. by intros b' _ _. Qed.

(** X4. [SimpleVector(size, value)], for a size that [new[]] does not
    refuse outright, creates a valid vector of size and capacity [size]
    whose every slot holds [value] (with no buffer at all for size 0), as
    a new object, and changes nothing that existed. *)
Theorem ctor_fill_makes_copies_of_value size value σ :
  0 ≤ size < SIZE_MOD → allocatable size →
  returns (SV.ctor_fill size value) σ (λ this σ',
    this = length (objs σ) ∧
    ∃ v', objs σ' = objs σ ++ [v'] ∧ valid σ' v' ∧
          size_ v' = size ∧ capacity_ v' = size ∧
          buffer σ' v' = Some (replicate (Z.to_nat size) value) ∧
          same_blocks_but None σ σ').
Proof.
  destruct σ as [h o]. simpl. intros Hsize Halloc.
  unfold returns, SV.ctor_fill.
  destruct (Z.eqb_spec size 0) as [-> | Hpos].
  - erewrite bind_run; [| apply create_zero_run].
    erewrite bind_run; [| apply new_obj_run].
    erewrite bind_run; [| by apply member_run, list_lookup_middle].
    erewrite bind_run; [| reflexivity].
    eexists _, _. split; [reflexivity |]. split; [done |].
    eexists. split; [done |]. repeat split; simpl; try done;
      try (by intros b' _ _); lia.
  - erewrite bind_run; [| by apply create_run].
    erewrite bind_run; [| apply new_obj_run].
    erewrite bind_run; [| by apply member_run, list_lookup_middle].
    unfold std_fill. rewrite range_len_add.
    erewrite bind_run;
      [| apply fill_new_all_run; [by rewrite length_replicate | done]].
    eexists _, _. split; [reflexivity |]. split; [done |].
    eexists. split; [done |].
    split; [| split; [done | split; [done | split]]].
    + repeat split; simpl; try lia.
      unfold extent, block_cells. simpl. rewrite lookup_new_block. simpl.
      by rewrite length_replicate.
    + by apply buffer_new_block.
    + apply same_blocks_grown.
Qed.

(** X5. [SimpleVector(std::initializer_list)] creates a vector whose size
    and capacity are the length of the list and whose slots are the list,
    as a new object, and changes nothing that existed. *)
Theorem ctor_init_holds_the_list (init : list T) σ :
  returns (SV.ctor_init init) σ (λ this σ',
    this = length (objs σ) ∧
    ∃ v', objs σ' = objs σ ++ [v'] ∧
          size_ v' = Z.of_nat (length init) ∧
          capacity_ v' = Z.of_nat (length init) ∧
          buffer σ' v' = Some init ∧
          elements σ' v' = Some init ∧
          same_blocks_but None σ σ').
Proof.
  destruct σ as [h o]. simpl. unfold returns, SV.ctor_init.
  destruct init as [| x init].
  - erewrite bind_run; [| apply create_zero_run].
    erewrite bind_run; [| apply new_obj_run].
    erewrite bind_run; [| by apply member_run, list_lookup_middle].
    erewrite bind_run; [| reflexivity].
    eexists _, _. split; [reflexivity |]. split; [done |].
    eexists. split; [done |]. repeat split; simpl; try done;
      try (by intros b' _ _); lia.
  - set (init' := x :: init).
    erewrite bind_run; [| by apply create_run].
    erewrite bind_run; [| apply new_obj_run].
    erewrite bind_run; [| by apply member_run, list_lookup_middle].
    erewrite bind_run;
      [| eapply (copy_init_new_run _ _ _ _ 0%nat);
         [rewrite length_replicate; lia | done]].
    rewrite (drop_ge (replicate _ _)) by list_len.
    cbn [firstn app Nat.add]. rewrite app_nil_r.
    eexists _, _. split; [reflexivity |]. split; [done |].
    eexists. split; [done |]. split; [done |]. split; [done |].
    split; [by apply buffer_new_block |]. split; [| apply same_blocks_grown].
    unfold elements. rewrite buffer_new_block by done. simpl. f_equal.
    rewrite Nat2Z.id. by apply take_ge.
Qed.

(** X6. Copy-construction from a valid vector creates a new object that
    holds the source's elements in order, in a block of its own with as
    many slots as the source's capacity, and leaves every existing object
    and block, the source's included, as it was.  Its [capacity_] is 0. *)
Theorem ctor_copy_copies_elements other s cells σ :
  objs σ !! other = Some s → valid σ s → buffer σ s = Some cells →
  returns (SV.ctor_copy other) σ (λ this σ',
    this = length (objs σ) ∧
    ∃ v', objs σ' = objs σ ++ [v'] ∧
          size_ v' = size_ s ∧ capacity_ v' = 0 ∧
          buffer σ' v' =
            Some (take (Z.to_nat (size_ s)) cells ++
                  replicate (Z.to_nat (capacity_ s - size_ s)) elem_new) ∧
          elements σ' v' = elements σ s ∧
          (capacity_ s ≠ 0 →
           raw_ptr_ (items_ v') = Ptr (Some (length (heap σ))) 0) ∧
          same_blocks_but None σ σ').
Proof.
  destruct σ as [h o]. simpl. intros Hs Hval Hbuf.
  destruct (valid_holds _ _ _ _ Hval Hbuf) as (Hheld & Hlen & Hsz & Hcap).
  unfold returns, SV.ctor_copy.
  erewrite bind_run; [| by apply get_obj_run].
  assert (Helems : elements (State h o) s = Some (take (Z.to_nat (size_ s)) cells))
    by (unfold elements; by rewrite Hbuf).
  destruct (Z.eqb_spec (capacity_ s) 0) as [Hzero | Hpos].
  - rewrite Hzero.
    erewrite bind_run; [| apply create_zero_run].
    erewrite bind_run; [| apply new_obj_run].
    erewrite bind_run; [| by apply member_run, lookup_app_l_Some].
    erewrite bind_run; [| by apply member_run, lookup_app_l_Some].
    erewrite bind_run; [| by apply member_run, list_lookup_middle].
    unfold std_copy.
    rewrite over_range_forward by (unfold ptr_diff; simpl; lia). cbv beta.
    rewrite range_len_add.
    assert (size_ s = 0) as Hsize by lia. rewrite Hsize.
    erewrite bind_run; [| reflexivity].
    eexists _, _. split; [reflexivity |]. split; [done |].
    eexists. split; [done |].
    assert (cells = []) as -> by (apply length_zero_iff_nil; lia).
    rewrite Helems.
    repeat split; simpl; try done; try (by intros b' _ _).
    by rewrite take_nil.
  - erewrite bind_run; [| by apply create_run].
    erewrite bind_run; [| apply new_obj_run].
    erewrite bind_run; [| by apply member_run, lookup_app_l_Some].
    erewrite bind_run; [| by apply member_run, lookup_app_l_Some].
    erewrite bind_run; [| by apply member_run, list_lookup_middle].
    unfold std_copy.
    rewrite over_range_forward by (unfold ptr_diff; simpl; lia). cbv beta.
    rewrite range_len_add.
    erewrite bind_run;
      [| eapply (copy_out_front_run _ _ _ _ cells);
         [exact Hheld | lia | list_len | by destruct Hheld as [-> _] | done]].
    rewrite drop_replicate.
    replace (Z.to_nat (capacity_ s) - Z.to_nat (size_ s))%nat
      with (Z.to_nat (capacity_ s - size_ s)) by lia.
    eexists _, _. split; [reflexivity |]. split; [done |].
    eexists. split; [done |]. split; [done |]. split; [done |].
    split; [by apply buffer_new_block |].
    split; [| split; [done | apply same_blocks_grown]].
    rewrite Helems. unfold elements. rewrite buffer_new_block by done.
    simpl. f_equal. rewrite take_app_le by list_len.
    apply take_ge. list_len.
Qed.

(** One [swap]: the two entries of the object table change places. *)
Lemma swap_run this other a b h o :
  o !! this = Some a → o !! other = Some b →
  SV.swap this other (State h o)
  = Ok () (State h (<[other := a]> (<[this := b]> o))).
Proof.
  intros Ha Hb.
  assert (Hthis : (this < length o)%nat) by by eapply lookup_lt_Some.
  assert (Hother : (other < length o)%nat) by by eapply lookup_lt_Some.
  unfold SV.swap.
  destruct (decide (this = other)) as [-> | Hne].
  - assert (a = b) as -> by congruence.
    repeat (first
      [ erewrite bind_run; [| apply get_obj_run; first
          [ exact Hb | apply list_lookup_insert_eq; list_len ] ]
      | erewrite bind_run; [| apply upd_obj_run; first
          [ exact Hb | apply list_lookup_insert_eq; list_len ] ]
      | erewrite bind_run; [| apply swap_items_run; first
          [ exact Hb | apply list_lookup_insert_eq; list_len ] ] ]).
    erewrite upd_obj_run; [| apply list_lookup_insert_eq; list_len].
    rewrite !list_insert_insert_eq. by destruct b as [[?] ? ?].
  - erewrite bind_run; [| by apply get_obj_run].
    erewrite bind_run; [| by apply get_obj_run].
    erewrite bind_run; [| by apply upd_obj_run].
    erewrite bind_run;
      [| apply upd_obj_run; by rewrite list_lookup_insert_ne].
    erewrite bind_run;
      [| apply get_obj_run; rewrite list_lookup_insert_ne by done;
         apply list_lookup_insert_eq; list_len].
    erewrite bind_run;
      [| apply get_obj_run; apply list_lookup_insert_eq; list_len].
    erewrite bind_run;
      [| apply upd_obj_run; rewrite list_lookup_insert_ne by done;
         apply list_lookup_insert_eq; list_len].
    erewrite bind_run;
      [| apply upd_obj_run; rewrite list_lookup_insert_ne by done;
         apply list_lookup_insert_eq; list_len].
    erewrite bind_run;
      [| apply get_obj_run; rewrite list_lookup_insert_eq by list_len; done].
    erewrite bind_run;
      [| apply swap_items_run; rewrite list_lookup_insert_ne by done;
         apply list_lookup_insert_eq; list_len].
    erewrite upd_obj_run;
      [| rewrite list_lookup_insert_ne by done;
         apply list_lookup_insert_eq; list_len].
    f_equal. f_equal. destruct a as [[?] ? ?], b as [[?] ? ?]. simpl.
    apply list_eq. intros k.
    destruct (decide (k = other)) as [-> | ?];
      [| destruct (decide (k = this)) as [-> | ?]];
      repeat (first [ rewrite list_lookup_insert_eq by list_len
                    | rewrite list_lookup_insert_ne by done ]); done.
Qed.

(** X7. [swap] exchanges the size, capacity and buffer pointer of the two
    objects and touches no block; two swaps in a row restore the store. *)
Theorem swap_exchanges_and_undoes this other a b σ :
  objs σ !! this = Some a → objs σ !! other = Some b →
  SV.swap this other σ
    = Ok () (State (heap σ) (<[other := a]> (<[this := b]> (objs σ)))) ∧
  (SV.swap this other;; SV.swap this other) σ = Ok () σ.
Proof.
  destruct σ as [h o]. simpl. intros Ha Hb.
  assert (Hthis : (this < length o)%nat) by by eapply lookup_lt_Some.
  assert (Hother : (other < length o)%nat) by by eapply lookup_lt_Some.
  split; [by apply swap_run |].
  erewrite bind_run; [| by apply swap_run].
  destruct (decide (this = other)) as [-> | Hne].
  - assert (a = b) as -> by congruence.
    erewrite swap_run; [| apply list_lookup_insert_eq; list_len ..].
    by rewrite !list_insert_insert_eq, list_insert_id.
  - erewrite swap_run;
      [| rewrite list_lookup_insert_ne by done;
         apply list_lookup_insert_eq; list_len
       | apply list_lookup_insert_eq; list_len].
    rewrite (list_insert_insert_ne _ other this) by done.
    rewrite list_insert_insert_eq.
    rewrite (list_insert_insert_ne _ this other) by done.
    rewrite list_insert_insert_eq.
    by rewrite (list_insert_id _ this), list_insert_id.
Qed.

Lemma insert_last_obj o (x y : SimpleVector) : <[length o := y]> (o ++ [x]) = o ++ [y].
Proof.
  replace (length o) with (length o + 0)%nat by lia. by rewrite insert_app_r.
Qed.

(** The run of the move constructor. *)
Lemma ctor_move_run other s h o :
  o !! other = Some s →
  SV.ctor_move other (State h o)
  = Ok (length o)
       (State (h ++ (if capacity_ s =? 0 then []
                     else [Some (replicate (Z.to_nat (capacity_ s)) elem_new)]))
              (<[other := mkSimpleVector
                   (mkArrayPtr (if capacity_ s =? 0 then nullptr
                                else Ptr (Some (length h)) 0)) 0 0]> o ++ [s])).
Proof.
  intros Hs.
  assert (Hother : (other < length o)%nat) by by eapply lookup_lt_Some.
  unfold SV.ctor_move.
  erewrite bind_run; [| by apply get_obj_run].
  destruct (Z.eqb_spec (capacity_ s) 0) as [Hzero | Hpos].
  - rewrite Hzero.
    erewrite bind_run; [| apply create_zero_run].
    erewrite bind_run; [| apply new_obj_run].
    erewrite bind_run.
    2:{ eapply swap_run;
          [apply list_lookup_middle; done | by apply lookup_app_l_Some]. }
    by rewrite insert_last_obj, insert_app_l, app_nil_r.
  - erewrite bind_run; [| by apply create_run].
    erewrite bind_run; [| apply new_obj_run].
    erewrite bind_run.
    2:{ eapply swap_run;
          [apply list_lookup_middle; done | by apply lookup_app_l_Some]. }
    by rewrite insert_last_obj, insert_app_l.
Qed.

(** X8. The move constructor needs nothing of the source but that it
    exists: the new object is the source as it was, with the same buffer
    pointer, size and capacity, so no element is read or written; the
    source is left with size 0, capacity 0 and a newly created array of
    as many slots as its old capacity (none for capacity 0). *)
Theorem ctor_move_takes_the_buffer other s σ :
  objs σ !! other = Some s →
  let fresh := if capacity_ s =? 0 then nullptr
               else Ptr (Some (length (heap σ))) 0 in
  returns (SV.ctor_move other) σ (λ this σ',
    this = length (objs σ) ∧
    objs σ' = <[other := mkSimpleVector (mkArrayPtr fresh) 0 0]> (objs σ) ++ [s] ∧
    heap σ' = heap σ ++
              (if capacity_ s =? 0 then []
               else [Some (replicate (Z.to_nat (capacity_ s)) elem_new)])).
Proof.
  destruct σ as [h o]. simpl. intros Hs.
  eapply returns_of_run; [by apply ctor_move_run | done].
Qed.

(** X9. [SimpleVector(Reserve(n))], for an [n] that [new[]] does not
    refuse outright, creates a valid empty vector of capacity [n] whose
    slots all hold [Type()] (no buffer for [n = 0]), and changes nothing
    that existed. *)
Theorem ctor_reserve_makes_empty_with_capacity n σ :
  0 ≤ n < SIZE_MOD → allocatable n →
  returns (SV.ctor_reserve (Reserve n)) σ (λ this σ',
    this = length (objs σ) ∧
    ∃ v', objs σ' = objs σ ++ [v'] ∧ valid σ' v' ∧
          size_ v' = 0 ∧ capacity_ v' = n ∧
          buffer σ' v' = Some (replicate (Z.to_nat n) elem_default) ∧
          same_blocks_but None σ σ').
Proof.
  destruct σ as [h o]. simpl. intros Hn Halloc. unfold SV.ctor_reserve.
  set (v0 := mkSimpleVector AP.default 0 0).
  apply returns_bind. eapply returns_of_run; [apply new_obj_run |].
  assert (Hval0 : valid (State h (o ++ [v0])) v0).
  { pose proof SIZE_MOD_value. repeat split; simpl; lia. }
  apply returns_bind. unfold proxy_GetCapacity. simpl.
  destruct (decide (n = 0)) as [-> | Hpos].
  - eapply returns_of_run;
      [eapply (Reserve_keeps _ v0); [by apply list_lookup_middle | done] |].
    apply returns_ret. split; [done |]. exists v0.
    repeat split; simpl; try done; try lia; by intros b' _ _.
  - eapply returns_mono.
    { eapply (Reserve_grows _ v0 [] n); simpl;
        [by apply list_lookup_middle | exact Hval0 | done | lia]. }
    intros [] σ' (v' & (Hobjs & Hp & Hsame & _) & Hval' & Hs' & Hc' & Hbuf').
    apply returns_ret. split; [done |].
    simpl in *. exists v'. rewrite Hobjs, insert_last_obj.
    rewrite Z.sub_0_r in Hbuf'. by rewrite Hs'.
Qed.

End ConstructorFacts.

(** ** PushBack, Erase, PopBack and Insert: the elements *)

Section ElementFacts.
Context {T : Type} `{Element T}.
Implicit Types (h : list (option (list T))) (o : list SimpleVector).
Implicit Types (cells : list T) (v : SimpleVector) (σ : state T).

(** What appending [item] to the valid vector [v] of [σ], whose slots are
    [cells], leaves behind. *)
Lemma PushBack_copy_appends this item v cells σ :
  objs σ !! this = Some v → valid σ v → buffer σ v = Some cells →
  capacity_ v * 2 < SIZE_MOD →
  returns (SV.PushBack_copy this item) σ (appended σ this v cells item).
Proof.
  destruct σ as [h o]. simpl. intros Hv Hval Hbuf Hdbl.
  destruct (valid_holds _ _ _ _ Hval Hbuf) as (Hheld & Hlen & Hsz & Hcap).
  assert (Hthis : (this < length o)%nat) by by eapply lookup_lt_Some.
  pose proof SIZE_MOD_value as Hmod.
  unfold returns, SV.PushBack_copy, appended.
  erewrite bind_run; [| by apply get_obj_run].
  rewrite (wrap_small (size_ v + 1)), (wrap_small (capacity_ v * 2)) by lia.
  destruct (Z.gtb_spec (size_ v + 1) (capacity_ v)) as [Hfull | Hroom];
    cbn [when].
  - set (nc := Z.max (size_ v + 1) (capacity_ v * 2)).
    assert (Hnc : size_ v + 1 ≤ nc ∧ nc < SIZE_MOD) by (unfold nc; lia).
    erewrite bind_run.
    2:{ erewrite bind_run; [| apply create_run; lia].
        unfold std_fill. rewrite range_len_add.
        erewrite bind_run;
          [| apply fill_new_all_run; [by rewrite length_replicate | done]].
        erewrite bind_run; [| by apply member_run].
        unfold std_copy.
        rewrite over_range_forward by (unfold ptr_diff; simpl; lia). cbv beta.
        rewrite range_len_add.
        erewrite bind_run;
          [| eapply (copy_out_front_run _ _ _ _ cells);
             [exact Hheld | lia | list_len | by destruct Hheld as [-> _] | done]].
        erewrite bind_run; [| by apply swap_items_run].
        erewrite bind_run;
          [| apply upd_obj_run, list_lookup_insert_eq; by eapply lookup_lt_Some].
        by eapply destroy_held_run. }
    rewrite list_insert_insert_eq.
    erewrite bind_run; [| by apply get_obj_run, list_lookup_insert_eq].
    erewrite bind_run;
      [| eapply (store_last_run _ _ _ (Z.to_nat (size_ v)));
         [by rewrite retire_length | list_len | simpl; lia]].
    erewrite upd_obj_run; [| by apply list_lookup_insert_eq].
    rewrite list_insert_insert_eq. rewrite wrap_small by (simpl; lia).
    eexists _, _. split; [reflexivity |].
    set (v' := set_size _ _).
    edestruct (rehoused_intro h o this v v') as (Hre & Hv' & Hbuf' & Hval');
      [done | done | intros b Hb; by eapply holds_lt |].
    destruct Hre as (Hobjs & Hp & Hsame & Hfreed).
    exists v'. split; [done |]. split; [| split; [done | split]].
    + apply Hval'; simpl; [list_len | lia | lia].
    + unfold elements. rewrite Hbuf'. simpl. f_equal.
      replace (Z.to_nat (size_ v + 1)) with (S (Z.to_nat (size_ v))) by lia.
      rewrite take_succ_insert by list_len.
      by rewrite take_app_le, take_take, Nat.min_id by list_len.
    + split; [done |]. intros ?. lia.
  - erewrite bind_run; [| reflexivity].
    erewrite bind_run; [| by apply get_obj_run].
    destruct Hheld as [Hoff Hblk].
    destruct v as [[[bo z]] sz cap]. simpl in *. subst z.
    destruct bo as [b|]; [| subst cells; simpl in Hlen; lia].
    erewrite bind_run;
      [| eapply (store_run _ _ _ cells (Z.to_nat sz)); [done | lia | simpl; lia]].
    erewrite upd_obj_run; [| done]. rewrite wrap_small by lia.
    eexists _, _. split; [reflexivity |]. simpl.
    eexists. split; [done |].
    assert (b < length h)%nat by by eapply lookup_lt_Some.
    split; [| split; [done | split; [| split]]].
    + repeat split; simpl; try lia.
      unfold extent, block_cells. simpl.
      rewrite list_lookup_insert_eq by done. simpl.
      by rewrite length_insert, Hlen.
    + unfold elements, buffer, block_cells. simpl.
      rewrite list_lookup_insert_eq by done. simpl. f_equal.
      replace (Z.to_nat (sz + 1)) with (S (Z.to_nat sz)) by lia.
      apply take_succ_insert. lia.
    + intros b' Hne _. simpl. apply list_lookup_insert_ne. congruence.
    + done.
Qed.

Lemma PushBack_move_appends this item v cells σ :
  objs σ !! this = Some v → valid σ v → buffer σ v = Some cells →
  capacity_ v * 2 < SIZE_MOD →
  returns (SV.PushBack_move this item) σ (appended σ this v cells item).
Proof.
  destruct σ as [h o]. simpl. intros Hv Hval Hbuf Hdbl.
  destruct (valid_holds _ _ _ _ Hval Hbuf) as (Hheld & Hlen & Hsz & Hcap).
  assert (Hthis : (this < length o)%nat) by by eapply lookup_lt_Some.
  pose proof SIZE_MOD_value as Hmod.
  unfold returns, SV.PushBack_move, appended.
  erewrite bind_run; [| by apply get_obj_run].
  rewrite (wrap_small (size_ v + 1)), (wrap_small (capacity_ v * 2)) by lia.
  destruct (Z.gtb_spec (size_ v + 1) (capacity_ v)) as [Hfull | Hroom];
    cbn [when].
  - set (nc := Z.max (size_ v + 1) (capacity_ v * 2)).
    assert (Hnc : size_ v + 1 ≤ nc ∧ nc < SIZE_MOD) by (unfold nc; lia).
    erewrite bind_run.
    2:{ erewrite bind_run; [| apply create_run; lia].
        erewrite bind_run; [| by apply member_run].
        unfold std_move.
        rewrite over_range_forward by (unfold ptr_diff; simpl; lia). cbv beta.
        rewrite range_len_add.
        erewrite bind_run;
          [| eapply (move_out_front_run _ _ _ _ cells);
             [exact Hheld | lia | list_len | by destruct Hheld as [-> _] | done]].
        erewrite bind_run; [| by apply swap_items_run].
        erewrite bind_run;
          [| apply upd_obj_run, list_lookup_insert_eq; by eapply lookup_lt_Some].
        eapply destroy_held_run. by apply holds_moved_out. }
    rewrite retire_moved_out, list_insert_insert_eq.
    erewrite bind_run; [| by apply get_obj_run, list_lookup_insert_eq].
    erewrite bind_run;
      [| eapply (store_last_run _ _ _ (Z.to_nat (size_ v)));
         [by rewrite retire_length | list_len | simpl; lia]].
    erewrite upd_obj_run; [| by apply list_lookup_insert_eq].
    rewrite list_insert_insert_eq. rewrite wrap_small by (simpl; lia).
    eexists _, _. split; [reflexivity |].
    set (v' := set_size _ _).
    edestruct (rehoused_intro h o this v v') as (Hre & Hv' & Hbuf' & Hval');
      [done | done | intros b Hb; by eapply holds_lt |].
    destruct Hre as (Hobjs & Hp & Hsame & Hfreed).
    exists v'. split; [done |]. split; [| split; [done | split]].
    + apply Hval'; simpl; [list_len | lia | lia].
    + unfold elements. rewrite Hbuf'. simpl. f_equal.
      replace (Z.to_nat (size_ v + 1)) with (S (Z.to_nat (size_ v))) by lia.
      rewrite take_succ_insert by list_len.
      by rewrite take_app_le, take_take, Nat.min_id by list_len.
    + split; [done |]. intros ?. lia.
  - erewrite bind_run; [| reflexivity].
    erewrite bind_run; [| by apply get_obj_run].
    destruct Hheld as [Hoff Hblk].
    destruct v as [[[bo z]] sz cap]. simpl in *. subst z.
    destruct bo as [b|]; [| subst cells; simpl in Hlen; lia].
    erewrite bind_run;
      [| eapply (store_run _ _ _ cells (Z.to_nat sz)); [done | lia | simpl; lia]].
    erewrite upd_obj_run; [| done]. rewrite wrap_small by lia.
    eexists _, _. split; [reflexivity |]. simpl.
    eexists. split; [done |].
    assert (b < length h)%nat by by eapply lookup_lt_Some.
    split; [| split; [done | split; [| split]]].
    + repeat split; simpl; try lia.
      unfold extent, block_cells. simpl.
      rewrite list_lookup_insert_eq by done. simpl.
      by rewrite length_insert, Hlen.
    + unfold elements, buffer, block_cells. simpl.
      rewrite list_lookup_insert_eq by done. simpl. f_equal.
      replace (Z.to_nat (sz + 1)) with (S (Z.to_nat sz)) by lia.
      apply take_succ_insert. lia.
    + intros b' Hne _. simpl. apply list_lookup_insert_ne. congruence.
    + done.
Qed.

(** X10. [PushBack], by copy or by move, on a valid vector (capacity below
    2^63): the vector is valid again and one longer, its elements are the
    old ones followed by the item, no other object and no block but the
    vector's old buffer has changed, and when there was room the vector
    keeps its buffer, so that iterators into it stay usable. *)
Theorem PushBack_appends ov this item v cells σ :
  objs σ !! this = Some v → valid σ v → buffer σ v = Some cells →
  capacity_ v * 2 < SIZE_MOD →
  returns (PushBack ov this item) σ (λ _ σ',
    ∃ v', objs σ' = <[this := v']> (objs σ) ∧ valid σ' v' ∧
          size_ v' = size_ v + 1 ∧
          elements σ' v' = Some (take (Z.to_nat (size_ v)) cells ++ [item]) ∧
          same_blocks_but (base (raw_ptr_ (items_ v))) σ σ' ∧
          (size_ v < capacity_ v → items_ v' = items_ v)).
Proof.
  intros Hv Hval Hbuf Hdbl.
  destruct ov; [by apply PushBack_copy_appends | by apply PushBack_move_appends].
Qed.

Lemma returns_and {A} (m : M T A) σ (P Q : A → state T → Prop) :
  returns m σ P → returns m σ Q → returns m σ (λ a σ', P a σ' ∧ Q a σ').
Proof.
  intros (a & σ1 & Hm & HP) (a' & σ2 & Hm' & HQ).
  rewrite Hm in Hm'. injection Hm' as <- <-. by exists a, σ1.
Qed.

Lemma valid_has_buffer σ v : valid σ v → ∃ cells, buffer σ v = Some cells.
Proof.
  intros (_ & _ & _ & Hblk). unfold buffer.
  destruct (base (raw_ptr_ (items_ v))) as [b|]; [| by eexists].
  unfold extent in Hblk. destruct (block_cells σ b); [by eexists | done].
Qed.

(** A run of appends to a valid vector adds the items in order. *)
Lemma push_all_appends l : ∀ this v xs σ B,
  objs σ !! this = Some v → valid σ v → elements σ v = Some xs →
  capacity_ v ≤ B → 2 * (size_ v + Z.of_nat (length l)) ≤ B →
  B * 2 < SIZE_MOD →
  returns (push_all this l) σ (λ _ σ',
    ∃ v', objs σ' = <[this := v']> (objs σ) ∧ valid σ' v' ∧
          size_ v' = size_ v + Z.of_nat (length l) ∧
          elements σ' v' = Some (xs ++ l.*2)).
Proof.
  induction l as [| [ov x] l IH]; intros this v xs σ B Hv Hval Hxs HcB HlB HB.
  - apply returns_ret. exists v.
    rewrite list_insert_id by done. rewrite app_nil_r, Z.add_0_r. done.
  - simpl push_all. simpl length in HlB.
    destruct (valid_has_buffer _ _ Hval) as [cells Hbuf].
    assert (xs = take (Z.to_nat (size_ v)) cells) as ->.
    { unfold elements in Hxs. rewrite Hbuf in Hxs. by injection Hxs as <-. }
    apply returns_bind.
    eapply returns_mono.
    { apply returns_and;
        [apply (PushBack_pushed ov this x v); [done | done | lia]
        | destruct ov;
            [apply (PushBack_copy_appends this x v cells)
            | apply (PushBack_move_appends this x v cells)];
            (done || lia)]. }
    intros [] σ1 [(v1 & Hv1 & _ & _ & Hc1 & _)
                  (v1' & Hobjs1 & Hval1 & Hs1 & Hel1 & _)].
    assert (Hthis : (this < length (objs σ))%nat) by by eapply lookup_lt_Some.
    assert (v1' = v1) as ->.
    { rewrite Hobjs1, list_lookup_insert_eq in Hv1 by done. congruence. }
    apply returns_bind, (returns_member this _ v1); [done |].
    apply returns_bind, (returns_member this _ v1); [done |].
    apply returns_bind.
    assert (Hc1B : capacity_ v1 ≤ B).
    { rewrite Hc1. destruct Hval as (? & _).
      destruct (Z.gtb_spec (size_ v + 1) (capacity_ v));
        unfold grown_capacity; lia. }
    eapply returns_mono;
      [apply (IH this v1 (take (Z.to_nat (size_ v)) cells ++ [x]) σ1 B);
         try done; lia |].
    intros t σ2 (v2 & Hobjs2 & Hval2 & Hs2 & Hel2). apply returns_ret.
    exists v2. rewrite Hobjs2, Hobjs1, list_insert_insert_eq.
    split; [done |]. split; [done |]. split; [simpl length; lia |].
    rewrite Hel2. simpl. by rewrite <- app_assoc.
Qed.

(** X11. Any [N < 2^62] appends, by copy or by move in any mix, to a newly
    default-constructed vector leave a valid vector of size [N] whose
    elements are the appended items in order; the objects that existed
    are unchanged. *)
Theorem push_all_collects_items (l : list (overload * T)) σ :
  Z.of_nat (length l) < 2 ^ 62 →
  returns (w ← SV.ctor_default; push_all w l;; mret w) σ (λ this σ',
    this = length (objs σ) ∧
    ∃ v', objs σ' = objs σ ++ [v'] ∧ valid σ' v' ∧
          size_ v' = Z.of_nat (length l) ∧
          elements σ' v' = Some (l.*2)).
Proof.
  destruct σ as [h o]. simpl. intros Hlen. pose proof SIZE_MOD_value as Hmod.
  set (v0 := mkSimpleVector AP.default 0 0).
  apply returns_bind. eapply returns_of_run; [apply new_obj_run |].
  apply returns_bind. eapply returns_mono.
  { apply (push_all_appends l (length o) v0 [] _ (2 ^ 63 - 1)); simpl.
    - by apply list_lookup_middle.
    - repeat split; simpl; lia.
    - done.
    - lia.
    - lia.
    - lia. }
  intros t σ' (v' & Hobjs & Hval & Hsize & Helems). apply returns_ret.
  split; [done |]. exists v'. simpl in *.
  by rewrite Hobjs, insert_last_obj.
Qed.

(** [Erase] at slot [i], for [i] up to [size_], and for a class type
    also at [size_] itself: the new buffer holds the slots before [i],
    then those after [i] up to the size, then new slots. *)
Lemma Erase_buffer this v cells (i : nat) σ :
  objs σ !! this = Some v → valid σ v → buffer σ v = Some cells →
  1 ≤ size_ v → Z.of_nat i ≤ size_ v →
  (Z.of_nat i = size_ v → elem_trivial (T:=T) = false) →
  let rest := (Z.to_nat (size_ v) - i - 1)%nat in
  returns (SV.Erase this (AP.Get (items_ v) +ₚ Z.of_nat i)) σ (λ r σ',
    ∃ v', rehoused σ this v v' σ' ∧ valid σ' v' ∧
          size_ v' = size_ v - 1 ∧ capacity_ v' = capacity_ v ∧
          r = AP.Get (items_ v') +ₚ Z.of_nat i ∧
          buffer σ' v' =
            Some (take i cells ++ take rest (drop (S i) cells) ++
                  replicate (Z.to_nat (capacity_ v) - (i + rest)) elem_new)).
Proof.
  destruct σ as [h o]. simpl. intros Hv Hval Hbuf Hone Hi Hclass.
  destruct (valid_holds _ _ _ _ Hval Hbuf) as (Hheld & Hlen & Hsz & Hcap).
  assert (Hthis : (this < length o)%nat) by by eapply lookup_lt_Some.
  pose proof SIZE_MOD_value as Hmod.
  pose proof Hheld as [Hoff _].
  unfold returns, SV.Erase, SV.cbegin.
  erewrite bind_run; [| by apply member_run].
  assert (Hindex : wrap (ptr_diff (AP.Get (items_ v) +ₚ Z.of_nat i)
                                  (AP.Get (items_ v))) = Z.of_nat i).
  { unfold ptr_diff. simpl. rewrite wrap_small; lia. }
  rewrite Hindex.
  erewrite bind_run; [| by apply get_obj_run].
  erewrite bind_run; [| apply create_run; lia].
  erewrite bind_run; [| by apply member_run].
  set (rest := (Z.to_nat (size_ v) - i - 1)%nat).
  assert (Hrest : range_len (AP.Get (items_ v) +ₚ Z.of_nat i +ₚ 1)
                            (AP.Get (items_ v) +ₚ size_ v) = rest).
  { unfold range_len, ptr_diff, rest. simpl. lia. }
  assert (Hwalk : ∀ walk : nat → M T ptr,
    over_range (AP.Get (items_ v) +ₚ Z.of_nat i +ₚ 1)
               (AP.Get (items_ v) +ₚ size_ v) walk = walk rest).
  { intros walk. rewrite <- Hrest.
    destruct (decide (Z.of_nat i = size_ v)) as [Hend | Hin].
    - by apply over_range_class, Hclass.
    - apply over_range_forward. unfold ptr_diff. simpl. lia. }
  unfold std_move.
  rewrite over_range_add by lia. rewrite Hwalk. cbv beta.
  rewrite Nat2Z.id.
  erewrite bind_run;
    [| eapply (move_out_front_run _ _ _ _ cells);
       [exact Hheld | lia | list_len | simpl; lia | done]].
  destruct (decide (rest = 0%nat)) as [Hzero | Hpos].
  - (* nothing after slot [i] within the size *)
    rewrite Hzero.
    erewrite bind_run; [| reflexivity].
    erewrite bind_run; [| by apply swap_items_run].
    erewrite bind_run;
      [| apply upd_obj_run, list_lookup_insert_eq; by eapply lookup_lt_Some].
    erewrite bind_run; [| by apply get_obj_run, list_lookup_insert_eq; list_len].
    erewrite bind_run;
      [| eapply destroy_held_run; by apply holds_moved_out].
    rewrite retire_moved_out, list_insert_insert_eq.
    rewrite wrap_small by lia. rewrite drop_replicate.
    eexists _, _. split; [reflexivity |].
    set (v' := set_size (size_ v - 1) _).
    edestruct (rehoused_intro h o this v v') as (Hre & Hv' & Hbuf' & Hval');
      [done | done | intros b Hb; by eapply holds_lt |].
    exists v'. split; [exact Hre |].
    rewrite Nat.add_0_r, take_0, app_nil_l.
    split; [| done].
    apply Hval'; simpl; [list_len | lia | lia].
  - erewrite bind_run.
    2:{ eapply (move_out_at _ _ _ (raw_ptr_ (items_ v)) (moved_from 0 i cells)
                  _ (S i) i);
          [by rewrite moved_out_length | by apply holds_moved_out
          | rewrite moved_from_length by lia; unfold rest in *; lia
          | unfold rest; list_len | simpl; lia | simpl; lia]. }
    erewrite bind_run; [| by apply swap_items_run].
    erewrite bind_run;
      [| apply upd_obj_run, list_lookup_insert_eq; by eapply lookup_lt_Some].
    erewrite bind_run; [| by apply get_obj_run, list_lookup_insert_eq; list_len].
    erewrite bind_run;
      [| eapply destroy_held_run; by apply holds_moved_out, holds_moved_out].
    rewrite retire_moved_out_twice, list_insert_insert_eq.
    rewrite wrap_small by lia.
    rewrite (drop_moved_from 0 i (S i)) by lia.
    rewrite take_app_le, take_take, Nat.min_id by list_len.
    rewrite drop_app_ge, drop_drop, drop_replicate by list_len.
    rewrite length_take_le by lia.
    replace (i + rest - i)%nat with rest by lia.
    eexists _, _. split; [reflexivity |].
    set (v' := set_size (size_ v - 1) _).
    edestruct (rehoused_intro h o this v v') as (Hre & Hv' & Hbuf' & Hval');
      [done | done | intros b Hb; by eapply holds_lt |].
    exists v'. split; [exact Hre |].
    split; [| done].
    apply Hval'; simpl; [unfold rest in *; list_len | lia | lia].
Qed.


(** What [Erase] leaves behind, in terms of the elements. *)
Lemma Erase_removes_element_spec this v xs (i : nat) σ :
  objs σ !! this = Some v → valid σ v → elements σ v = Some xs →
  Z.of_nat i < size_ v →
  returns (SV.Erase this (AP.Get (items_ v) +ₚ Z.of_nat i)) σ (λ r σ',
    ∃ v', rehoused σ this v v' σ' ∧ valid σ' v' ∧
          size_ v' = size_ v - 1 ∧ capacity_ v' = capacity_ v ∧
          r = AP.Get (items_ v') +ₚ Z.of_nat i ∧
          elements σ' v' = Some (delete i xs)).
Proof.
  intros Hv Hval Hxs Hi.
  destruct (valid_has_buffer _ _ Hval) as [cells Hbuf].
  assert (xs = take (Z.to_nat (size_ v)) cells) as ->.
  { unfold elements in Hxs. rewrite Hbuf in Hxs. by injection Hxs as <-. }
  destruct σ as [h o].
  destruct (valid_holds _ _ _ _ Hval Hbuf) as (_ & Hlen & Hsz & Hcap).
  eapply returns_mono;
    [apply (Erase_buffer this v cells i);
       [done | done | done | lia | lia | intros; lia] |].
  intros r σ' (v' & Hre & Hval' & Hsize & Hcap' & Hr & Hbuf').
  exists v'. repeat (split; [done |]).
  unfold elements. rewrite Hbuf', Hsize. simpl. f_equal.
  set (rest := (Z.to_nat (size_ v) - i - 1)%nat).
  assert (Hdrop : drop (S i) (take (Z.to_nat (size_ v)) cells)
                  = take rest (drop (S i) cells)).
  { rewrite take_drop_commute. do 2 f_equal. unfold rest. lia. }
  rewrite delete_take_drop, take_take, Hdrop.
  replace (i `min` Z.to_nat (size_ v))%nat with i by lia.
  rewrite app_assoc, take_app_le by (unfold rest; list_len).
  apply take_ge. unfold rest. list_len.
Qed.

(** X12. [Erase] of the element at index [i < size_] of a valid vector:
    the elements are the old ones without the [i]-th, the size is one
    less, the capacity is kept, and the result is the iterator to index
    [i] of the vector as it is afterwards.  The elements always move to a
    newly allocated buffer and the old one is deleted, so every iterator
    taken before the call dangles. *)
Theorem Erase_removes_element this v xs (i : nat) σ :
  objs σ !! this = Some v → valid σ v → elements σ v = Some xs →
  Z.of_nat i < size_ v →
  returns (SV.Erase this (AP.Get (items_ v) +ₚ Z.of_nat i)) σ (λ r σ',
    ∃ v', rehoused σ this v v' σ' ∧ valid σ' v' ∧
          size_ v' = size_ v - 1 ∧ capacity_ v' = capacity_ v ∧
          r = AP.Get (items_ v') +ₚ Z.of_nat i ∧
          elements σ' v' = Some (delete i xs)).
Proof. apply Erase_removes_element_spec. Qed.

(** What [PopBack] leaves behind for a class type. *)
Lemma PopBack_drops_last_spec this v cells σ :
  objs σ !! this = Some v → valid σ v → buffer σ v = Some cells →
  1 ≤ size_ v → elem_trivial (T:=T) = false →
  returns (SV.PopBack this) σ (λ _ σ',
    ∃ v' cells', rehoused σ this v v' σ' ∧ valid σ' v' ∧
          size_ v' = size_ v - 1 ∧ capacity_ v' = capacity_ v ∧
          buffer σ' v' = Some cells' ∧
          take (Z.to_nat (size_ v)) cells' = take (Z.to_nat (size_ v)) cells ∧
          elements σ' v' = Some (take (Z.to_nat (size_ v) - 1) cells)).
Proof.
  intros Hv Hval Hbuf Hone Hclass.
  destruct σ as [h o].
  destruct (valid_holds _ _ _ _ Hval Hbuf) as (Hheld & Hlen & Hsz & Hcap).
  pose proof Hheld as [Hoff Hblk].
  assert (Hbool : AP.to_bool (items_ v) = true).
  { unfold AP.to_bool, ptr_eqb. destruct (raw_ptr_ (items_ v)) as [[b|] z]; simpl in *.
    - done.
    - subst cells. simpl in Hlen. lia. }
  unfold SV.PopBack.
  apply returns_bind, (returns_get_obj this v); [done |].
  rewrite Hbool. apply returns_bind, returns_ret.
  apply returns_bind, (returns_member this _ v); [done |].
  apply returns_bind.
  assert (Hend : AP.Get (items_ v) +ₚ size_ v =
                 AP.Get (items_ v) +ₚ Z.of_nat (Z.to_nat (size_ v))).
  { by rewrite Z2Nat.id by lia. }
  rewrite Hend.
  eapply returns_mono;
    [apply (Erase_buffer this v cells (Z.to_nat (size_ v)));
       [done | done | done | done | lia | done] |].
  intros r σ' (v' & Hre & Hval' & Hsize & Hcap' & Hr & Hbuf').
  apply returns_ret.
  replace (Z.to_nat (size_ v) - Z.to_nat (size_ v) - 1)%nat with 0%nat in Hbuf'
    by lia.
  rewrite take_0, app_nil_l in Hbuf'.
  exists v'. eexists.
  repeat (split; [done |]).
  split; [by rewrite take_app_le, take_take, Nat.min_id by list_len |].
  unfold elements. rewrite Hbuf', Hsize. simpl. f_equal.
  rewrite take_app_le, take_take by list_len.
  f_equal. lia.
Qed.

(** [PopBack] on a vector of a trivially copyable type: the reversed
    range that [Erase(end())] gives to [std::move] is undefined
    behaviour. *)
Lemma PopBack_trivial_undefined this v cells σ :
  objs σ !! this = Some v → valid σ v → buffer σ v = Some cells →
  1 ≤ size_ v → elem_trivial (T:=T) = true →
  SV.PopBack this σ =
    Undefined (BadRange (AP.Get (items_ v) +ₚ size_ v +ₚ 1)
                        (AP.Get (items_ v) +ₚ size_ v)).
Proof.
  destruct σ as [h o]. simpl. intros Hv Hval Hbuf Hone Htriv.
  destruct (valid_holds _ _ _ _ Hval Hbuf) as (Hheld & Hlen & Hsz & Hcap).
  pose proof SIZE_MOD_value as Hmod.
  pose proof Hheld as [Hoff Hblk].
  assert (Hbool : AP.to_bool (items_ v) = true).
  { unfold AP.to_bool, ptr_eqb. destruct (raw_ptr_ (items_ v)) as [[b|] z]; simpl in *.
    - done.
    - subst cells. simpl in Hlen. lia. }
  unfold SV.PopBack.
  erewrite bind_run; [| by apply get_obj_run].
  rewrite Hbool. erewrite bind_run; [| reflexivity].
  unfold SV.end_. erewrite bind_run; [| by apply member_run].
  apply bind_undefined.
  unfold SV.Erase, SV.cbegin, SV.begin.
  erewrite bind_run; [| by apply member_run].
  assert (Hindex : wrap (ptr_diff (AP.Get (items_ v) +ₚ size_ v)
                                  (AP.Get (items_ v))) = size_ v).
  { unfold ptr_diff. simpl. rewrite wrap_small; lia. }
  rewrite Hindex.
  erewrite bind_run; [| by apply get_obj_run].
  erewrite bind_run; [| apply create_run; lia].
  erewrite bind_run; [| by apply member_run].
  unfold std_move.
  rewrite over_range_add by lia.
  erewrite bind_run;
    [| eapply (move_out_front_run _ _ _ _ cells);
       [exact Hheld | lia | list_len | simpl; lia | done]].
  apply bind_undefined, over_range_reversed; [done |].
  unfold ptr_diff. simpl. lia.
Qed.

(** X13. [PopBack] on a valid non-empty vector runs [Erase(end())], whose
    second [std::move] is given a range that ends one slot before it
    starts.  For a trivially copyable [Type] (such as [int]) the call is
    undefined behaviour at that point and does not return.  For a class
    type (such as [X]) the range is not walked and the call returns: the
    size is one less, the capacity is kept, and the elements are the old
    ones without the last; the vector moves to a newly allocated buffer
    (the old one is deleted), into which all old elements are moved, the
    last one included, so that the popped value sits in the slot at
    [end()] of the vector afterwards. *)
Theorem PopBack_drops_last this v cells σ :
  objs σ !! this = Some v → valid σ v → buffer σ v = Some cells →
  1 ≤ size_ v →
  if elem_trivial (T:=T) then
    SV.PopBack this σ =
      Undefined (BadRange (AP.Get (items_ v) +ₚ size_ v +ₚ 1)
                          (AP.Get (items_ v) +ₚ size_ v))
  else
    returns (SV.PopBack this) σ (λ _ σ',
      ∃ v' cells', rehoused σ this v v' σ' ∧ valid σ' v' ∧
            size_ v' = size_ v - 1 ∧ capacity_ v' = capacity_ v ∧
            buffer σ' v' = Some cells' ∧
            take (Z.to_nat (size_ v)) cells' = take (Z.to_nat (size_ v)) cells ∧
            elements σ' v' = Some (take (Z.to_nat (size_ v) - 1) cells)).
Proof.
  intros Hv Hval Hbuf Hone.
  destruct (elem_trivial (T:=T)) eqn:Htriv.
  - by apply (PopBack_trivial_undefined this v cells).
  - by apply PopBack_drops_last_spec.
Qed.

End ElementFacts.

(** ** The growth policy of [PushBack] *)

Section GrowthPolicy.
Context {T : Type} `{Element T}.
Implicit Types (h : list (option (list T))) (o : list SimpleVector).
Implicit Types (cells : list T) (v : SimpleVector) (σ : state T).

Lemma valid_has_elements σ v : valid σ v → has_elements σ v.
Proof.
  intros ([Hs Hsc] & Hcap & Hoff & Hblk). unfold has_elements.
  split; [done |]. split; [lia |]. split; [done |].
  destruct (base (raw_ptr_ (items_ v))); [| lia].
  eexists. split; [done |]. lia.
Qed.

Lemma has_elements_holds h o v :
  has_elements (State h o) v →
  ∃ cells, holds h (raw_ptr_ (items_ v)) cells ∧
           size_ v ≤ Z.of_nat (length cells).
Proof.
  intros (Hs & Hc & Hoff & Hblk). unfold holds.
  destruct (base (raw_ptr_ (items_ v))) as [b|].
  - destruct Hblk as (n & Hext & Hn). unfold extent, block_cells in Hext.
    simpl in Hext. destruct (h !! b) as [[cells|]|]; simpl in Hext; try done.
    injection Hext as <-. by exists cells.
  - exists []. simpl. split; [done | lia].
Qed.

(** [PushBack(const Type&)] when it has to grow. *)
Lemma PushBack_copy_grows this item v σ :
  objs σ !! this = Some v → has_elements σ v →
  size_ v + 1 < SIZE_MOD → capacity_ v * 2 < SIZE_MOD →
  size_ v + 1 > capacity_ v →
  returns (SV.PushBack_copy this item) σ (λ _ σ',
    ∃ v', objs σ' !! this = Some v' ∧ valid σ' v' ∧
          capacity_ v' = Z.max (size_ v + 1) (capacity_ v * 2) ∧
          size_ v' = size_ v + 1).
Proof.
  destruct σ as [h o]. simpl. intros Hv Hhas Hsmod Hdbl Hfull.
  destruct (has_elements_holds _ _ _ Hhas) as (cells & Hheld & Hlen).
  destruct Hhas as (Hs & Hc & _).
  assert (Hthis : (this < length o)%nat) by by eapply lookup_lt_Some.
  pose proof SIZE_MOD_value as Hmod.
  unfold returns, SV.PushBack_copy.
  erewrite bind_run; [| by apply get_obj_run].
  rewrite (wrap_small (size_ v + 1)), (wrap_small (capacity_ v * 2)) by lia.
  destruct (Z.gtb_spec (size_ v + 1) (capacity_ v)) as [_ | Hroom]; [| lia].
  cbn [when].
  set (nc := Z.max (size_ v + 1) (capacity_ v * 2)).
  assert (Hnc : size_ v + 1 ≤ nc ∧ nc < SIZE_MOD) by (unfold nc; lia).
  erewrite bind_run.
  2:{ erewrite bind_run; [| apply create_run; lia].
      unfold std_fill. rewrite range_len_add.
      erewrite bind_run;
        [| apply fill_new_all_run; [by rewrite length_replicate | done]].
      erewrite bind_run; [| by apply member_run].
      unfold std_copy.
      rewrite over_range_forward by (unfold ptr_diff; simpl; lia). cbv beta.
      rewrite range_len_add.
      erewrite bind_run;
        [| eapply (copy_out_front_run _ _ _ _ cells);
           [exact Hheld | lia | list_len | by destruct Hheld as [-> _] | done]].
      erewrite bind_run; [| by apply swap_items_run].
      erewrite bind_run;
        [| apply upd_obj_run, list_lookup_insert_eq; by eapply lookup_lt_Some].
      by eapply destroy_held_run. }
  rewrite list_insert_insert_eq.
  erewrite bind_run; [| by apply get_obj_run, list_lookup_insert_eq].
  erewrite bind_run;
    [| eapply (store_last_run _ _ _ (Z.to_nat (size_ v)));
       [by rewrite retire_length | list_len | simpl; lia]].
  erewrite upd_obj_run; [| by apply list_lookup_insert_eq].
  rewrite list_insert_insert_eq. rewrite wrap_small by (simpl; lia).
  eexists _, _. split; [reflexivity |].
  set (v' := set_size _ _).
  edestruct (rehoused_intro h o this v v') as (Hre & Hv' & Hbuf' & Hval');
    [done | done | intros b Hb; by eapply holds_lt |].
  exists v'. split; [done |]. split; [| done].
  apply Hval'; simpl; [list_len | lia | lia].
Qed.

(** [PushBack(Type&&)] when it has to grow. *)
Lemma PushBack_move_grows this item v σ :
  objs σ !! this = Some v → has_elements σ v →
  size_ v + 1 < SIZE_MOD → capacity_ v * 2 < SIZE_MOD →
  size_ v + 1 > capacity_ v →
  returns (SV.PushBack_move this item) σ (λ _ σ',
    ∃ v', objs σ' !! this = Some v' ∧ valid σ' v' ∧
          capacity_ v' = Z.max (size_ v + 1) (capacity_ v * 2) ∧
          size_ v' = size_ v + 1).
Proof.
  destruct σ as [h o]. simpl. intros Hv Hhas Hsmod Hdbl Hfull.
  destruct (has_elements_holds _ _ _ Hhas) as (cells & Hheld & Hlen).
  destruct Hhas as (Hs & Hc & _).
  assert (Hthis : (this < length o)%nat) by by eapply lookup_lt_Some.
  pose proof SIZE_MOD_value as Hmod.
  unfold returns, SV.PushBack_move.
  erewrite bind_run; [| by apply get_obj_run].
  rewrite (wrap_small (size_ v + 1)), (wrap_small (capacity_ v * 2)) by lia.
  destruct (Z.gtb_spec (size_ v + 1) (capacity_ v)) as [_ | Hroom]; [| lia].
  cbn [when].
  set (nc := Z.max (size_ v + 1) (capacity_ v * 2)).
  assert (Hnc : size_ v + 1 ≤ nc ∧ nc < SIZE_MOD) by (unfold nc; lia).
  erewrite bind_run.
  2:{ erewrite bind_run; [| apply create_run; lia].
      erewrite bind_run; [| by apply member_run].
      unfold std_move.
      rewrite over_range_forward by (unfold ptr_diff; simpl; lia). cbv beta.
      rewrite range_len_add.
      erewrite bind_run;
        [| eapply (move_out_front_run _ _ _ _ cells);
           [exact Hheld | lia | list_len | by destruct Hheld as [-> _] | done]].
      erewrite bind_run; [| by apply swap_items_run].
      erewrite bind_run;
        [| apply upd_obj_run, list_lookup_insert_eq; by eapply lookup_lt_Some].
      eapply destroy_held_run. by apply holds_moved_out. }
  rewrite retire_moved_out, list_insert_insert_eq.
  erewrite bind_run; [| by apply get_obj_run, list_lookup_insert_eq].
  erewrite bind_run;
    [| eapply (store_last_run _ _ _ (Z.to_nat (size_ v)));
       [by rewrite retire_length | list_len | simpl; lia]].
  erewrite upd_obj_run; [| by apply list_lookup_insert_eq].
  rewrite list_insert_insert_eq. rewrite wrap_small by (simpl; lia).
  eexists _, _. split; [reflexivity |].
  set (v' := set_size _ _).
  edestruct (rehoused_intro h o this v v') as (Hre & Hv' & Hbuf' & Hval');
    [done | done | intros b Hb; by eapply holds_lt |].
  exists v'. split; [done |]. split; [| done].
  apply Hval'; simpl; [list_len | lia | lia].
Qed.

(** C7. Whenever [PushBack] (either overload) finds [size_ + 1 >
    capacity_], in a valid vector or in any other whose buffer holds its
    [size_] elements (a copy-constructed one, say, with its [capacity_]
    of 0), the call returns, the capacity afterwards is
    [max(size_ + 1, capacity_ * 2)], which is 1 for an empty vector of
    capacity 0, the size is one more, and the vector is valid, so the
    size is within the capacity.  And, in any store, [N] appends to a
    newly default-constructed vector return with the sizes 1, 2, ..., N
    observed in turn, each at most the capacity observed with it.  (Sizes
    and capacities are taken below 2^63 and [N] below 2^62, so that
    [size_t] does not wrap.) *)
Theorem PushBack_growth_policy (o : overload) (this : obj) (item : T) v σ
    (l : list (overload * T)) :
  (objs σ !! this = Some v → has_elements σ v →
   size_ v + 1 < SIZE_MOD → capacity_ v * 2 < SIZE_MOD →
   size_ v + 1 > capacity_ v →
   returns (PushBack o this item) σ (λ _ σ',
     ∃ v', objs σ' !! this = Some v' ∧ valid σ' v' ∧
           capacity_ v' = Z.max (size_ v + 1) (capacity_ v * 2) ∧
           (size_ v = 0 → capacity_ v = 0 → capacity_ v' = 1) ∧
           size_ v' = size_ v + 1 ∧ size_ v' ≤ capacity_ v')) ∧
  (Z.of_nat (length l) < 2 ^ 62 →
   returns (w ← SV.ctor_default; push_all w l) σ (λ t _,
     length t = length l ∧
     ∀ k n c, t !! k = Some (n, c) → n = Z.of_nat k + 1 ∧ n ≤ c)).
Proof.
  split.
  - intros Hv Hhas Hsmod Hdbl Hfull.
    eapply returns_mono.
    { destruct o;
        [apply (PushBack_copy_grows this item v)
        | apply (PushBack_move_grows this item v)]; done. }
    intros [] σ' (v' & Hv' & Hval' & Hc' & Hs').
    pose proof Hval' as (Hsz' & _).
    exists v'. split; [done |]. split; [done |]. split; [done |].
    split; [lia |]. split; [done | lia].
  - intros Hlen.
    apply returns_bind. unfold SV.ctor_default, returns, new_obj.
    eexists _, _. split; [reflexivity |].
    set (v0 := mkSimpleVector AP.default 0 0).
    pose proof SIZE_MOD_value as Hmod.
    eapply returns_mono.
    + apply (push_all_trace l _ v0 _ (2 ^ 63 - 1)); simpl.
      * rewrite lookup_app_r, Nat.sub_diag by lia. done.
      * repeat split; simpl; lia.
      * lia.
      * lia.
      * lia.
    + simpl. intros t _ [Ht Hk]. split; [done |].
      intros k n c Hknc. apply Hk in Hknc. lia.
Qed.

End GrowthPolicy.

(** The growth policy on a vector that the copy constructor left with
    [capacity_] 0, where the capacity asked for is [size_ + 1], and three
    appends from the empty store. *)
Lemma PushBack_growth_policy_witness :
  returns (PushBack (H:=int_elem) ByCopy 0%nat 9) Samples.copied (λ _ σ',
    ∃ v', objs σ' !! 0%nat = Some v' ∧ valid σ' v' ∧
          capacity_ v' = Z.max (3 + 1) (0 * 2) ∧
          (3 = 0 → 0 = 0 → capacity_ v' = 1) ∧
          size_ v' = 3 + 1 ∧ size_ v' ≤ capacity_ v') ∧
  returns (w ← SV.ctor_default;
           push_all (H:=int_elem) w [(ByCopy, 1); (ByMove, 2); (ByCopy, 3)])
          empty_store (λ t _,
    length t = 3%nat ∧
    ∀ k n c, t !! k = Some (n, c) → n = Z.of_nat k + 1 ∧ n ≤ c).
Proof.
  split.
  - apply (proj1 (PushBack_growth_policy (H:=int_elem) ByCopy 0%nat 9
                    (vec 0 3 0) Samples.copied [])).
    + reflexivity.
    + repeat split; simpl; try lia. exists 3%nat. split; [reflexivity | lia].
    + reflexivity.
    + reflexivity.
    + reflexivity.
  - apply (proj2 (PushBack_growth_policy (H:=int_elem) ByCopy 0%nat 9
                    (vec 0 3 0) empty_store
                    [(ByCopy, 1); (ByMove, 2); (ByCopy, 3)])).
    reflexivity.
Defined.

(** ** Reading elements, comparing vectors and destroying them *)

Section ReadFacts.
Context {T : Type} `{Element T}.
Implicit Types (h : list (option (list T))) (o : list SimpleVector).
Implicit Types (cells xs ys : list T) (v : SimpleVector) (σ : state T).

(** Reading slot [i] of a held buffer. *)
Lemma load_held h o p cells (i : nat) x z :
  holds h p cells → cells !! i = Some x → z = Z.of_nat i →
  load (Ptr (base p) z) (State h o) = Ok x (State h o).
Proof.
  intros [_ Hp] Hx ->. destruct (base p) as [b|].
  - by eapply load_run.
  - by subst cells.
Qed.

(** Reading past the last slot of a held buffer. *)
Lemma load_beyond h o p cells (i : nat) :
  holds h p cells → cells !! i = None →
  load (Ptr (base p) (Z.of_nat i)) (State h o)
  = Undefined (BadLoad (Ptr (base p) (Z.of_nat i))).
Proof.
  intros [_ Hp] Hx. unfold load, cell_at, block_cells. simpl.
  destruct (base p) as [b|]; [| done].
  rewrite Hp. simpl. rewrite bool_decide_true by lia.
  by rewrite Nat2Z.id, Hx.
Qed.

(** X14. On a valid vector, [At(i)] with [i] the index of an element
    returns a reference through which that element is read, and leaves
    the store as it is. *)
Theorem At_refers_to_element this v xs (i : nat) x σ :
  objs σ !! this = Some v → valid σ v → elements σ v = Some xs →
  xs !! i = Some x →
  (p ← SV.At this (Z.of_nat i); load p) σ = Ok x σ.
Proof.
  destruct σ as [h o]. simpl. intros Hv Hval Hxs Hx.
  destruct (valid_has_buffer _ _ Hval) as [cells Hbuf].
  assert (xs = take (Z.to_nat (size_ v)) cells) as ->.
  { unfold elements in Hxs. rewrite Hbuf in Hxs. by injection Hxs as <-. }
  destruct (valid_holds _ _ _ _ Hval Hbuf) as (Hheld & Hlen & Hsz & Hcap).
  apply lookup_take_Some in Hx as [Hx Hi].
  unfold SV.At.
  erewrite bind_run.
  2:{ erewrite bind_run; [| by apply get_obj_run].
      destruct (Z.geb_spec (Z.of_nat i) (size_ v)) as [Hge | _]; [lia | done]. }
  destruct Hheld as [Hoff Hp].
  eapply load_held; [by split | done | simpl; lia].
Qed.

(** X15. [operator[]] checks nothing: on a valid vector it gives access to
    every slot of the buffer, those from [size_] on included, and reading
    through it at an index from [capacity_] on is undefined behaviour
    (never an exception). *)
Theorem subscript_reaches_every_slot this v cells (i : nat) σ :
  objs σ !! this = Some v → valid σ v → buffer σ v = Some cells →
  (p ← SV.subscript this (Z.of_nat i); load p) σ =
    match cells !! i with
    | Some x => Ok x σ
    | None => Undefined (BadLoad (raw_ptr_ (items_ v) +ₚ Z.of_nat i))
    end ∧
  (is_Some (cells !! i) ↔ Z.of_nat i < capacity_ v).
Proof.
  destruct σ as [h o]. simpl. intros Hv Hval Hbuf.
  destruct (valid_holds _ _ _ _ Hval Hbuf) as (Hheld & Hlen & Hsz & Hcap).
  split; [| rewrite lookup_lt_is_Some; lia].
  erewrite bind_run; [| by apply member_run].
  pose proof Hheld as [Hoff Hp].
  unfold AP.subscript, ptr_add. rewrite Hoff, Z.add_0_l.
  destruct (cells !! i) as [x|] eqn:Hx.
  - by eapply load_held.
  - by eapply load_beyond.
Qed.

End ReadFacts.

Section ComparisonFacts.
Context {T : Type} `{Element T}.
Implicit Types (h : list (option (list T))) (o : list SimpleVector).
Implicit Types (cells xs ys cs ds : list T) (v a b : SimpleVector) (σ : state T).

Lemma take_drop_cons cs (i n : nat) x :
  cs !! i = Some x → take (S n) (drop i cs) = x :: take n (drop (S i) cs).
Proof. intros Hx. by rewrite (drop_S _ _ _ Hx). Qed.

(** [std::equal] on two held buffers reads no further than the first
    range is long. *)
Lemma equal_loop_run `{EqElement T} n : ∀ h o p q cs ds (i j : nat),
  holds h p cs → holds h q ds →
  (i + n ≤ length cs)%nat → (j + n ≤ length ds)%nat →
  equal_loop n (Ptr (base p) (Z.of_nat i)) (Ptr (base q) (Z.of_nat j)) (State h o)
  = Ok (all_eqb (take n (drop i cs)) (drop j ds)) (State h o).
Proof.
  induction n as [| n IH]; intros h o p q cs ds i j Hp Hq Hi Hj.
  - by rewrite take_0.
  - destruct (lookup_lt_is_Some_2 cs i ltac:(lia)) as [x Hx].
    destruct (lookup_lt_is_Some_2 ds j ltac:(lia)) as [y Hy].
    rewrite (take_drop_cons _ _ _ _ Hx), (drop_S _ _ _ Hy).
    cbn [equal_loop all_eqb].
    erewrite bind_run; [| by eapply load_held].
    erewrite bind_run; [| by eapply load_held].
    destruct (elem_eqb x y); [| done]. simpl.
    unfold ptr_add. simpl.
    replace (Z.of_nat i + 1) with (Z.of_nat (S i)) by lia.
    replace (Z.of_nat j + 1) with (Z.of_nat (S j)) by lia.
    apply IH; try done; lia.
Qed.

Lemma all_eqb_take `{EqElement T} xs : ∀ ys n,
  (length xs ≤ n)%nat → all_eqb xs (take n ys) = all_eqb xs ys.
Proof.
  induction xs as [| x xs IH]; intros ys n Hn; [done |].
  destruct n as [| n]; [simpl in Hn; lia |].
  destruct ys as [| y ys]; [done |].
  simpl. rewrite IH; [done | simpl in Hn; lia].
Qed.

Lemma all_eqb_eq `{EqElement T} xs : ∀ ys,
  (∀ x y, elem_eqb x y = true ↔ x = y) → length xs = length ys →
  all_eqb xs ys = true ↔ xs = ys.
Proof.
  intros ys Heq. revert ys.
  induction xs as [| x xs IH]; intros [| y ys] Hlen; try done.
  simpl. rewrite andb_true_iff, Heq, IH by (simpl in Hlen; lia).
  split; [by intros [-> ->] | by intros [= -> ->]].
Qed.

(** What [operator==] returns when the left vector is no longer than the
    right one's buffer. *)
Lemma eq_op_run `{EqElement T} lhs rhs a b xs ds σ :
  objs σ !! lhs = Some a → objs σ !! rhs = Some b →
  valid σ a → valid σ b →
  elements σ a = Some xs → buffer σ b = Some ds →
  size_ a ≤ capacity_ b →
  SV.eq_op lhs rhs σ = Ok (all_eqb xs ds) σ.
Proof.
  destruct σ as [h o]. simpl. intros Ha Hb Hva Hvb Hxs Hds Hle.
  destruct (valid_has_buffer _ _ Hva) as [cs Hcs].
  assert (xs = take (Z.to_nat (size_ a)) cs) as ->.
  { unfold elements in Hxs. rewrite Hcs in Hxs. by injection Hxs as <-. }
  destruct (valid_holds _ _ _ _ Hva Hcs) as (Hpa & Hla & Hsa & Hca).
  destruct (valid_holds _ _ _ _ Hvb Hds) as (Hpb & Hlb & Hsb & Hcb).
  unfold SV.eq_op, SV.begin, SV.end_.
  erewrite bind_run; [| by apply member_run].
  erewrite bind_run; [| by apply member_run].
  erewrite bind_run; [| by apply member_run].
  unfold std_equal. rewrite range_len_add.
  pose proof Hpa as [Hoa _]. pose proof Hpb as [Hob _].
  unfold AP.Get, ptr_add. rewrite Hoa, Hob. simpl.
  by rewrite (equal_loop_run _ h o _ _ cs ds 0 0) by (done || simpl; lia).
Qed.

(** X16. [operator==] walks the left vector only: when the left vector
    is no longer than the right one, the result is whether each element of
    the left one equals the element of the right one at the same index
    (elements of the right one past the left one's size are not looked
    at); [operator!=] returns the negation; neither changes the store. *)
Theorem eq_op_compares_along_left `{EqElement T} lhs rhs a b xs ys σ :
  objs σ !! lhs = Some a → objs σ !! rhs = Some b →
  valid σ a → valid σ b →
  elements σ a = Some xs → elements σ b = Some ys →
  size_ a ≤ size_ b →
  SV.eq_op lhs rhs σ = Ok (all_eqb xs ys) σ ∧
  SV.ne_op lhs rhs σ = Ok (negb (all_eqb xs ys)) σ.
Proof.
  intros Ha Hb Hva Hvb Hxs Hys Hle.
  destruct (valid_has_buffer _ _ Hvb) as [ds Hds].
  assert (ys = take (Z.to_nat (size_ b)) ds) as ->.
  { unfold elements in Hys. rewrite Hds in Hys. by injection Hys as <-. }
  assert (Hlen : (length xs ≤ Z.to_nat (size_ b))%nat).
  { destruct (valid_has_buffer _ _ Hva) as [cs Hcs].
    unfold elements in Hxs. rewrite Hcs in Hxs. injection Hxs as <-.
    rewrite length_take. lia. }
  assert (Hrun : SV.eq_op lhs rhs σ
                 = Ok (all_eqb xs (take (Z.to_nat (size_ b)) ds)) σ).
  { rewrite all_eqb_take by done.
    eapply eq_op_run; try done. destruct Hvb as [? _]. lia. }
  split; [done |].
  rewrite ne_op_negates. by erewrite bind_run.
Qed.

(** X17. On valid vectors of the same size, and for an element type whose
    [==] decides equality, [operator==] returns true exactly when the two
    vectors hold the same elements. *)
Theorem eq_op_decides_equality_at_same_size `{EqElement T} lhs rhs a b xs ys σ :
  (∀ x y : T, elem_eqb x y = true ↔ x = y) →
  objs σ !! lhs = Some a → objs σ !! rhs = Some b →
  valid σ a → valid σ b →
  elements σ a = Some xs → elements σ b = Some ys →
  size_ a = size_ b →
  ∃ r, SV.eq_op lhs rhs σ = Ok r σ ∧ (r = true ↔ xs = ys).
Proof.
  intros Heq Ha Hb Hva Hvb Hxs Hys Hsize.
  destruct (valid_has_buffer _ _ Hvb) as [ds Hds].
  destruct (valid_has_buffer _ _ Hva) as [cs Hcs].
  destruct σ as [h o].
  destruct (valid_holds _ _ _ _ Hva Hcs) as (_ & Hla & Hsa & _).
  destruct (valid_holds _ _ _ _ Hvb Hds) as (_ & Hlb & Hsb & _).
  assert (ys = take (Z.to_nat (size_ b)) ds) as ->.
  { unfold elements in Hys. rewrite Hds in Hys. by injection Hys as <-. }
  assert (xs = take (Z.to_nat (size_ a)) cs) as ->.
  { unfold elements in Hxs. rewrite Hcs in Hxs. by injection Hxs as <-. }
  exists (all_eqb (take (Z.to_nat (size_ a)) cs) (take (Z.to_nat (size_ b)) ds)).
  split.
  - rewrite all_eqb_take by (rewrite length_take; lia).
    eapply eq_op_run; try done. lia.
  - apply all_eqb_eq; [done |]. rewrite !length_take. lia.
Qed.

(** [std::lexicographical_compare] on two held buffers. *)
Lemma lexicographical_compare_loop_run `{OrdElement T} n1 :
  ∀ n2 h o p q cs ds (i j : nat),
  holds h p cs → holds h q ds →
  (i + n1 ≤ length cs)%nat → (j + n2 ≤ length ds)%nat →
  lexicographical_compare_loop n1 n2
    (Ptr (base p) (Z.of_nat i)) (Ptr (base q) (Z.of_nat j)) (State h o)
  = Ok (lex_ltb (take n1 (drop i cs)) (take n2 (drop j ds))) (State h o).
Proof.
  induction n1 as [| n1 IH]; intros n2 h o p q cs ds i j Hp Hq Hi Hj.
  - rewrite take_0. destruct n2 as [| n2]; [by rewrite take_0 |].
    destruct (lookup_lt_is_Some_2 ds j ltac:(lia)) as [y Hy].
    by rewrite (take_drop_cons _ _ _ _ Hy).
  - destruct (lookup_lt_is_Some_2 cs i ltac:(lia)) as [x Hx].
    rewrite (take_drop_cons _ _ _ _ Hx).
    destruct n2 as [| n2]; [by rewrite take_0 |].
    destruct (lookup_lt_is_Some_2 ds j ltac:(lia)) as [y Hy].
    rewrite (take_drop_cons _ _ _ _ Hy).
    cbn [lexicographical_compare_loop lex_ltb].
    erewrite bind_run; [| by eapply load_held].
    erewrite bind_run; [| by eapply load_held].
    destruct (elem_ltb x y); [done |].
    destruct (elem_ltb y x); [done |].
    unfold ptr_add. simpl.
    replace (Z.of_nat i + 1) with (Z.of_nat (S i)) by lia.
    replace (Z.of_nat j + 1) with (Z.of_nat (S j)) by lia.
    apply IH; try done; lia.
Qed.

Lemma lt_op_run `{OrdElement T} lhs rhs a b xs ys σ :
  objs σ !! lhs = Some a → objs σ !! rhs = Some b →
  valid σ a → valid σ b →
  elements σ a = Some xs → elements σ b = Some ys →
  SV.lt_op lhs rhs σ = Ok (lex_ltb xs ys) σ.
Proof.
  destruct σ as [h o]. simpl. intros Ha Hb Hva Hvb Hxs Hys.
  destruct (valid_has_buffer _ _ Hva) as [cs Hcs].
  destruct (valid_has_buffer _ _ Hvb) as [ds Hds].
  assert (xs = take (Z.to_nat (size_ a)) cs) as ->.
  { unfold elements in Hxs. rewrite Hcs in Hxs. by injection Hxs as <-. }
  assert (ys = take (Z.to_nat (size_ b)) ds) as ->.
  { unfold elements in Hys. rewrite Hds in Hys. by injection Hys as <-. }
  destruct (valid_holds _ _ _ _ Hva Hcs) as (Hpa & Hla & Hsa & Hca).
  destruct (valid_holds _ _ _ _ Hvb Hds) as (Hpb & Hlb & Hsb & Hcb).
  unfold SV.lt_op, SV.begin, SV.end_.
  erewrite bind_run; [| by apply member_run].
  erewrite bind_run; [| by apply member_run].
  erewrite bind_run; [| by apply member_run].
  erewrite bind_run; [| by apply member_run].
  unfold std_lexicographical_compare. rewrite !range_len_add.
  pose proof Hpa as [Hoa _]. pose proof Hpb as [Hob _].
  unfold AP.Get, ptr_add. rewrite Hoa, Hob. simpl.
  by rewrite (lexicographical_compare_loop_run _ _ h o _ _ cs ds 0 0)
    by (done || simpl; lia).
Qed.

(** X18. On valid vectors the four ordering operators compare the
    elements lexicographically by the elements' [<], capacities and slots
    past the size playing no part: [a < b] is the lexicographic order,
    [a > b] is [b < a], [a <= b] is the negation of [b < a] and [a >= b]
    the negation of [a < b]; none changes the store. *)
Theorem ordering_is_lexicographic `{OrdElement T} lhs rhs a b xs ys σ :
  objs σ !! lhs = Some a → objs σ !! rhs = Some b →
  valid σ a → valid σ b →
  elements σ a = Some xs → elements σ b = Some ys →
  SV.lt_op lhs rhs σ = Ok (lex_ltb xs ys) σ ∧
  SV.gt_op lhs rhs σ = Ok (lex_ltb ys xs) σ ∧
  SV.le_op lhs rhs σ = Ok (negb (lex_ltb ys xs)) σ ∧
  SV.ge_op lhs rhs σ = Ok (negb (lex_ltb xs ys)) σ.
Proof.
  intros Ha Hb Hva Hvb Hxs Hys.
  assert (Hlt : SV.lt_op lhs rhs σ = Ok (lex_ltb xs ys) σ)
    by by eapply lt_op_run.
  assert (Hgt : SV.gt_op lhs rhs σ = Ok (lex_ltb ys xs) σ)
    by by eapply lt_op_run.
  repeat split; try done.
  - unfold SV.le_op. by erewrite bind_run.
  - unfold SV.ge_op. by erewrite bind_run.
Qed.

End ComparisonFacts.

Section DestructionFacts.
Context {T : Type} `{Element T}.
Implicit Types (h : list (option (list T))) (o : list SimpleVector).
Implicit Types (cells : list T) (v s : SimpleVector) (σ : state T).

(** Deleting a held array. *)
Lemma destroy_holds_run h o p cells :
  holds h p cells →
  AP.destroy (mkArrayPtr p) (State h o) = Ok () (State (retire p h) o).
Proof.
  intros [Hoff Hp]. destruct p as [[b|] z]; simpl in *; subst z.
  - by eapply destroy_run.
  - done.
Qed.

(** The run of the destructor of an object that holds a live array or
    [nullptr]. *)
Lemma dtor_run this v cells h o :
  o !! this = Some v → holds h (raw_ptr_ (items_ v)) cells →
  SV.dtor this (State h o)
  = Ok () (State (retire (raw_ptr_ (items_ v)) h) (<[this := set_size 0 v]> o)).
Proof.
  intros Hv Hp. unfold SV.dtor, SV.Clear.
  erewrite bind_run; [| by apply upd_obj_run].
  erewrite bind_run;
    [| apply get_obj_run, list_lookup_insert_eq; by eapply lookup_lt_Some].
  destruct v as [[p] sz cap]. simpl in *. by eapply destroy_holds_run.
Qed.

(** X19. The destructor of a valid vector returns normally; it sets the
    size to 0, deletes the vector's buffer (nothing for [nullptr]) and
    leaves every other block and every other object as they were. *)
Theorem dtor_deletes_the_buffer this v σ :
  objs σ !! this = Some v → valid σ v →
  returns (SV.dtor this) σ (λ _ σ',
    objs σ' = <[this := set_size 0 v]> (objs σ) ∧
    length (heap σ') = length (heap σ) ∧
    same_blocks_but (base (raw_ptr_ (items_ v))) σ σ' ∧
    (∀ b, base (raw_ptr_ (items_ v)) = Some b → heap σ' !! b = Some None)).
Proof.
  destruct σ as [h o]. simpl. intros Hv Hval.
  destruct (valid_has_buffer _ _ Hval) as [cells Hbuf].
  destruct (valid_holds _ _ _ _ Hval Hbuf) as (Hheld & _).
  eapply returns_of_run; [by eapply dtor_run |]. simpl.
  split; [done |]. split; [apply retire_length |].
  unfold retire, same_blocks_but. simpl.
  destruct (base (raw_ptr_ (items_ v))) as [b|] eqn:Hb; [| done].
  split.
  - intros b' Hne _. apply list_lookup_insert_ne. congruence.
  - intros b0 [= <-]. apply list_lookup_insert_eq.
    eapply holds_lt; [exact Hheld | done].
Qed.

(** X20. Move-constructing from a valid vector and then destroying both
    objects returns normally: the buffer the source held is deleted once
    (by the destructor of the new object), the array the move constructor
    allocated for the source is deleted as well, and no other block is
    touched. *)
Theorem move_construct_then_destroy_both other s σ :
  objs σ !! other = Some s → valid σ s →
  returns (this ← SV.ctor_move other; SV.dtor this;; SV.dtor other) σ (λ _ σ',
    heap σ' = retire (raw_ptr_ (items_ s)) (heap σ) ++
              (if capacity_ s =? 0 then [] else [None])).
Proof.
  destruct σ as [h o]. simpl. intros Hs Hval.
  destruct (valid_has_buffer _ _ Hval) as [cells Hbuf].
  destruct (valid_holds _ _ _ _ Hval Hbuf) as (Hheld & _).
  assert (Hother : (other < length o)%nat) by by eapply lookup_lt_Some.
  unfold returns.
  erewrite bind_run; [| by apply ctor_move_run].
  set (new := if capacity_ s =? 0 then [] else _).
  set (m := mkSimpleVector _ 0 0).
  assert (Hheld' : holds (h ++ new) (raw_ptr_ (items_ s)) cells).
  { destruct Hheld as [Hoff Hp]. split; [done |].
    destruct (base (raw_ptr_ (items_ s))); [| done].
    by apply lookup_app_l_Some. }
  erewrite bind_run.
  2:{ eapply (dtor_run _ s cells); [| exact Hheld'].
      rewrite <- (length_insert o other m). apply list_lookup_middle. done. }
  assert (Hretire : retire (raw_ptr_ (items_ s)) (h ++ new)
                    = retire (raw_ptr_ (items_ s)) h ++ new).
  { unfold retire. destruct Hheld as [_ Hp].
    destruct (base (raw_ptr_ (items_ s))) as [b|]; [| done].
    apply insert_app_l. by eapply lookup_lt_Some. }
  rewrite Hretire.
  assert (Hm : (<[length o := set_size 0 s]>
                  (<[other := m]> o ++ [s])) !! other = Some m).
  { rewrite list_lookup_insert_ne by lia. apply lookup_app_l_Some.
    by apply list_lookup_insert_eq. }
  unfold new, m in *. clear new m Hheld' Hretire.
  destruct (Z.eqb_spec (capacity_ s) 0) as [Hzero | Hpos].
  - erewrite (dtor_run _ _ []); [| exact Hm | done].
    eexists _, _. split; [reflexivity |]. done.
  - erewrite (dtor_run _ _ (replicate (Z.to_nat (capacity_ s)) elem_new));
      [| exact Hm |].
    + eexists _, _. split; [reflexivity |]. simpl. unfold retire at 1. simpl.
      rewrite <- (retire_length (raw_ptr_ (items_ s)) h).
      by rewrite insert_new_block.
    + split; [done |]. simpl.
      rewrite <- (retire_length (raw_ptr_ (items_ s)) h).
      apply lookup_new_block.
Qed.

End DestructionFacts.

Section AssignmentFacts.
Context {T : Type} `{Element T}.
Implicit Types (h : list (option (list T))) (o : list SimpleVector).
Implicit Types (cells xs ys cs ds : list T) (v a b : SimpleVector) (σ : state T).









(** X23. Assigning a vector to itself, by copy or by move, does nothing:
    no allocation, no element access, and the store is left as it is,
    whatever state the vector is in. *)
Theorem self_assignment_does_nothing this σ :
  SV.assign_copy this this σ = Ok () σ ∧ SV.assign_move this this σ = Ok () σ.
Proof.
  unfold SV.assign_copy, SV.assign_move.
  by rewrite bool_decide_false by (intros Hne; by apply Hne).
Qed.

End AssignmentFacts.

Section InsertFacts.
Context {T : Type} `{Element T}.
Implicit Types (h : list (option (list T))) (o : list SimpleVector).
Implicit Types (cells xs pre mid post : list T) (v : SimpleVector) (σ : state T).

Lemma insert_middle pre post (x y : T) n :
  n = length pre → <[n := y]> (pre ++ x :: post) = pre ++ y :: post.
Proof.
  intros ->. replace (length pre) with (length pre + 0)%nat by lia.
  by rewrite insert_app_r.
Qed.

(** [std::move_backward] of the [n] slots [mid] to one slot further right,
    inside one block: the slot after them, [y], is overwritten, and the
    first slot of the range is left with some value [w]. *)
Lemma move_backward_loop_run n : ∀ h o b pre mid y post z1 z2,
  h !! b = Some (Some (pre ++ mid ++ y :: post)) → length mid = n →
  z1 = Z.of_nat (length pre + n) → z2 = z1 + 1 →
  ∃ w, move_backward_loop n (Ptr (Some b) z1) (Ptr (Some b) z2) (State h o)
       = Ok (Ptr (Some b) (Z.of_nat (length pre) + 1))
            (State (<[b := Some (pre ++ w :: mid ++ post)]> h) o).
Proof.
  induction n as [| n IH]; intros h o b pre mid y post z1 z2 Hb Hlen -> ->.
  - apply length_zero_iff_nil in Hlen as ->. exists y. simpl.
    rewrite Nat.add_0_r. by rewrite list_insert_id.
  - destruct mid as [| c mid _] using rev_ind; [done |].
    rewrite length_app in Hlen. simpl in Hlen.
    assert (Hmid : length mid = n) by lia.
    assert (Hcells : pre ++ (mid ++ [c]) ++ y :: post
                     = (pre ++ mid) ++ c :: y :: post)
      by by rewrite <- !app_assoc.
    rewrite Hcells in Hb.
    assert (Hi : (length pre + n)%nat = length (pre ++ mid)) by list_len.
    set (m := elem_moved c).
    set (h1 := <[b := Some ((pre ++ mid) ++ m :: c :: post)]> h).
    assert (Hb1 : h1 !! b = Some (Some (pre ++ mid ++ m :: c :: post))).
    { unfold h1. rewrite <- app_assoc. by eapply heap_lookup_insert. }
    destruct (IH h1 o b pre mid m (c :: post) _ _ Hb1 Hmid eq_refl eq_refl)
      as [w Hw].
    exists w. cbn [move_backward_loop]. unfold move_assign, ptr_add. simpl.
    replace (Z.of_nat (length pre + S n) + -1)
      with (Z.of_nat (length pre + n)) by lia.
    replace (Z.of_nat (length pre + S n) + 1 + -1)
      with (Z.of_nat (S (length pre + n))) by lia.
    erewrite bind_run.
    2:{ erewrite bind_run;
          [| eapply (load_run _ _ _ _ (length pre + n));
             [exact Hb | by apply list_lookup_middle | done]].
        erewrite bind_run;
          [| eapply (store_run _ _ _ _ (length pre + n));
             [exact Hb | list_len | done]].
        eapply (store_run _ _ _ _ (S (length pre + n)));
          [by eapply heap_lookup_insert | list_len | done]. }
    rewrite list_insert_insert_eq.
    rewrite (insert_middle _ _ c m) by done.
    assert (Hcons : (pre ++ mid) ++ m :: y :: post
                    = ((pre ++ mid) ++ [m]) ++ y :: post)
      by by rewrite <- !app_assoc.
    rewrite Hcons, (insert_middle _ _ y c) by list_len.
    rewrite <- (app_assoc _ [m]). simpl. fold h1.
    replace (Z.of_nat (S (length pre + n)))
      with (Z.of_nat (length pre + n) + 1) by lia.
    rewrite Hw. unfold h1. rewrite list_insert_insert_eq.
    by rewrite <- !app_assoc.
Qed.

(** [std::copy_backward] likewise. *)
Lemma copy_backward_loop_run n : ∀ h o b pre mid y post z1 z2,
  h !! b = Some (Some (pre ++ mid ++ y :: post)) → length mid = n →
  z1 = Z.of_nat (length pre + n) → z2 = z1 + 1 →
  ∃ w, copy_backward_loop n (Ptr (Some b) z1) (Ptr (Some b) z2) (State h o)
       = Ok (Ptr (Some b) (Z.of_nat (length pre) + 1))
            (State (<[b := Some (pre ++ w :: mid ++ post)]> h) o).
Proof.
  induction n as [| n IH]; intros h o b pre mid y post z1 z2 Hb Hlen -> ->.
  - apply length_zero_iff_nil in Hlen as ->. exists y. simpl.
    rewrite Nat.add_0_r. by rewrite list_insert_id.
  - destruct mid as [| c mid _] using rev_ind; [done |].
    rewrite length_app in Hlen. simpl in Hlen.
    assert (Hmid : length mid = n) by lia.
    assert (Hcells : pre ++ (mid ++ [c]) ++ y :: post
                     = (pre ++ mid) ++ c :: y :: post)
      by by rewrite <- !app_assoc.
    rewrite Hcells in Hb.
    assert (Hi : (length pre + n)%nat = length (pre ++ mid)) by list_len.
    set (h1 := <[b := Some ((pre ++ mid) ++ c :: c :: post)]> h).
    assert (Hb1 : h1 !! b = Some (Some (pre ++ mid ++ c :: c :: post))).
    { unfold h1. rewrite <- app_assoc. by eapply heap_lookup_insert. }
    destruct (IH h1 o b pre mid c (c :: post) _ _ Hb1 Hmid eq_refl eq_refl)
      as [w Hw].
    exists w. cbn [copy_backward_loop]. unfold ptr_add. simpl.
    replace (Z.of_nat (length pre + S n) + -1)
      with (Z.of_nat (length pre + n)) by lia.
    replace (Z.of_nat (length pre + S n) + 1 + -1)
      with (Z.of_nat (S (length pre + n))) by lia.
    erewrite bind_run;
      [| eapply (load_run _ _ _ _ (length pre + n));
         [exact Hb | by apply list_lookup_middle | done]].
    erewrite bind_run;
      [| eapply (store_run _ _ _ _ (S (length pre + n)));
         [exact Hb | list_len | done]].
    assert (Hcons : (pre ++ mid) ++ c :: y :: post
                    = ((pre ++ mid) ++ [c]) ++ y :: post)
      by by rewrite <- !app_assoc.
    rewrite Hcons, (insert_middle _ _ y c) by list_len.
    rewrite <- (app_assoc _ [c]). simpl. fold h1.
    replace (Z.of_nat (S (length pre + n)))
      with (Z.of_nat (length pre + n) + 1) by lia.
    rewrite Hw. unfold h1. rewrite list_insert_insert_eq.
    by rewrite <- !app_assoc.
Qed.

(** The slots of a buffer around index [i] and the size [n]. *)
Lemma cells_split cells (i n : nat) :
  (i ≤ n)%nat → (n < length cells)%nat →
  ∃ y, cells = take i cells ++ take (n - i) (drop i cells) ++ y :: drop (S n) cells.
Proof.
  intros Hi Hn.
  destruct (lookup_lt_is_Some_2 cells n Hn) as [y Hy]. exists y.
  rewrite <- (drop_S _ _ _ Hy).
  replace (drop n cells) with (drop (n - i) (drop i cells))
    by (rewrite drop_drop; f_equal; lia).
  by rewrite !take_drop.
Qed.

Lemma elements_inserted cells (i n : nat) (value : T) post :
  (i ≤ n)%nat → (n ≤ length cells)%nat →
  take (S n) (take i cells ++ value :: take (n - i) (drop i cells) ++ post)
  = take i (take n cells) ++ value :: drop i (take n cells).
Proof.
  intros Hi Hn.
  rewrite take_take, Nat.min_l by lia.
  replace (drop i (take n cells)) with (take (n - i) (drop i cells))
    by (rewrite take_drop_commute; do 2 f_equal; lia).
  replace (take i cells ++ value :: take (n - i) (drop i cells) ++ post)
    with ((take i cells ++ value :: take (n - i) (drop i cells)) ++ post)
    by (by rewrite <- app_assoc).
  rewrite take_app_le by list_len.
  apply take_ge. list_len.
Qed.

(** What [Insert] of an rvalue leaves behind. *)
Lemma Insert_move_inserts_spec this v xs (i : nat) value σ :
  objs σ !! this = Some v → valid σ v → elements σ v = Some xs →
  Z.of_nat i ≤ size_ v → capacity_ v * 2 < SIZE_MOD →
  returns (SV.Insert_move this (AP.Get (items_ v) +ₚ Z.of_nat i) value) σ
    (λ r σ',
      ∃ v', objs σ' = <[this := v']> (objs σ) ∧ valid σ' v' ∧
            size_ v' = size_ v + 1 ∧
            capacity_ v' = (if capacity_ v >? size_ v then capacity_ v
                            else if capacity_ v =? 0 then 1
                            else capacity_ v * 2) ∧
            elements σ' v' = Some (take i xs ++ value :: drop i xs) ∧
            r = AP.Get (items_ v') +ₚ Z.of_nat i ∧
            same_blocks_but (base (raw_ptr_ (items_ v))) σ σ' ∧
            (if capacity_ v >? size_ v then items_ v' = items_ v
             else rehoused σ this v v' σ')).
Proof.
  destruct σ as [h o]. simpl. intros Hv Hval Hxs Hi Hdbl.
  destruct (valid_has_buffer _ _ Hval) as [cells Hbuf].
  assert (xs = take (Z.to_nat (size_ v)) cells) as ->.
  { unfold elements in Hxs. rewrite Hbuf in Hxs. by injection Hxs as <-. }
  destruct (valid_holds _ _ _ _ Hval Hbuf) as (Hheld & Hlen & Hsz & Hcap).
  assert (Hthis : (this < length o)%nat) by by eapply lookup_lt_Some.
  pose proof SIZE_MOD_value as Hmod.
  pose proof Hheld as [Hoff Hblk].
  unfold returns, SV.Insert_move, SV.cbegin, SV.begin, SV.end_.
  erewrite bind_run; [| by apply member_run].
  erewrite bind_run; [| by apply member_run].
  assert (Hassert : ptr_le (AP.Get (items_ v)) (AP.Get (items_ v) +ₚ Z.of_nat i)
                    && ptr_le (AP.Get (items_ v) +ₚ Z.of_nat i)
                              (AP.Get (items_ v) +ₚ size_ v) = true).
  { unfold ptr_le, AP.Get, ptr_add. simpl. rewrite !bool_decide_true by done.
    apply andb_true_iff. split; apply Z.leb_le; lia. }
  rewrite Hassert. erewrite bind_run; [| reflexivity].
  erewrite bind_run; [| by apply member_run].
  assert (Hindex : wrap (ptr_diff (AP.Get (items_ v) +ₚ Z.of_nat i)
                                  (AP.Get (items_ v))) = Z.of_nat i).
  { unfold ptr_diff. simpl. rewrite wrap_small; lia. }
  rewrite Hindex.
  erewrite bind_run; [| by apply get_obj_run].
  set (n := (Z.to_nat (size_ v) - i)%nat).
  assert (Hrest : range_len (AP.Get (items_ v) +ₚ Z.of_nat i)
                            (AP.Get (items_ v) +ₚ size_ v) = n).
  { unfold range_len, ptr_diff, n. simpl. lia. }
  destruct (Z.gtb_spec (capacity_ v) (size_ v)) as [Hroom | Hfull].
  - (* in place *)
    destruct v as [[[bo z]] sz cap]. simpl in *. subst z.
    destruct bo as [b|]; [| subst cells; simpl in Hlen; lia].
    destruct (cells_split cells i (Z.to_nat sz)) as [y Hcells]; [lia | lia |].
    fold n in Hcells.
    set (pre := take i cells) in *.
    set (mid := take n (drop i cells)) in *.
    set (post := drop (S (Z.to_nat sz)) cells) in *.
    assert (Hpre : length pre = i) by (unfold pre; list_len).
    assert (Hmid : length mid = n) by (unfold mid, n; list_len).
    rewrite Hcells in Hblk.
    destruct (move_backward_loop_run n h o b pre mid y post sz (sz + 1)
                Hblk Hmid ltac:(unfold n; lia) eq_refl) as [w Hw].
    erewrite bind_run.
    2:{ erewrite bind_run; [| by apply member_run].
        unfold std_move_backward. cbn [items_ size_].
        rewrite over_range_forward by (unfold ptr_diff; simpl; lia). cbv beta.
        replace (range_len _ _) with n
          by (unfold range_len, ptr_diff, n; simpl; lia).
        unfold AP.Get, ptr_add. simpl.
        erewrite bind_run; [| exact Hw].
        erewrite bind_run; [| by apply get_obj_run].
        eapply (store_run _ _ _ _ i);
          [by eapply heap_lookup_insert | list_len | simpl; lia]. }
    rewrite list_insert_insert_eq, (insert_middle _ _ w value) by done.
    erewrite bind_run; [| by apply get_obj_run].
    erewrite bind_run; [| by apply upd_obj_run].
    erewrite bind_run; [| by apply member_run, list_lookup_insert_eq].
    rewrite wrap_small by (simpl; lia).
    eexists _, _. split; [reflexivity |]. simpl.
    eexists. split; [done |].
    assert (b < length h)%nat by by eapply lookup_lt_Some.
    assert (Hlen' : length (pre ++ value :: mid ++ post) = Z.to_nat cap).
    { rewrite <- Hlen, Hcells. list_len. }
    split; [| split; [done | split; [done | split; [| split; [done | split]]]]].
    + repeat split; simpl; try lia.
      unfold extent, block_cells. simpl.
      rewrite list_lookup_insert_eq by done. simpl. by rewrite Hlen'.
    + unfold elements, buffer, block_cells. simpl.
      rewrite list_lookup_insert_eq by done. simpl. f_equal.
      replace (Z.to_nat (sz + 1)) with (S (Z.to_nat sz)) by lia.
      unfold pre, mid, n. apply elements_inserted; lia.
    + intros b' Hne _. simpl. apply list_lookup_insert_ne. congruence.
    + done.
  - (* a new buffer *)
    assert (Hsize : size_ v = capacity_ v) by lia.
    set (nc := if capacity_ v =? 0 then 1 else wrap (capacity_ v * 2)).
    assert (Hnc : nc = if capacity_ v =? 0 then 1 else capacity_ v * 2).
    { unfold nc. destruct (capacity_ v =? 0); [done | apply wrap_small; lia]. }
    assert (Hnc' : size_ v + 1 ≤ nc ∧ nc < SIZE_MOD).
    { rewrite Hnc. destruct (Z.eqb_spec (capacity_ v) 0); lia. }
    erewrite bind_run.
    2:{ erewrite bind_run; [| apply create_run; lia].
        erewrite bind_run; [| by apply member_run].
        unfold std_move.
        rewrite over_range_forward by (unfold ptr_diff; simpl; lia). cbv beta.
        rewrite range_len_add, Nat2Z.id.
        erewrite bind_run;
          [| eapply (move_out_front_run _ _ _ _ cells);
             [exact Hheld | lia | list_len | simpl; lia | done]].
        erewrite bind_run;
          [| eapply (store_last_run _ _ _ i);
             [by rewrite moved_out_length | list_len | simpl; lia]].
        erewrite bind_run; [| by apply member_run].
        rewrite over_range_forward by (unfold ptr_diff; simpl; lia). cbv beta.
        rewrite Hrest.
        erewrite bind_run.
        2:{ eapply (move_out_at _ _ _ (raw_ptr_ (items_ v)) (moved_from 0 i cells)
                      _ i (S i));
              [by rewrite moved_out_length | by apply holds_moved_out
              | rewrite moved_from_length by lia; unfold n; lia
              | unfold n; list_len | simpl; lia | simpl; lia]. }
        erewrite bind_run; [| by apply swap_items_run].
        erewrite bind_run;
          [| apply upd_obj_run, list_lookup_insert_eq; by eapply lookup_lt_Some].
        eapply destroy_held_run. by apply holds_moved_out, holds_moved_out. }
    rewrite retire_moved_out_twice, list_insert_insert_eq.
    erewrite bind_run; [| by apply get_obj_run, list_lookup_insert_eq].
    erewrite bind_run; [| by apply upd_obj_run, list_lookup_insert_eq].
    erewrite bind_run; [| by apply member_run, list_lookup_insert_eq; list_len].
    rewrite list_insert_insert_eq. rewrite wrap_small by (simpl; lia).
    rewrite (drop_moved_from 0 i i) by lia.
    rewrite take_succ_insert by list_len.
    rewrite take_app_le, take_take, Nat.min_id by list_len.
    eexists _, _. split; [reflexivity |].
    set (v' := set_size _ _).
    set (tail := drop (S i + n) _).
    edestruct (rehoused_intro h o this v v') as (Hre & Hv' & Hbuf' & Hval');
      [done | done | intros b Hb; by eapply holds_lt |].
    pose proof Hre as (Hobjs & Hp & Hsame & Hfreed).
    exists v'. split; [done |].
    split; [| split; [done | split; [done | split; [| done]]]].
    + apply Hval'; simpl; [| lia | lia].
      unfold tail, n. list_len.
    + unfold elements. rewrite Hbuf'. simpl. f_equal.
      replace (Z.to_nat (size_ v + 1)) with (S (Z.to_nat (size_ v))) by lia.
      rewrite <- app_assoc. simpl. unfold n. apply elements_inserted; lia.
Qed.

(** X24. [Insert] of an rvalue before index [i <= size_] of a valid vector
    (capacity below 2^63): the vector is valid again, one longer, and holds
    the old elements with [value] put in before index [i]; the result is
    the iterator to the new element in the vector as it is afterwards.
    With room ([size_ < capacity_]) the buffer is kept, otherwise the
    elements move to a new buffer of twice the capacity (1 for capacity 0)
    and the old buffer is deleted; no other block or object changes. *)
Theorem Insert_move_inserts this v xs (i : nat) value σ :
  objs σ !! this = Some v → valid σ v → elements σ v = Some xs →
  Z.of_nat i ≤ size_ v → capacity_ v * 2 < SIZE_MOD →
  returns (SV.Insert_move this (AP.Get (items_ v) +ₚ Z.of_nat i) value) σ
    (λ r σ',
      ∃ v', objs σ' = <[this := v']> (objs σ) ∧ valid σ' v' ∧
            size_ v' = size_ v + 1 ∧
            capacity_ v' = (if capacity_ v >? size_ v then capacity_ v
                            else if capacity_ v =? 0 then 1
                            else capacity_ v * 2) ∧
            elements σ' v' = Some (take i xs ++ value :: drop i xs) ∧
            r = AP.Get (items_ v') +ₚ Z.of_nat i ∧
            same_blocks_but (base (raw_ptr_ (items_ v))) σ σ' ∧
            (if capacity_ v >? size_ v then items_ v' = items_ v
             else rehoused σ this v v' σ')).
Proof. apply Insert_move_inserts_spec. Qed.

(** X25. [Insert] of a copy before index [i <= size_] of a valid vector
    (capacity below 2^63) changes the vector exactly as the rvalue
    overload does: valid again, one longer, [value] put in before index
    [i], buffer kept when there was room, new buffer of twice the capacity
    (1 for capacity 0) otherwise.  Its result, though, is the iterator it
    was given: when [size_ = capacity_] this is a pointer into the buffer
    the call has deleted (or [nullptr] for capacity 0), and no iterator of
    the vector as it is afterwards. *)
Theorem Insert_copy_inserts this v xs (i : nat) value σ :
  objs σ !! this = Some v → valid σ v → elements σ v = Some xs →
  Z.of_nat i ≤ size_ v → capacity_ v * 2 < SIZE_MOD →
  returns (SV.Insert_copy this (AP.Get (items_ v) +ₚ Z.of_nat i) value) σ
    (λ r σ',
      ∃ v', objs σ' = <[this := v']> (objs σ) ∧ valid σ' v' ∧
            size_ v' = size_ v + 1 ∧
            capacity_ v' = (if capacity_ v >? size_ v then capacity_ v
                            else if capacity_ v =? 0 then 1
                            else capacity_ v * 2) ∧
            elements σ' v' = Some (take i xs ++ value :: drop i xs) ∧
            r = AP.Get (items_ v) +ₚ Z.of_nat i ∧
            same_blocks_but (base (raw_ptr_ (items_ v))) σ σ' ∧
            (if capacity_ v >? size_ v then items_ v' = items_ v
             else rehoused σ this v v' σ' ∧ base r ≠ base (AP.Get (items_ v')))).
Proof.
  destruct σ as [h o]. simpl. intros Hv Hval Hxs Hi Hdbl.
  destruct (valid_has_buffer _ _ Hval) as [cells Hbuf].
  assert (xs = take (Z.to_nat (size_ v)) cells) as ->.
  { unfold elements in Hxs. rewrite Hbuf in Hxs. by injection Hxs as <-. }
  destruct (valid_holds _ _ _ _ Hval Hbuf) as (Hheld & Hlen & Hsz & Hcap).
  assert (Hthis : (this < length o)%nat) by by eapply lookup_lt_Some.
  pose proof SIZE_MOD_value as Hmod.
  pose proof Hheld as [Hoff Hblk].
  unfold returns, SV.Insert_copy, SV.cbegin, SV.begin, SV.end_.
  erewrite bind_run; [| by apply member_run].
  erewrite bind_run; [| by apply member_run].
  assert (Hassert : ptr_le (AP.Get (items_ v)) (AP.Get (items_ v) +ₚ Z.of_nat i)
                    && ptr_le (AP.Get (items_ v) +ₚ Z.of_nat i)
                              (AP.Get (items_ v) +ₚ size_ v) = true).
  { unfold ptr_le, AP.Get, ptr_add. simpl. rewrite !bool_decide_true by done.
    apply andb_true_iff. split; apply Z.leb_le; lia. }
  rewrite Hassert. erewrite bind_run; [| reflexivity].
  erewrite bind_run; [| by apply member_run].
  assert (Hindex : wrap (ptr_diff (AP.Get (items_ v) +ₚ Z.of_nat i)
                                  (AP.Get (items_ v))) = Z.of_nat i).
  { unfold ptr_diff. simpl. rewrite wrap_small; lia. }
  rewrite Hindex.
  erewrite bind_run; [| by apply get_obj_run].
  set (n := (Z.to_nat (size_ v) - i)%nat).
  assert (Hrest : range_len (AP.Get (items_ v) +ₚ Z.of_nat i)
                            (AP.Get (items_ v) +ₚ size_ v) = n).
  { unfold range_len, ptr_diff, n. simpl. lia. }
  destruct (Z.gtb_spec (capacity_ v) (size_ v)) as [Hroom | Hfull].
  - (* in place *)
    destruct v as [[[bo z]] sz cap]. simpl in *. subst z.
    destruct bo as [b|]; [| subst cells; simpl in Hlen; lia].
    destruct (cells_split cells i (Z.to_nat sz)) as [y Hcells]; [lia | lia |].
    fold n in Hcells.
    set (pre := take i cells) in *.
    set (mid := take n (drop i cells)) in *.
    set (post := drop (S (Z.to_nat sz)) cells) in *.
    assert (Hpre : length pre = i) by (unfold pre; list_len).
    assert (Hmid : length mid = n) by (unfold mid, n; list_len).
    rewrite Hcells in Hblk.
    destruct (copy_backward_loop_run n h o b pre mid y post sz (sz + 1)
                Hblk Hmid ltac:(unfold n; lia) eq_refl) as [w Hw].
    erewrite bind_run.
    2:{ erewrite bind_run; [| by apply member_run].
        unfold std_copy_backward. cbn [items_ size_].
        rewrite over_range_forward by (unfold ptr_diff; simpl; lia). cbv beta.
        replace (range_len _ _) with n
          by (unfold range_len, ptr_diff, n; simpl; lia).
        unfold AP.Get, ptr_add. simpl.
        erewrite bind_run; [| exact Hw].
        erewrite bind_run; [| by apply get_obj_run].
        eapply (store_run _ _ _ _ i);
          [by eapply heap_lookup_insert | list_len | simpl; lia]. }
    rewrite list_insert_insert_eq, (insert_middle _ _ w value) by done.
    erewrite bind_run; [| by apply get_obj_run].
    erewrite bind_run; [| by apply upd_obj_run].
    rewrite wrap_small by (simpl; lia).
    eexists _, _. split; [reflexivity |]. simpl.
    eexists. split; [done |].
    assert (b < length h)%nat by by eapply lookup_lt_Some.
    assert (Hlen' : length (pre ++ value :: mid ++ post) = Z.to_nat cap).
    { rewrite <- Hlen, Hcells. list_len. }
    split; [| split; [done | split; [done | split; [| split; [done | split]]]]].
    + repeat split; simpl; try lia.
      unfold extent, block_cells. simpl.
      rewrite list_lookup_insert_eq by done. simpl. by rewrite Hlen'.
    + unfold elements, buffer, block_cells. simpl.
      rewrite list_lookup_insert_eq by done. simpl. f_equal.
      replace (Z.to_nat (sz + 1)) with (S (Z.to_nat sz)) by lia.
      unfold pre, mid, n. apply elements_inserted; lia.
    + intros b' Hne _. simpl. apply list_lookup_insert_ne. congruence.
    + done.
  - (* a new buffer *)
    assert (Hsize : size_ v = capacity_ v) by lia.
    set (nc := if capacity_ v =? 0 then 1 else wrap (capacity_ v * 2)).
    assert (Hnc : nc = if capacity_ v =? 0 then 1 else capacity_ v * 2).
    { unfold nc. destruct (capacity_ v =? 0); [done | apply wrap_small; lia]. }
    assert (Hnc' : size_ v + 1 ≤ nc ∧ nc < SIZE_MOD).
    { rewrite Hnc. destruct (Z.eqb_spec (capacity_ v) 0); lia. }
    erewrite bind_run.
    2:{ erewrite bind_run; [| apply create_run; lia].
        erewrite bind_run; [| by apply member_run].
        unfold std_copy.
        rewrite over_range_forward by (unfold ptr_diff; simpl; lia). cbv beta.
        rewrite range_len_add, Nat2Z.id.
        erewrite bind_run;
          [| eapply (copy_out_front_run _ _ _ _ cells);
             [exact Hheld | lia | list_len | simpl; lia | done]].
        erewrite bind_run;
          [| eapply (store_last_run _ _ _ i); [done | list_len | simpl; lia]].
        erewrite bind_run; [| by apply member_run].
        rewrite over_range_forward by (unfold ptr_diff; simpl; lia). cbv beta.
        rewrite Hrest.
        erewrite bind_run.
        2:{ eapply (copy_out_at _ _ _ (raw_ptr_ (items_ v)) cells _ i (S i));
              [done | exact Hheld | unfold n; lia
              | unfold n; list_len | simpl; lia | simpl; lia]. }
        erewrite bind_run; [| by apply swap_items_run].
        erewrite bind_run;
          [| apply upd_obj_run, list_lookup_insert_eq; by eapply lookup_lt_Some].
        eapply destroy_held_run. exact Hheld. }
    rewrite list_insert_insert_eq.
    erewrite bind_run; [| by apply get_obj_run, list_lookup_insert_eq].
    erewrite bind_run; [| by apply upd_obj_run, list_lookup_insert_eq].
    rewrite list_insert_insert_eq. rewrite wrap_small by (simpl; lia).
    rewrite take_succ_insert by list_len.
    rewrite take_app_le, take_take, Nat.min_id by list_len.
    eexists _, _. split; [reflexivity |].
    set (v' := set_size _ _).
    set (tail := drop (S i + n) _).
    edestruct (rehoused_intro h o this v v') as (Hre & Hv' & Hbuf' & Hval');
      [done | done | intros b Hb; by eapply holds_lt |].
    pose proof Hre as (Hobjs & Hp & Hsame & Hfreed).
    exists v'. split; [done |].
    split; [| split; [done | split; [done | split; [| split; [done | split; [done |]]]]]].
    + apply Hval'; simpl; [| lia | lia].
      unfold tail, n. list_len.
    + unfold elements. rewrite Hbuf'. simpl. f_equal.
      replace (Z.to_nat (size_ v + 1)) with (S (Z.to_nat (size_ v))) by lia.
      rewrite <- app_assoc. simpl. unfold n. apply elements_inserted; lia.
    + split; [done |]. simpl.
      destruct (base (raw_ptr_ (items_ v))) as [b|] eqn:Hb; [| done].
      intros [= ->]. pose proof (holds_lt _ _ _ _ Hheld Hb). lia.
Qed.

End InsertFacts.

(** ** Observers, and operations undone by their opposites *)

Section ObserverFacts.
Context {T : Type} `{Element T}.
Implicit Types (h : list (option (list T))) (o : list SimpleVector).
Implicit Types (cells xs : list T) (v : SimpleVector) (σ : state T).

(** X26. On a valid vector the observers agree with its contents and
    leave the store alone: [GetSize] is the number of elements,
    [GetCapacity] the number of slots of the buffer, [IsEmpty] tells
    whether there is no element, and [end() - begin()] is the number of
    elements. *)
Theorem observers_agree_with_contents this v xs cells σ :
  objs σ !! this = Some v → valid σ v →
  elements σ v = Some xs → buffer σ v = Some cells →
  SV.GetSize this σ = Ok (Z.of_nat (length xs)) σ ∧
  SV.GetCapacity this σ = Ok (Z.of_nat (length cells)) σ ∧
  SV.IsEmpty this σ = Ok (bool_decide (xs = [])) σ ∧
  (b ← SV.begin this; e ← SV.end_ this; mret (ptr_diff e b)) σ
    = Ok (Z.of_nat (length xs)) σ ∧
  (b ← SV.cbegin this; e ← SV.cend this; mret (ptr_diff e b)) σ
    = Ok (Z.of_nat (length xs)) σ.
Proof.
  destruct σ as [h o]. simpl. intros Hv Hval Hxs Hbuf.
  assert (xs = take (Z.to_nat (size_ v)) cells) as ->.
  { unfold elements in Hxs. rewrite Hbuf in Hxs. by injection Hxs as <-. }
  destruct (valid_holds _ _ _ _ Hval Hbuf) as (Hheld & Hlen & Hsz & Hcap).
  assert (Hlx : Z.of_nat (length (take (Z.to_nat (size_ v)) cells)) = size_ v)
    by list_len.
  assert (Hdiff : (b ← SV.begin this; e ← SV.end_ this; mret (ptr_diff e b))
                    (State h o) = Ok (size_ v) (State h o)).
  { unfold SV.begin, SV.end_.
    erewrite bind_run; [| by apply member_run].
    erewrite bind_run; [| by apply member_run].
    unfold ptr_diff. simpl. do 2 f_equal. lia. }
  unfold SV.GetSize, SV.GetCapacity, SV.IsEmpty, SV.cbegin, SV.cend.
  rewrite !(member_run _ _ _ v) by done. rewrite Hdiff, Hlx, Hlen.
  rewrite Z2Nat.id by lia.
  repeat split. do 2 f_equal.
  destruct (Z.eqb_spec (size_ v) 0) as [Hz | Hnz].
  - by rewrite Hz.
  - rewrite bool_decide_false; [done |].
    intros Hnil. rewrite Hnil in Hlx. simpl in Hlx. lia.
Qed.

(** X27. [Clear] on a valid vector leaves a valid empty vector that keeps
    its buffer, slot for slot, and its capacity; no block is touched. *)
Theorem Clear_keeps_the_buffer this v cells σ :
  objs σ !! this = Some v → valid σ v → buffer σ v = Some cells →
  returns (SV.Clear this) σ (λ _ σ',
    ∃ v', objs σ' = <[this := v']> (objs σ) ∧ heap σ' = heap σ ∧
          valid σ' v' ∧ elements σ' v' = Some [] ∧
          items_ v' = items_ v ∧ capacity_ v' = capacity_ v ∧
          buffer σ' v' = Some cells).
Proof.
  destruct σ as [h o]. simpl. intros Hv Hval Hbuf.
  eapply returns_of_run; [by apply upd_obj_run |].
  exists (set_size 0 v). split; [done |]. split; [done |].
  destruct Hval as (Hsz & Hcap & Hoff & Hblk).
  split; [repeat split; simpl; try done; lia |].
  assert (Hbuf' : buffer (State h (<[this := set_size 0 v]> o)) (set_size 0 v)
                  = Some cells) by done.
  unfold elements. by rewrite Hbuf'.
Qed.

(** X28. [ArrayPtr::Release] hands the array over: it returns the stored
    pointer and leaves [nullptr] behind, so that the released [ArrayPtr]
    tests false and its destructor deletes nothing, while an [ArrayPtr]
    made from the returned pointer does on destruction exactly what the
    original would have done. *)
Theorem Release_hands_over_the_array (a : ArrayPtr) σ :
  let '(p, a') := AP.Release a in
  p = raw_ptr_ a ∧ AP.to_bool a' = false ∧
  AP.destroy a' σ = Ok () σ ∧
  AP.destroy (AP.from_raw p) σ = AP.destroy a σ.
Proof. by destruct a as [p]. Qed.

End ObserverFacts.

Section RoundTrips.
Context {T : Type} `{Element T}.
Implicit Types (h : list (option (list T))) (o : list SimpleVector).
Implicit Types (cells xs ys : list T) (v a b : SimpleVector) (σ : state T).

Lemma elements_length σ v xs :
  valid σ v → elements σ v = Some xs → length xs = Z.to_nat (size_ v).
Proof.
  intros Hval Hxs. destruct (valid_has_buffer _ _ Hval) as [cells Hbuf].
  destruct σ as [h o].
  destruct (valid_holds _ _ _ _ Hval Hbuf) as (_ & Hlen & Hsz & _).
  unfold elements in Hxs. rewrite Hbuf in Hxs. injection Hxs as <-. list_len.
Qed.

(** X29. Erasing at the iterator that [Insert] (of an rvalue) returned
    gives back the elements the vector had, in a valid vector of the old
    size, whether or not the insertion had to reallocate. *)
Theorem Erase_undoes_Insert this v xs (i : nat) value σ :
  objs σ !! this = Some v → valid σ v → elements σ v = Some xs →
  Z.of_nat i ≤ size_ v → capacity_ v * 2 < SIZE_MOD →
  returns (r ← SV.Insert_move this (AP.Get (items_ v) +ₚ Z.of_nat i) value;
           SV.Erase this r) σ
    (λ r' σ',
      ∃ v', objs σ' = <[this := v']> (objs σ) ∧ valid σ' v' ∧
            size_ v' = size_ v ∧ elements σ' v' = Some xs ∧
            r' = AP.Get (items_ v') +ₚ Z.of_nat i).
Proof.
  intros Hv Hval Hxs Hi Hdbl.
  assert (Hthis : (this < length (objs σ))%nat) by by eapply lookup_lt_Some.
  pose proof (elements_length _ _ _ Hval Hxs) as Hlx.
  apply returns_bind. eapply returns_mono;
    [by apply (Insert_move_inserts_spec this v xs i value) |].
  intros r σ1 (v1 & Hobjs1 & Hval1 & Hs1 & _ & Hel1 & -> & _).
  assert (Hv1 : objs σ1 !! this = Some v1)
    by (rewrite Hobjs1; by apply list_lookup_insert_eq).
  eapply returns_mono;
    [apply (Erase_removes_element_spec this v1 (take i xs ++ value :: drop i xs) i);
       [done | done | done | lia] |].
  intros r' σ' (v' & (Hobjs' & _) & Hval' & Hs' & _ & -> & Hel').
  exists v'. rewrite Hobjs', Hobjs1, list_insert_insert_eq.
  split; [done |]. split; [done |]. split; [lia |]. split; [| done].
  rewrite Hel'. f_equal.
  replace i with (length (take i xs)) at 1 by list_len.
  by rewrite delete_middle, take_drop.
Qed.

(** X30. For a class type (one that is not trivially copyable, for which
    [PopBack] returns), [PopBack] right after [PushBack] (either overload)
    gives back the elements the vector had, in a valid vector of the old
    size. *)
Theorem PopBack_undoes_PushBack ov this item v xs σ :
  elem_trivial (T:=T) = false →
  objs σ !! this = Some v → valid σ v → elements σ v = Some xs →
  capacity_ v * 2 < SIZE_MOD →
  returns (PushBack ov this item;; SV.PopBack this) σ (λ _ σ',
    ∃ v', objs σ' = <[this := v']> (objs σ) ∧ valid σ' v' ∧
          size_ v' = size_ v ∧ elements σ' v' = Some xs).
Proof.
  intros Hclass Hv Hval Hxs Hdbl.
  assert (Hthis : (this < length (objs σ))%nat) by by eapply lookup_lt_Some.
  pose proof (elements_length _ _ _ Hval Hxs) as Hlx.
  destruct (valid_has_buffer _ _ Hval) as [cells Hbuf].
  assert (xs = take (Z.to_nat (size_ v)) cells) as Hxs'.
  { unfold elements in Hxs. rewrite Hbuf in Hxs. by injection Hxs as <-. }
  destruct Hval as [Hsz Hrest]. pose proof (conj Hsz Hrest) as Hval.
  apply returns_bind. eapply returns_mono.
  { destruct ov;
      [apply (PushBack_copy_appends this item v cells)
      | apply (PushBack_move_appends this item v cells)]; done. }
  intros [] σ1 (v1 & Hobjs1 & Hval1 & Hs1 & Hel1 & _).
  assert (Hv1 : objs σ1 !! this = Some v1)
    by (rewrite Hobjs1; by apply list_lookup_insert_eq).
  destruct (valid_has_buffer _ _ Hval1) as [cells1 Hbuf1].
  eapply returns_mono;
    [apply (PopBack_drops_last_spec this v1 cells1);
       [done | done | done | lia | done] |].
  intros [] σ' (v' & cells' & (Hobjs' & _) & Hval' & Hs' & _ & _ & _ & Hel').
  exists v'. rewrite Hobjs', Hobjs1, list_insert_insert_eq.
  split; [done |]. split; [done |]. split; [lia |].
  rewrite Hel'. f_equal.
  unfold elements in Hel1. rewrite Hbuf1 in Hel1. simpl in Hel1.
  injection Hel1 as Hel1. rewrite <- Hxs' in Hel1.
  replace (Z.to_nat (size_ v1) - 1)%nat with (Z.to_nat (size_ v)) by lia.
  assert (Htake : take (Z.to_nat (size_ v)) cells1
                  = take (Z.to_nat (size_ v)) (take (Z.to_nat (size_ v1)) cells1)).
  { rewrite take_take. f_equal. lia. }
  rewrite Htake, Hel1, take_app_le by lia. apply take_ge. lia.
Qed.

End RoundTrips.

(** ** The theorems above on concrete stores

    Each general theorem is instantiated on a store of [int] vectors, or
    of vectors of [X] where the theorem is about class types, its
    hypotheses being checked there by evaluation. *)

Section Instances.
Local Existing Instance int_elem.
Local Existing Instance int_EqElement.
Local Existing Instance int_OrdElement.
Local Existing Instance X_Element.

Lemma Reserve_moves_to_exact_capacity_witness :
  let this := 0%nat in
  let v := vec 0 3 4 in
  let cells := [1; 2; 3; 0] in
  let new_capacity := 6 in
  let σ := Samples.three_vectors in
  returns (SV.Reserve this new_capacity) σ (λ _ σ',
    if new_capacity >? capacity_ v then
      ∃ v', rehoused σ this v v' σ' ∧ valid σ' v' ∧
            size_ v' = size_ v ∧ capacity_ v' = new_capacity ∧
            buffer σ' v' =
              Some (take (Z.to_nat (size_ v)) cells ++
                    replicate (Z.to_nat (new_capacity - size_ v)) elem_default)
    else σ' = σ).
Proof.
  cbv zeta.
  apply (Reserve_moves_to_exact_capacity 0%nat (vec 0 3 4) [1; 2; 3; 0] 6
           Samples.three_vectors);
    first [ reflexivity | simpl; lia
          | (repeat split; simpl; first [lia | reflexivity])
          | (intros; vm_compute; repeat split; intros;
             first [reflexivity | discriminate]) ].
Defined.

Lemma Resize_beyond_capacity_witness :
  let this := 0%nat in
  let v := vec 0 3 4 in
  let cells := [1; 2; 3; 0] in
  let new_size := 5 in
  let σ := Samples.three_vectors in
  returns (SV.Resize this new_size) σ (λ _ σ',
    ∃ v', rehoused σ this v v' σ' ∧ valid σ' v' ∧
          size_ v' = new_size ∧
          capacity_ v' = Z.max new_size (wrap (capacity_ v * 2)) ∧
          buffer σ' v' =
            Some (cells ++ replicate (Z.to_nat (capacity_ v' - capacity_ v))
                                     elem_default)).
Proof.
  cbv zeta.
  apply (Resize_beyond_capacity 0%nat (vec 0 3 4) [1; 2; 3; 0] 5
           Samples.three_vectors);
    first [ reflexivity | simpl; lia
          | (repeat split; simpl; first [lia | reflexivity])
          | (intros; vm_compute; repeat split; intros;
             first [reflexivity | discriminate]) ].
Defined.

Lemma Resize_within_capacity_witness :
  let this := 0%nat in
  let v := vec 0 3 4 in
  let cells := [1; 2; 3; 0] in
  let new_size := 2 in
  let σ := Samples.three_vectors in
  let kept := Z.min (size_ v) new_size in
  if kept + new_size <=? capacity_ v then
    returns (SV.Resize this new_size) σ (λ _ σ',
      objs σ' = <[this := set_size new_size v]> (objs σ) ∧
      buffer σ' (set_size new_size v) =
        Some (take (Z.to_nat kept) cells ++
              replicate (Z.to_nat new_size) elem_default ++
              drop (Z.to_nat (kept + new_size)) cells) ∧
      length (heap σ') = length (heap σ) ∧
      same_blocks_but (base (raw_ptr_ (items_ v))) σ σ')
  else
    SV.Resize this new_size σ =
      Undefined (BadStore (Ptr (base (raw_ptr_ (items_ v))) (capacity_ v))).
Proof.
  cbv zeta.
  apply (Resize_within_capacity 0%nat (vec 0 3 4) [1; 2; 3; 0] 2
           Samples.three_vectors);
    first [ reflexivity | simpl; lia
          | (repeat split; simpl; first [lia | reflexivity])
          | (intros; vm_compute; repeat split; intros;
             first [reflexivity | discriminate]) ].
Defined.

Lemma ctor_fill_makes_copies_of_value_witness :
  let size := 2 in
  let value := 7 in
  let σ := Samples.three_vectors in
  returns (SV.ctor_fill size value) σ (λ this σ',
    this = length (objs σ) ∧
    ∃ v', objs σ' = objs σ ++ [v'] ∧ valid σ' v' ∧
          size_ v' = size ∧ capacity_ v' = size ∧
          buffer σ' v' = Some (replicate (Z.to_nat size) value) ∧
          same_blocks_but None σ σ').
Proof.
  cbv zeta.
  apply (ctor_fill_makes_copies_of_value 2 7 Samples.three_vectors);
    first [ reflexivity | simpl; lia
          | (repeat split; simpl; first [lia | reflexivity])
          | (intros; vm_compute; repeat split; intros;
             first [reflexivity | discriminate]) ].
Defined.

Lemma ctor_copy_copies_elements_witness :
  let other := 0%nat in
  let s := vec 0 3 4 in
  let cells := [1; 2; 3; 0] in
  let σ := Samples.three_vectors in
  returns (SV.ctor_copy other) σ (λ this σ',
    this = length (objs σ) ∧
    ∃ v', objs σ' = objs σ ++ [v'] ∧
          size_ v' = size_ s ∧ capacity_ v' = 0 ∧
          buffer σ' v' =
            Some (take (Z.to_nat (size_ s)) cells ++
                  replicate (Z.to_nat (capacity_ s - size_ s)) elem_new) ∧
          elements σ' v' = elements σ s ∧
          (capacity_ s ≠ 0 →
           raw_ptr_ (items_ v') = Ptr (Some (length (heap σ))) 0) ∧
          same_blocks_but None σ σ').
Proof.
  cbv zeta.
  apply (ctor_copy_copies_elements 0%nat (vec 0 3 4) [1; 2; 3; 0]
           Samples.three_vectors);
    first [ reflexivity | simpl; lia
          | (repeat split; simpl; first [lia | reflexivity])
          | (intros; vm_compute; repeat split; intros;
             first [reflexivity | discriminate]) ].
Defined.

Lemma swap_exchanges_and_undoes_witness :
  let this := 0%nat in
  let other := 1%nat in
  let a := vec 0 3 4 in
  let b := vec 1 2 2 in
  let σ := Samples.three_vectors in
  SV.swap this other σ
    = Ok () (State (heap σ) (<[other := a]> (<[this := b]> (objs σ)))) ∧
  (SV.swap this other;; SV.swap this other) σ = Ok () σ.
Proof.
  cbv zeta.
  apply (swap_exchanges_and_undoes 0%nat 1%nat (vec 0 3 4) (vec 1 2 2)
           Samples.three_vectors);
    first [ reflexivity | simpl; lia
          | (repeat split; simpl; first [lia | reflexivity])
          | (intros; vm_compute; repeat split; intros;
             first [reflexivity | discriminate]) ].
Defined.

Lemma ctor_move_takes_the_buffer_witness :
  let other := 0%nat in
  let s := vec 0 3 4 in
  let σ := Samples.three_vectors in
  let fresh := if capacity_ s =? 0 then nullptr
               else Ptr (Some (length (heap σ))) 0 in
  returns (SV.ctor_move other) σ (λ this σ',
    this = length (objs σ) ∧
    objs σ' = <[other := mkSimpleVector (mkArrayPtr fresh) 0 0]> (objs σ) ++ [s] ∧
    heap σ' = heap σ ++
              (if capacity_ s =? 0 then []
               else [Some (replicate (Z.to_nat (capacity_ s)) elem_new)])).
Proof.
  cbv zeta.
  apply (ctor_move_takes_the_buffer 0%nat (vec 0 3 4) Samples.three_vectors);
    first [ reflexivity | simpl; lia
          | (repeat split; simpl; first [lia | reflexivity])
          | (intros; vm_compute; repeat split; intros;
             first [reflexivity | discriminate]) ].
Defined.

Lemma ctor_reserve_makes_empty_with_capacity_witness :
  let n := 3 in
  let σ := Samples.three_vectors in
  returns (SV.ctor_reserve (Reserve n)) σ (λ this σ',
    this = length (objs σ) ∧
    ∃ v', objs σ' = objs σ ++ [v'] ∧ valid σ' v' ∧
          size_ v' = 0 ∧ capacity_ v' = n ∧
          buffer σ' v' = Some (replicate (Z.to_nat n) elem_default) ∧
          same_blocks_but None σ σ').
Proof.
  cbv zeta.
  apply (ctor_reserve_makes_empty_with_capacity 3 Samples.three_vectors);
    first [ reflexivity | simpl; lia
          | (repeat split; simpl; first [lia | reflexivity])
          | (intros; vm_compute; repeat split; intros;
             first [reflexivity | discriminate]) ].
Defined.

Lemma PushBack_appends_witness :
  let ov := ByCopy in
  let this := 1%nat in
  let item := 6 in
  let v := vec 1 2 2 in
  let cells := [4; 5] in
  let σ := Samples.three_vectors in
  returns (PushBack ov this item) σ (λ _ σ',
    ∃ v', objs σ' = <[this := v']> (objs σ) ∧ valid σ' v' ∧
          size_ v' = size_ v + 1 ∧
          elements σ' v' = Some (take (Z.to_nat (size_ v)) cells ++ [item]) ∧
          same_blocks_but (base (raw_ptr_ (items_ v))) σ σ' ∧
          (size_ v < capacity_ v → items_ v' = items_ v)).
Proof.
  cbv zeta.
  apply (PushBack_appends ByCopy 1%nat 6 (vec 1 2 2) [4; 5]
           Samples.three_vectors);
    first [ reflexivity | simpl; lia
          | (repeat split; simpl; first [lia | reflexivity])
          | (intros; vm_compute; repeat split; intros;
             first [reflexivity | discriminate]) ].
Defined.

Lemma push_all_collects_items_witness :
  let l := [(ByCopy, 1); (ByMove, 2); (ByCopy, 3)] in
  let σ := Samples.three_vectors in
  returns (w ← SV.ctor_default; push_all w l;; mret w) σ (λ this σ',
    this = length (objs σ) ∧
    ∃ v', objs σ' = objs σ ++ [v'] ∧ valid σ' v' ∧
          size_ v' = Z.of_nat (length l) ∧
          elements σ' v' = Some (l.*2)).
Proof.
  cbv zeta.
  apply (push_all_collects_items [(ByCopy, 1); (ByMove, 2); (ByCopy, 3)]
           Samples.three_vectors);
    first [ reflexivity | simpl; lia
          | (repeat split; simpl; first [lia | reflexivity])
          | (intros; vm_compute; repeat split; intros;
             first [reflexivity | discriminate]) ].
Defined.

Lemma Erase_removes_element_witness :
  let this := 0%nat in
  let v := vec 0 3 4 in
  let xs := [1; 2; 3] in
  let i := 1%nat in
  let σ := Samples.three_vectors in
  returns (SV.Erase this (AP.Get (items_ v) +ₚ Z.of_nat i)) σ (λ r σ',
    ∃ v', rehoused σ this v v' σ' ∧ valid σ' v' ∧
          size_ v' = size_ v - 1 ∧ capacity_ v' = capacity_ v ∧
          r = AP.Get (items_ v') +ₚ Z.of_nat i ∧
          elements σ' v' = Some (delete i xs)).
Proof.
  cbv zeta.
  apply (Erase_removes_element 0%nat (vec 0 3 4) [1; 2; 3] 1%nat
           Samples.three_vectors);
    first [ reflexivity | simpl; lia
          | (repeat split; simpl; first [lia | reflexivity])
          | (intros; vm_compute; repeat split; intros;
             first [reflexivity | discriminate]) ].
Defined.

Lemma PopBack_drops_last_witness :
  let this := 0%nat in
  let v := vec 0 3 4 in
  let cells := [mkX 1; mkX 2; mkX 3; mkX 5] in
  let σ := Samples.three_X in
  if elem_trivial (T:=X) then
    SV.PopBack this σ =
      Undefined (BadRange (AP.Get (items_ v) +ₚ size_ v +ₚ 1)
                          (AP.Get (items_ v) +ₚ size_ v))
  else
    returns (SV.PopBack this) σ (λ _ σ',
      ∃ v' cells', rehoused σ this v v' σ' ∧ valid σ' v' ∧
            size_ v' = size_ v - 1 ∧ capacity_ v' = capacity_ v ∧
            buffer σ' v' = Some cells' ∧
            take (Z.to_nat (size_ v)) cells' = take (Z.to_nat (size_ v)) cells ∧
            elements σ' v' = Some (take (Z.to_nat (size_ v) - 1) cells)).
Proof.
  cbv zeta.
  apply (PopBack_drops_last 0%nat (vec 0 3 4) [mkX 1; mkX 2; mkX 3; mkX 5]
           Samples.three_X);
    first [ reflexivity | simpl; lia
          | (repeat split; simpl; first [lia | reflexivity])
          | (intros; vm_compute; repeat split; intros;
             first [reflexivity | discriminate]) ].
Defined.

Lemma At_refers_to_element_witness :
  let this := 0%nat in
  let v := vec 0 3 4 in
  let xs := [1; 2; 3] in
  let i := 2%nat in
  let x := 3 in
  let σ := Samples.three_vectors in
  (p ← SV.At this (Z.of_nat i); load p) σ = Ok x σ.
Proof.
  cbv zeta.
  apply (At_refers_to_element 0%nat (vec 0 3 4) [1; 2; 3] 2%nat 3
           Samples.three_vectors);
    first [ reflexivity | simpl; lia
          | (repeat split; simpl; first [lia | reflexivity])
          | (intros; vm_compute; repeat split; intros;
             first [reflexivity | discriminate]) ].
Defined.

Lemma subscript_reaches_every_slot_witness :
  let this := 0%nat in
  let v := vec 0 3 4 in
  let cells := [1; 2; 3; 0] in
  let i := 3%nat in
  let σ := Samples.three_vectors in
  (p ← SV.subscript this (Z.of_nat i); load p) σ =
    match cells !! i with
    | Some x => Ok x σ
    | None => Undefined (BadLoad (raw_ptr_ (items_ v) +ₚ Z.of_nat i))
    end ∧
  (is_Some (cells !! i) ↔ Z.of_nat i < capacity_ v).
Proof.
  cbv zeta.
  apply (subscript_reaches_every_slot 0%nat (vec 0 3 4) [1; 2; 3; 0] 3%nat
           Samples.three_vectors);
    first [ reflexivity | simpl; lia
          | (repeat split; simpl; first [lia | reflexivity])
          | (intros; vm_compute; repeat split; intros;
             first [reflexivity | discriminate]) ].
Defined.

Lemma eq_op_compares_along_left_witness :
  let lhs := 1%nat in
  let rhs := 0%nat in
  let a := vec 1 2 2 in
  let b := vec 0 3 4 in
  let xs := [4; 5] in
  let ys := [1; 2; 3] in
  let σ := Samples.three_vectors in
  SV.eq_op lhs rhs σ = Ok (all_eqb xs ys) σ ∧
  SV.ne_op lhs rhs σ = Ok (negb (all_eqb xs ys)) σ.
Proof.
  cbv zeta.
  apply (eq_op_compares_along_left 1%nat 0%nat (vec 1 2 2) (vec 0 3 4) [4; 5]
           [1; 2; 3] Samples.three_vectors);
    first [ reflexivity | simpl; lia
          | (repeat split; simpl; first [lia | reflexivity])
          | (intros; vm_compute; repeat split; intros;
             first [reflexivity | discriminate]) ].
Defined.

Lemma eq_op_decides_equality_at_same_size_witness :
  let lhs := 0%nat in
  let rhs := 1%nat in
  let a := vec 0 2 4 in
  let b := vec 1 2 2 in
  let xs := [7; 8] in
  let ys := [7; 8] in
  let σ := Samples.same_elements in
  ∃ r, SV.eq_op lhs rhs σ = Ok r σ ∧ (r = true ↔ xs = ys).
Proof.
  cbv zeta.
  apply (eq_op_decides_equality_at_same_size 0%nat 1%nat (vec 0 2 4)
           (vec 1 2 2) [7; 8] [7; 8] Samples.same_elements);
    first [ reflexivity | simpl; lia
          | (repeat split; simpl; first [lia | reflexivity])
          | intros x y; apply Z.eqb_eq ].
Defined.

Lemma ordering_is_lexicographic_witness :
  let lhs := 0%nat in
  let rhs := 1%nat in
  let a := vec 0 3 4 in
  let b := vec 1 2 2 in
  let xs := [1; 2; 3] in
  let ys := [4; 5] in
  let σ := Samples.three_vectors in
  SV.lt_op lhs rhs σ = Ok (lex_ltb xs ys) σ ∧
  SV.gt_op lhs rhs σ = Ok (lex_ltb ys xs) σ ∧
  SV.le_op lhs rhs σ = Ok (negb (lex_ltb ys xs)) σ ∧
  SV.ge_op lhs rhs σ = Ok (negb (lex_ltb xs ys)) σ.
Proof.
  cbv zeta.
  apply (ordering_is_lexicographic 0%nat 1%nat (vec 0 3 4) (vec 1 2 2)
           [1; 2; 3] [4; 5] Samples.three_vectors);
    first [ reflexivity | simpl; lia
          | (repeat split; simpl; first [lia | reflexivity])
          | (intros; vm_compute; repeat split; intros;
             first [reflexivity | discriminate]) ].
Defined.

Lemma dtor_deletes_the_buffer_witness :
  let this := 0%nat in
  let v := vec 0 3 4 in
  let σ := Samples.three_vectors in
  returns (SV.dtor this) σ (λ _ σ',
    objs σ' = <[this := set_size 0 v]> (objs σ) ∧
    length (heap σ') = length (heap σ) ∧
    same_blocks_but (base (raw_ptr_ (items_ v))) σ σ' ∧
    (∀ b, base (raw_ptr_ (items_ v)) = Some b → heap σ' !! b = Some None)).
Proof.
  cbv zeta.
  apply (dtor_deletes_the_buffer 0%nat (vec 0 3 4) Samples.three_vectors);
    first [ reflexivity | simpl; lia
          | (repeat split; simpl; first [lia | reflexivity])
          | (intros; vm_compute; repeat split; intros;
             first [reflexivity | discriminate]) ].
Defined.

Lemma move_construct_then_destroy_both_witness :
  let other := 0%nat in
  let s := vec 0 3 4 in
  let σ := Samples.three_vectors in
  returns (this ← SV.ctor_move other; SV.dtor this;; SV.dtor other) σ (λ _ σ',
    heap σ' = retire (raw_ptr_ (items_ s)) (heap σ) ++
              (if capacity_ s =? 0 then [] else [None])).
Proof.
  cbv zeta.
  apply (move_construct_then_destroy_both 0%nat (vec 0 3 4)
           Samples.three_vectors);
    first [ reflexivity | simpl; lia
          | (repeat split; simpl; first [lia | reflexivity])
          | (intros; vm_compute; repeat split; intros;
             first [reflexivity | discriminate]) ].
Defined.



Lemma Insert_move_inserts_witness :
  let this := 0%nat in
  let v := vec 0 3 4 in
  let xs := [1; 2; 3] in
  let i := 1%nat in
  let value := 9 in
  let σ := Samples.three_vectors in
  returns (SV.Insert_move this (AP.Get (items_ v) +ₚ Z.of_nat i) value) σ
    (λ r σ',
      ∃ v', objs σ' = <[this := v']> (objs σ) ∧ valid σ' v' ∧
            size_ v' = size_ v + 1 ∧
            capacity_ v' = (if capacity_ v >? size_ v then capacity_ v
                            else if capacity_ v =? 0 then 1
                            else capacity_ v * 2) ∧
            elements σ' v' = Some (take i xs ++ value :: drop i xs) ∧
            r = AP.Get (items_ v') +ₚ Z.of_nat i ∧
            same_blocks_but (base (raw_ptr_ (items_ v))) σ σ' ∧
            (if capacity_ v >? size_ v then items_ v' = items_ v
             else rehoused σ this v v' σ')).
Proof.
  cbv zeta.
  apply (Insert_move_inserts 0%nat (vec 0 3 4) [1; 2; 3] 1%nat 9
           Samples.three_vectors);
    first [ reflexivity | simpl; lia
          | (repeat split; simpl; first [lia | reflexivity])
          | (intros; vm_compute; repeat split; intros;
             first [reflexivity | discriminate]) ].
Defined.

Lemma Insert_copy_inserts_witness :
  let this := 1%nat in
  let v := vec 1 2 2 in
  let xs := [4; 5] in
  let i := 1%nat in
  let value := 9 in
  let σ := Samples.three_vectors in
  returns (SV.Insert_copy this (AP.Get (items_ v) +ₚ Z.of_nat i) value) σ
    (λ r σ',
      ∃ v', objs σ' = <[this := v']> (objs σ) ∧ valid σ' v' ∧
            size_ v' = size_ v + 1 ∧
            capacity_ v' = (if capacity_ v >? size_ v then capacity_ v
                            else if capacity_ v =? 0 then 1
                            else capacity_ v * 2) ∧
            elements σ' v' = Some (take i xs ++ value :: drop i xs) ∧
            r = AP.Get (items_ v) +ₚ Z.of_nat i ∧
            same_blocks_but (base (raw_ptr_ (items_ v))) σ σ' ∧
            (if capacity_ v >? size_ v then items_ v' = items_ v
             else rehoused σ this v v' σ' ∧ base r ≠ base (AP.Get (items_ v')))).
Proof.
  cbv zeta.
  apply (Insert_copy_inserts 1%nat (vec 1 2 2) [4; 5] 1%nat 9
           Samples.three_vectors);
    first [ reflexivity | simpl; lia
          | (repeat split; simpl; first [lia | reflexivity])
          | (intros; vm_compute; repeat split; intros;
             first [reflexivity | discriminate]) ].
Defined.

Lemma observers_agree_with_contents_witness :
  let this := 0%nat in
  let v := vec 0 3 4 in
  let xs := [1; 2; 3] in
  let cells := [1; 2; 3; 0] in
  let σ := Samples.three_vectors in
  SV.GetSize this σ = Ok (Z.of_nat (length xs)) σ ∧
  SV.GetCapacity this σ = Ok (Z.of_nat (length cells)) σ ∧
  SV.IsEmpty this σ = Ok (bool_decide (xs = [])) σ ∧
  (b ← SV.begin this; e ← SV.end_ this; mret (ptr_diff e b)) σ
    = Ok (Z.of_nat (length xs)) σ ∧
  (b ← SV.cbegin this; e ← SV.cend this; mret (ptr_diff e b)) σ
    = Ok (Z.of_nat (length xs)) σ.
Proof.
  cbv zeta.
  apply (observers_agree_with_contents 0%nat (vec 0 3 4) [1; 2; 3]
           [1; 2; 3; 0] Samples.three_vectors);
    first [ reflexivity | simpl; lia
          | (repeat split; simpl; first [lia | reflexivity])
          | (intros; vm_compute; repeat split; intros;
             first [reflexivity | discriminate]) ].
Defined.

Lemma Clear_keeps_the_buffer_witness :
  let this := 0%nat in
  let v := vec 0 3 4 in
  let cells := [1; 2; 3; 0] in
  let σ := Samples.three_vectors in
  returns (SV.Clear this) σ (λ _ σ',
    ∃ v', objs σ' = <[this := v']> (objs σ) ∧ heap σ' = heap σ ∧
          valid σ' v' ∧ elements σ' v' = Some [] ∧
          items_ v' = items_ v ∧ capacity_ v' = capacity_ v ∧
          buffer σ' v' = Some cells).
Proof.
  cbv zeta.
  apply (Clear_keeps_the_buffer 0%nat (vec 0 3 4) [1; 2; 3; 0]
           Samples.three_vectors);
    first [ reflexivity | simpl; lia
          | (repeat split; simpl; first [lia | reflexivity])
          | (intros; vm_compute; repeat split; intros;
             first [reflexivity | discriminate]) ].
Defined.

Lemma Erase_undoes_Insert_witness :
  let this := 1%nat in
  let v := vec 1 2 2 in
  let xs := [4; 5] in
  let i := 1%nat in
  let value := 9 in
  let σ := Samples.three_vectors in
  returns (r ← SV.Insert_move this (AP.Get (items_ v) +ₚ Z.of_nat i) value;
           SV.Erase this r) σ
    (λ r' σ',
      ∃ v', objs σ' = <[this := v']> (objs σ) ∧ valid σ' v' ∧
            size_ v' = size_ v ∧ elements σ' v' = Some xs ∧
            r' = AP.Get (items_ v') +ₚ Z.of_nat i).
Proof.
  cbv zeta.
  apply (Erase_undoes_Insert 1%nat (vec 1 2 2) [4; 5] 1%nat 9
           Samples.three_vectors);
    first [ reflexivity | simpl; lia
          | (repeat split; simpl; first [lia | reflexivity])
          | (intros; vm_compute; repeat split; intros;
             first [reflexivity | discriminate]) ].
Defined.

Lemma PopBack_undoes_PushBack_witness :
  let ov := ByMove in
  let this := 0%nat in
  let item := mkX 6 in
  let v := vec 0 3 4 in
  let xs := [mkX 1; mkX 2; mkX 3] in
  let σ := Samples.three_X in
  returns (PushBack ov this item;; SV.PopBack this) σ (λ _ σ',
    ∃ v', objs σ' = <[this := v']> (objs σ) ∧ valid σ' v' ∧
          size_ v' = size_ v ∧ elements σ' v' = Some xs).
Proof.
  cbv zeta.
  apply (PopBack_undoes_PushBack ByMove 0%nat (mkX 6) (vec 0 3 4)
           [mkX 1; mkX 2; mkX 3] Samples.three_X);
    first [ reflexivity | simpl; lia
          | (repeat split; simpl; first [lia | reflexivity])
          | (intros; vm_compute; repeat split; intros;
             first [reflexivity | discriminate]) ].
Defined.

End Instances.
